(** * Endee RAG backend: the chunker, the generation gateway and the
      request handlers of [backend/main.py] and [backend/rag.py].

    The Python code is embedded shallowly.  Text is a list of Unicode code
    points, the in-memory dictionaries are finite maps, and the handlers
    are functions in a small state-and-exception monad over a [World]
    holding the three module-level stores together with what the external
    collaborators (vector index, language model, uuid source, clock) have
    been asked so far. *)

From Stdlib Require Import ZArith NArith List Bool Lia String Ascii DecimalString Sorted.
From stdpp Require Import base option list gmap fin_maps.

Local Open Scope Z_scope.

(** ** Python strings *)

Module PyStr.

(** A Python [str] is a sequence of code points. *)
Definition char := N.
Definition pystr := list char.

(** String literals of the source, written as Rocq strings. *)
Definition py (s : string) : pystr :=
  map N_of_ascii (list_ascii_of_string s).

Definition len (s : pystr) : Z := Z.of_nat (length s).

(** [str.isspace] on one code point (CPython's [_PyUnicode_IsWhitespace]). *)
Definition isspace (c : char) : bool :=
  (((9 <=? c) && (c <=? 13)) || ((28 <=? c) && (c <=? 32))
   || (c =? 133) || (c =? 160) || (c =? 5760)
   || ((8192 <=? c) && (c <=? 8202))
   || (c =? 8232) || (c =? 8233) || (c =? 8239) || (c =? 8287)
   || (c =? 12288))%N.

Definition NL : char := 10%N.
Definition SP : char := 32%N.
Definition DOT : char := 46%N.

Fixpoint lstrip (s : pystr) : pystr :=
  match s with
  | [] => []
  | c :: s' => if isspace c then lstrip s' else s
  end.

Definition rstrip (s : pystr) : pystr := rev (lstrip (rev s)).

(** [s.strip()] *)
Definition strip (s : pystr) : pystr := rstrip (lstrip s).

(** [s.split(sep)] for a one-character separator: never the empty list. *)
Fixpoint split_on (sep : char) (s : pystr) : list pystr :=
  match s with
  | [] => [[]]
  | c :: s' =>
      if (c =? sep)%N then [] :: split_on sep s'
      else match split_on sep s' with
           | [] => [[c]]
           | w :: ws => (c :: w) :: ws
           end
  end.

(** [s.replace(a + b, a' + b')] for two-character patterns, scanning left
    to right over non-overlapping occurrences. *)
Fixpoint replace2 (a b a' b' : char) (s : pystr) : pystr :=
  match s with
  | [] => []
  | c :: t =>
      match t with
      | [] => [c]
      | d :: u =>
          if ((c =? a) && (d =? b))%N then a' :: b' :: replace2 a b a' b' u
          else c :: replace2 a b a' b' t
      end
  end.

(** [s.split()] : the maximal runs of non-whitespace characters.  The
    accumulator [w] holds the current run, reversed. *)
Fixpoint split_ws_from (w : pystr) (s : pystr) : list pystr :=
  match s with
  | [] => match w with [] => [] | _ => [rev w] end
  | c :: s' =>
      if isspace c
      then match w with
           | [] => split_ws_from [] s'
           | _ => rev w :: split_ws_from [] s'
           end
      else split_ws_from (c :: w) s'
  end.

Definition split_ws (s : pystr) : list pystr := split_ws_from [] s.

(** [sep.join(l)] *)
Fixpoint join (sep : pystr) (l : list pystr) : pystr :=
  match l with
  | [] => []
  | [w] => w
  | w :: ws => w ++ sep ++ join sep ws
  end.

(** [l[start:]] with Python's treatment of negative and oversized bounds. *)
Definition slice_from {A} (start : Z) (l : list A) : list A :=
  let n := Z.of_nat (length l) in
  let i := if start <? 0 then Z.max 0 (start + n) else Z.min start n in
  drop (Z.to_nat i) l.

(** Truthiness of a string. *)
Definition truthy (s : pystr) : bool :=
  match s with [] => false | _ => true end.

(** [sub in s] *)
Fixpoint is_prefix (p s : pystr) : bool :=
  match p, s with
  | [], _ => true
  | _ :: _, [] => false
  | a :: p', b :: s' => (a =? b)%N && is_prefix p' s'
  end.

Fixpoint contains (sub s : pystr) : bool :=
  is_prefix sub s ||
  match s with
  | [] => false
  | _ :: s' => contains sub s'
  end.

(** [s.lower()] on the ASCII letters.  No code point outside [A-Z] lowers
    to a letter of "quota" or "rate", the only words looked for in lowered
    text, so the membership tests of the source are decided as in Python. *)
Definition lower_char (c : char) : char :=
  if ((65 <=? c) && (c <=? 90))%N then (c + 32)%N else c.

Definition lower (s : pystr) : pystr := map lower_char s.

End PyStr.

Import PyStr.

(** ** The chunker ([smart_chunk], main.py) *)

Module Chunker.

(** The first loop: paragraphs on newline, sentences at ". ", both
    stripped, empty ones dropped. *)
Definition para_sentences (para : pystr) : list pystr :=
  filter (fun s => truthy s = true)
         (map strip (split_on NL (replace2 DOT SP DOT NL para))).

Definition sentences_of (text : pystr) : list pystr :=
  concat (map (fun para =>
                 let para := strip para in
                 if truthy para then para_sentences para else [])
              (split_on NL text)).

(** One iteration of the second loop over [(chunks, current_chunk)]. *)
Definition chunk_step (chunk_size overlap : Z)
    (st : list pystr * pystr) (sent : pystr) : list pystr * pystr :=
  let '(chunks, current_chunk) := st in
  if (len current_chunk + len sent + 1 >? chunk_size) && truthy current_chunk
  then
    let words := split_ws current_chunk in
    let overlap_words :=
      slice_from (- Z.min (Z.of_nat (length words)) (overlap `div` 5)) words in
    (chunks ++ [strip current_chunk],
     join [SP] overlap_words ++ [SP] ++ sent)
  else (chunks, current_chunk ++ [SP] ++ sent).

Definition chunk_loop (chunk_size overlap : Z)
    (sentences : list pystr) : list pystr * pystr :=
  fold_left (chunk_step chunk_size overlap) sentences ([], []).

Definition smart_chunk (text : pystr) (chunk_size overlap : Z) : list pystr :=
  let '(chunks, current_chunk) :=
    chunk_loop chunk_size overlap (sentences_of text) in
  if truthy (strip current_chunk) then chunks ++ [strip current_chunk]
  else chunks.

Definition default_chunk_size : Z := 500.
Definition default_overlap : Z := 100.

End Chunker.

Import Chunker.

(** ** The chunking algorithm as the specification words it

    A second definition, written from the prose of the specification
    (section 4.1) and not from the code, to compare [smart_chunk] with. *)

Module ChunkSpec.

(** Sentences of a paragraph: cut at each literal period-space; the period
    stays with the sentence it ends. *)
Fixpoint cut_sentences (s : pystr) : list pystr :=
  match s with
  | [] => [[]]
  | c :: t =>
      match t with
      | [] => [[c]]
      | d :: u =>
          if ((c =? DOT) && (d =? SP))%N then [DOT] :: cut_sentences u
          else match cut_sentences t with
               | [] => [[c]]
               | w :: ws => (c :: w) :: ws
               end
      end
  end.

Definition nonempty_trimmed (l : list pystr) : list pystr :=
  filter (fun s => s <> []) (map strip l).

Definition spec_sentences (text : pystr) : list pystr :=
  concat (map (fun para => nonempty_trimmed (cut_sentences para))
              (nonempty_trimmed (split_on NL text))).

(** The last [k] elements of a list (all of them when there are fewer). *)
Definition last_n {A} (k : nat) (l : list A) : list A :=
  drop (length l - k) l.

(** Number of overlap words: floor(overlap / 5). *)
Definition overlap_words_count (overlap : Z) : nat := Z.to_nat (overlap `div` 5).

Definition spec_step (chunk_size overlap : Z)
    (st : list pystr * pystr) (sent : pystr) : list pystr * pystr :=
  let '(chunks, buffer) := st in
  let appended := buffer ++ [SP] ++ sent in
  if (len appended >? chunk_size) && negb (len buffer =? 0)
  then
    let seed := join [SP] (last_n (overlap_words_count overlap) (split_ws buffer)) in
    (chunks ++ [strip buffer], seed ++ [SP] ++ sent)
  else (chunks, appended).

Definition spec_chunk (text : pystr) (chunk_size overlap : Z) : list pystr :=
  let '(chunks, buffer) :=
    fold_left (spec_step chunk_size overlap) (spec_sentences text) ([], []) in
  if negb (len (strip buffer) =? 0) then chunks ++ [strip buffer] else chunks.

End ChunkSpec.

Import ChunkSpec.

(** Auxiliary notions used to state the properties of the chunker. *)

(** A string is blank when all its characters are whitespace (so the empty
    string is blank). *)
Definition blank (s : pystr) : bool := forallb isspace s.

Definition nonblank (s : pystr) : Prop := blank s = false.

(** What the second loop of [smart_chunk] maintains: emitted chunks are
    non-blank, and so is the running buffer once it is non-empty. *)
Definition chunk_inv (st : list pystr * pystr) : Prop :=
  Forall nonblank (fst st) /\ (snd st = [] \/ nonblank (snd st)).

Definition no_newline (s : pystr) : Prop := Forall (fun c => c <> NL) s.

(** Total size of a list of pieces, counting one separator per piece. *)
Fixpoint weight (l : list pystr) : nat :=
  match l with
  | [] => 0
  | s :: l' => S (length s) + weight l'
  end.

(** ** Exceptions and the external collaborators *)

(** [HTTPException] is what FastAPI turns into an error response; every
    other exception is kept with its message, [str(e)]. *)
Inductive exn :=
| HTTPException (status_code : Z) (detail : pystr)
| Exception (msg : pystr).

Inductive res (A : Type) :=
| Ok (a : A)
| Raise (e : exn).
Arguments Ok {A} a.
Arguments Raise {A} e.

(** [str(n)] for an integer. *)
Definition str_of_Z (n : Z) : pystr :=
  py (DecimalString.NilZero.string_of_int (Z.to_int n)).

(** [str(e)]; Starlette prints an [HTTPException] as "status: detail". *)
Definition exn_str (e : exn) : pystr :=
  match e with
  | HTTPException c d => str_of_Z c ++ py ": " ++ d
  | Exception m => m
  end.

(** The metadata attached to a chunk on ingestion. *)
Record ChunkMeta := { meta_filename : pystr; meta_content : pystr }.

(** A record handed to [index.upsert]. *)
Record IndexRecord (V : Type) := {
  rec_id : pystr;
  rec_vector : V;
  rec_meta : option ChunkMeta;
}.
Arguments rec_id {V} _.
Arguments rec_vector {V} _.
Arguments rec_meta {V} _.

(** An item returned by [index.query]: its [meta] and the keys of the
    [meta] may be missing. *)
Record HitMeta := { hm_content : option pystr; hm_filename : option pystr }.

Record Hit (S : Type) := {
  hit_id : pystr;
  similarity : S;
  hit_meta : option HitMeta;
}.
Arguments hit_id {S} _.
Arguments similarity {S} _.
Arguments hit_meta {S} _.

(** [RAGService]: whether a Gemini key was found and whether [_ensure_index]
    managed to set [self.index]. *)
Record RAGService := { has_gemini : bool; has_index : bool }.

(** The external collaborators, as the code uses them.  A call that can
    fail returns either the message of the exception raised or its result.
    The language model and the vector index answer depending on what they
    were asked or given before. *)
Class Externals := {
  Vector : Type;
  Score : Type;
  (** the order of similarity scores, [score_ge a b] for a >= b *)
  score_ge : Score -> Score -> Prop;
  (** [SentenceTransformer.encode(text).tolist()] *)
  model_encode : pystr -> pystr + Vector;
  (** [index.upsert([record])], given the records upserted so far *)
  index_upsert : list (IndexRecord Vector) -> IndexRecord Vector -> option pystr;
  (** [index.query(vector, top_k)], given the records upserted so far *)
  index_query : list (IndexRecord Vector) -> Vector -> Z -> pystr + list (Hit Score);
  (** [genai.GenerativeModel(name).generate_content(prompt).text], given
      the earlier calls as (model name, prompt) pairs *)
  genai_generate : list (pystr * pystr) -> pystr -> pystr -> pystr + pystr;
  (** the n-th [uuid.uuid4()], as a string *)
  uuid4 : nat -> pystr;
  (** the n-th reading of [time.time()], in milliseconds *)
  time_time : nat -> Z;
  (** the n-th evaluation of [RAGService()] *)
  service_boot : nat -> pystr + RAGService;
}.

(** ** The state of the process and of its collaborators *)

Section Backend.

Context `{Ext : Externals}.

Inductive Role := user | assistant.

Record Message := { role : Role; content : pystr }.

Record Conversation := {
  conv_id : pystr;
  title : pystr;
  messages : list Message;
  created_at : Z;
  updated_at : Z;
}.

Record DocMeta := {
  doc_filename : pystr;
  doc_chunks : Z;
  size_bytes : Z;
  uploaded_at : Z;
  preview : pystr;
  full_text : pystr;
}.

Record QueryLogEntry := {
  log_query : pystr;
  log_mode : pystr;
  log_timestamp : Z;
  response_time_ms : Z;
  results_count : Z;
}.

Record World := {
  conversation_store : gmap pystr Conversation;
  document_store : gmap pystr DocMeta;
  query_analytics : list QueryLogEntry;
  rag_service : option RAGService;          (* app.state.rag_service *)
  index_upserts : list (IndexRecord Vector); (* records upserted, oldest first *)
  genai_calls : list (pystr * pystr);       (* model calls made, oldest first *)
  slept : Z;                                (* seconds spent in time.sleep *)
  uuid_count : nat;
  clock_reads : nat;
  boot_count : nat;
}.

Definition with_conversation_store (f : gmap pystr Conversation -> gmap pystr Conversation)
    (w : World) : World :=
  {| conversation_store := f (conversation_store w);
     document_store := document_store w; query_analytics := query_analytics w;
     rag_service := rag_service w; index_upserts := index_upserts w;
     genai_calls := genai_calls w; slept := slept w;
     uuid_count := uuid_count w; clock_reads := clock_reads w;
     boot_count := boot_count w |}.

Definition with_document_store (f : gmap pystr DocMeta -> gmap pystr DocMeta)
    (w : World) : World :=
  {| conversation_store := conversation_store w;
     document_store := f (document_store w); query_analytics := query_analytics w;
     rag_service := rag_service w; index_upserts := index_upserts w;
     genai_calls := genai_calls w; slept := slept w;
     uuid_count := uuid_count w; clock_reads := clock_reads w;
     boot_count := boot_count w |}.

Definition with_query_analytics (f : list QueryLogEntry -> list QueryLogEntry)
    (w : World) : World :=
  {| conversation_store := conversation_store w;
     document_store := document_store w; query_analytics := f (query_analytics w);
     rag_service := rag_service w; index_upserts := index_upserts w;
     genai_calls := genai_calls w; slept := slept w;
     uuid_count := uuid_count w; clock_reads := clock_reads w;
     boot_count := boot_count w |}.

Definition with_rag_service (s : option RAGService) (w : World) : World :=
  {| conversation_store := conversation_store w;
     document_store := document_store w; query_analytics := query_analytics w;
     rag_service := s; index_upserts := index_upserts w;
     genai_calls := genai_calls w; slept := slept w;
     uuid_count := uuid_count w; clock_reads := clock_reads w;
     boot_count := boot_count w |}.

Definition with_index_upserts (f : list (IndexRecord Vector) -> list (IndexRecord Vector))
    (w : World) : World :=
  {| conversation_store := conversation_store w;
     document_store := document_store w; query_analytics := query_analytics w;
     rag_service := rag_service w; index_upserts := f (index_upserts w);
     genai_calls := genai_calls w; slept := slept w;
     uuid_count := uuid_count w; clock_reads := clock_reads w;
     boot_count := boot_count w |}.

Definition with_genai_calls (f : list (pystr * pystr) -> list (pystr * pystr))
    (w : World) : World :=
  {| conversation_store := conversation_store w;
     document_store := document_store w; query_analytics := query_analytics w;
     rag_service := rag_service w; index_upserts := index_upserts w;
     genai_calls := f (genai_calls w); slept := slept w;
     uuid_count := uuid_count w; clock_reads := clock_reads w;
     boot_count := boot_count w |}.

Definition with_slept (f : Z -> Z) (w : World) : World :=
  {| conversation_store := conversation_store w;
     document_store := document_store w; query_analytics := query_analytics w;
     rag_service := rag_service w; index_upserts := index_upserts w;
     genai_calls := genai_calls w; slept := f (slept w);
     uuid_count := uuid_count w; clock_reads := clock_reads w;
     boot_count := boot_count w |}.

Definition with_uuid_count (f : nat -> nat) (w : World) : World :=
  {| conversation_store := conversation_store w;
     document_store := document_store w; query_analytics := query_analytics w;
     rag_service := rag_service w; index_upserts := index_upserts w;
     genai_calls := genai_calls w; slept := slept w;
     uuid_count := f (uuid_count w); clock_reads := clock_reads w;
     boot_count := boot_count w |}.

Definition with_clock_reads (f : nat -> nat) (w : World) : World :=
  {| conversation_store := conversation_store w;
     document_store := document_store w; query_analytics := query_analytics w;
     rag_service := rag_service w; index_upserts := index_upserts w;
     genai_calls := genai_calls w; slept := slept w;
     uuid_count := uuid_count w; clock_reads := f (clock_reads w);
     boot_count := boot_count w |}.

Definition with_boot_count (f : nat -> nat) (w : World) : World :=
  {| conversation_store := conversation_store w;
     document_store := document_store w; query_analytics := query_analytics w;
     rag_service := rag_service w; index_upserts := index_upserts w;
     genai_calls := genai_calls w; slept := slept w;
     uuid_count := uuid_count w; clock_reads := clock_reads w;
     boot_count := f (boot_count w) |}.

(** ** Computations: state passing with exceptions

    A raised exception keeps the world as it was when it was raised:
    Python does not undo the mutations made before. *)

Definition M (A : Type) : Type := World -> res A * World.

Definition ret {A} (a : A) : M A := fun w => (Ok a, w).

Definition bind {A B} (m : M A) (k : A -> M B) : M B :=
  fun w => match m w with
           | (Ok a, w') => k a w'
           | (Raise e, w') => (Raise e, w')
           end.

Definition raise {A} (e : exn) : M A := fun w => (Raise e, w).

(** [try: m  except Exception as e: h e] *)
Definition try_except {A} (m : M A) (h : exn -> M A) : M A :=
  fun w => match m w with
           | (Ok a, w') => (Ok a, w')
           | (Raise e, w') => h e w'
           end.

Definition gets {A} (f : World -> A) : M A := fun w => (Ok (f w), w).
Definition modify (f : World -> World) : M unit := fun w => (Ok tt, f w).

(** Turning an outcome of a collaborator into a result or an exception. *)
Definition lift_outcome {A} (o : pystr + A) : M A :=
  match o with
  | inl msg => raise (Exception msg)
  | inr a => ret a
  end.

End Backend.

Notation "'let*' x ':=' m 'in' k" := (bind m (fun x => k))
  (at level 10, x name, m at level 100, k at level 200).


(** ** [RAGService] (rag.py) *)

Section Rag.

Context `{Ext : Externals}.

Definition GEMINI_MODEL_CHAIN : list pystr :=
  [py "gemini-2.0-flash"; py "gemini-1.5-flash"; py "gemini-1.5-flash-latest";
   py "gemini-pro"; py "gemini-pro-latest"].

Definition missing_key_message : pystr :=
  py "Gemini API Key is missing. Please set GEMINI_API_KEY to enable AI chat.".

(** The message starts with U+26A0 U+FE0F. *)
Definition exhausted_message : pystr :=
  [9888%N; 65039%N]
  ++ py " All Gemini models are currently rate-limited. "
  ++ py "Please wait a minute and try again, or check your API quota at "
  ++ py "[ai.google.dev](https://ai.google.dev/gemini-api/docs/rate-limits).".

(** Calls to the collaborators. *)
Definition uuid4_str : M pystr :=
  fun w => (Ok (uuid4 (uuid_count w)), with_uuid_count S w).

Definition time_now : M Z :=
  fun w => (Ok (time_time (clock_reads w)), with_clock_reads S w).

Definition sleep (seconds : Z) : M unit :=
  modify (with_slept (fun s => s + seconds)).

Definition encode (text : pystr) : M Vector := lift_outcome (model_encode text).

Definition upsert (record : IndexRecord Vector) : M unit :=
  fun w => match index_upsert (index_upserts w) record with
           | Some msg => (Raise (Exception msg), w)
           | None => (Ok tt, with_index_upserts (fun l => l ++ [record]) w)
           end.

Definition query (vector : Vector) (top_k : Z) : M (list (Hit Score)) :=
  fun w => lift_outcome (index_query (index_upserts w) vector top_k) w.

(** One outbound call to the language model: it is logged, then answers or
    raises. *)
Definition generate_content (model_name prompt : pystr) : M pystr :=
  fun w =>
    lift_outcome (genai_generate (genai_calls w) model_name prompt)
      (with_genai_calls (fun l => l ++ [(model_name, prompt)]) w).

(** [ingest_text] *)
Definition ingest_text (self : RAGService) (text : pystr)
    (meta : option ChunkMeta) : M (option pystr) :=
  if negb (truthy (strip text)) then ret None
  else
    let* vector := encode text in
    let* doc_id := uuid4_str in
    let record := {| rec_id := doc_id; rec_vector := vector; rec_meta := meta |} in
    if has_index self
    then let* _ := upsert record in ret (Some doc_id)
    else ret None.

(** [search] *)
Definition search (self : RAGService) (query_text : pystr) (top_k : Z)
    : M (list (Hit Score)) :=
  if negb (has_index self) then ret []
  else
    let* query_vector := encode query_text in
    query query_vector top_k.

(** The test on [str(e)] that decides between retrying and giving up on a
    model. *)
Definition rate_limit_shaped (err_str : pystr) : bool :=
  contains (py "429") err_str
  || contains (py "quota") (lower err_str)
  || contains (py "rate") (lower err_str).

(** The inner loop, [for attempt in range(n)]: [Some text] when the body
    returned, [None] when the loop ended or was left by [break]. *)
Fixpoint gemini_attempts (model_name prompt : pystr) (n : nat) : M (option pystr) :=
  match n with
  | O => ret None
  | S n' =>
      try_except
        (let* text := generate_content model_name prompt in ret (Some text))
        (fun e =>
           let err_str := exn_str e in
           if rate_limit_shaped err_str
           then let* _ := sleep 2 in gemini_attempts model_name prompt n'
           else ret None)
  end.

(** The outer loop over the model chain. *)
Fixpoint gemini_chain (chain : list pystr) (prompt : pystr) : M (option pystr) :=
  match chain with
  | [] => ret None
  | model_name :: rest =>
      let* r := gemini_attempts model_name prompt 2 in
      match r with
      | Some text => ret (Some text)
      | None => gemini_chain rest prompt
      end
  end.

(** [_call_gemini] *)
Definition _call_gemini (self : RAGService) (prompt : pystr) : M pystr :=
  if negb (has_gemini self) then ret missing_key_message
  else
    let* r := gemini_chain GEMINI_MODEL_CHAIN prompt in
    match r with
    | Some text => ret text
    | None => ret exhausted_message
    end.

(** Two worlds that differ at most in the traffic with the language model. *)
Definition same_but_model_traffic (w w' : World) : Prop :=
  conversation_store w' = conversation_store w
  /\ document_store w' = document_store w
  /\ query_analytics w' = query_analytics w
  /\ rag_service w' = rag_service w
  /\ index_upserts w' = index_upserts w
  /\ uuid_count w' = uuid_count w
  /\ clock_reads w' = clock_reads w
  /\ boot_count w' = boot_count w.

End Rag.

(** Prompt construction ([generate_answer], [summarize_text]). *)

Section Prompts.

Context `{Ext : Externals}.

Definition nl : pystr := [NL].

Definition role_label (r : Role) : pystr :=
  match r with user => py "User" | assistant => py "Assistant" end.

Definition history_block (history : list Message) : pystr :=
  match history with
  | [] => []
  | _ =>
      py "Previous conversation:" ++ nl
      ++ concat (map (fun msg => role_label (role msg) ++ py ": " ++ content msg ++ nl)
                     history)
      ++ nl
  end.

Definition context_text (context_chunks : list pystr) : pystr :=
  match context_chunks with
  | [] => py "(no relevant documents found)"
  | _ => join (nl ++ nl) context_chunks
  end.

(** The persona line holds an em dash, U+2014. *)
Definition answer_prompt (query_text : pystr) (context_chunks : list pystr)
    (history : list Message) : pystr :=
  py "You are Endee Assistant " ++ [8212%N]
  ++ py " a knowledgeable, friendly AI document assistant." ++ nl
  ++ py "Use the retrieved context below to answer the user's question accurately." ++ nl
  ++ py "If the answer is not in the context, say so clearly but remain helpful." ++ nl
  ++ py "Format your answer in Markdown for readability (use headers, bullet points, bold, etc.)."
  ++ nl ++ nl
  ++ history_block history ++ py "---" ++ nl
  ++ py "Retrieved Context:" ++ nl
  ++ context_text context_chunks ++ nl ++ nl
  ++ py "---" ++ nl
  ++ py "User Question: " ++ query_text ++ nl ++ nl
  ++ py "Answer (in Markdown):".

Definition generate_answer (self : RAGService) (query_text : pystr)
    (context_chunks : list pystr) (history : list Message) : M pystr :=
  _call_gemini self (answer_prompt query_text context_chunks history).

Definition summary_prompt (text filename : pystr) : pystr :=
  py "Summarise the following document in 3-5 bullet points." ++ nl
  ++ py "Be concise but capture the key information. Format in Markdown." ++ nl ++ nl
  ++ py "Document: " ++ filename ++ nl ++ nl
  ++ py "Content:" ++ nl
  ++ text ++ nl ++ nl
  ++ py "Summary (Markdown bullet points):".

Definition summarize_text (self : RAGService) (text filename : pystr) : M pystr :=
  _call_gemini self (summary_prompt text filename).

End Prompts.

(** ** The request handlers (main.py) *)

Section Main.

Context `{Ext : Externals}.

(** [get_rag_service]: the service of the application state, built on
    first use when start-up could not build it. *)
Definition get_rag_service : M RAGService :=
  fun w =>
    match rag_service w with
    | Some service => (Ok service, w)
    | None =>
        match service_boot (boot_count w) with
        | inr service =>
            (Ok service, with_rag_service (Some service) (with_boot_count S w))
        | inl msg =>
            (Raise (HTTPException 503 (py "RAG Service unavailable: " ++ msg)),
             with_boot_count S w)
        end
    end.

(** [generate_title_from_query]; the ellipsis is U+2026. *)
Definition generate_title_from_query (query_text : pystr) : pystr :=
  let t := take 60 (strip query_text) in
  if len (strip query_text) >? 60 then t ++ [8230%N] else t.

Record QueryRequest := {
  req_query : pystr;
  top_k : Z;
  mode : pystr;
  conversation_id : option pystr;
}.

Record ResultItem := {
  res_id : pystr;
  res_score : Score;
  res_content : pystr;
  res_filename : pystr;
}.

Record QueryResponse := {
  results : list ResultItem;
  answer : option pystr;
  resp_conversation_id : option pystr;
}.

Definition no_content : pystr := py "No content available".

(** [item.get("meta", {}).get("content", "No content available")] *)
Definition hit_content (item : Hit Score) : pystr :=
  match hit_meta item with
  | Some m => match hm_content m with Some c => c | None => no_content end
  | None => no_content
  end.

Definition hit_filename (item : Hit Score) : pystr :=
  match hit_meta item with
  | Some m => match hm_filename m with Some f => f | None => py "unknown" end
  | None => py "unknown"
  end.

Definition format_result (item : Hit Score) : ResultItem :=
  {| res_id := hit_id item; res_score := similarity item;
     res_content := hit_content item; res_filename := hit_filename item |}.

Definition context_of (hits : list (Hit Score)) : list pystr :=
  filter (fun c => truthy c = true /\ c <> no_content) (map hit_content hits).

(** A dictionary lookup that fails raises [KeyError]. *)
Definition KeyError (key : pystr) : exn := Exception (py "'" ++ key ++ py "'").

Definition in_store {V} (key : pystr) (store : gmap pystr V) : bool :=
  match store !! key with Some _ => true | None => false end.

(** [conversation_store[conv_id]["messages"].append(msg)] *)
Definition append_message (cid : pystr) (msg : Message) : M unit :=
  fun w =>
    match conversation_store w !! cid with
    | None => (Raise (KeyError cid), w)
    | Some c =>
        (Ok tt,
         with_conversation_store
           (insert cid {| conv_id := conv_id c; title := title c;
                          messages := messages c ++ [msg];
                          created_at := created_at c;
                          updated_at := updated_at c |}) w)
    end.

(** [conversation_store[conv_id]["updated_at"] = t] *)
Definition set_updated_at (cid : pystr) (t : Z) : M unit :=
  fun w =>
    match conversation_store w !! cid with
    | None => (Raise (KeyError cid), w)
    | Some c =>
        (Ok tt,
         with_conversation_store
           (insert cid {| conv_id := conv_id c; title := title c;
                          messages := messages c;
                          created_at := created_at c;
                          updated_at := t |}) w)
    end.

(** The history handed to the model: the last six messages of the
    conversation named in the request, when there is one. *)
Definition chat_history (cid : option pystr) (w : World) : list Message :=
  match cid with
  | Some c =>
      if truthy c
      then match conversation_store w !! c with
           | Some conv => slice_from (-6) (messages conv)
           | None => []
           end
      else []
  | None => []
  end.

Definition known_conversation (cid : option pystr) (w : World) : option pystr :=
  match cid with
  | Some c => if in_store c (conversation_store w) then Some c else None
  | None => None
  end.

(** The chat branch of [query_index]: returns the answer and the id of the
    conversation written to. *)
Definition chat_turn (service : RAGService) (query_data : QueryRequest)
    (context_chunks : list pystr) : M (pystr * pystr) :=
  let* history := gets (chat_history (conversation_id query_data)) in
  let* ans := generate_answer service (req_query query_data) context_chunks history in
  let* known := gets (known_conversation (conversation_id query_data)) in
  let* cid :=
    match known with
    | Some c => ret c
    | None =>
        let* fresh := uuid4_str in
        let* t_created := time_now in
        let* t_updated := time_now in
        let* _ := modify (with_conversation_store
                    (insert fresh
                       {| conv_id := fresh;
                          title := generate_title_from_query (req_query query_data);
                          messages := [];
                          created_at := t_created;
                          updated_at := t_updated |})) in
        ret fresh
    end in
  let* _ := append_message cid {| role := user; content := req_query query_data |} in
  let* _ := append_message cid {| role := assistant; content := ans |} in
  let* t := time_now in
  let* _ := set_updated_at cid t in
  ret (ans, cid).

(** The two messages a chat query adds to its conversation. *)
Definition turn_messages (q : QueryRequest) (ans : pystr) : list Message :=
  [ {| role := user; content := req_query q |};
    {| role := assistant; content := ans |} ].

(** [POST /query] *)
Definition query_index (query_data : QueryRequest) : M QueryResponse :=
  let* service := get_rag_service in
  let* start_time := time_now in
  let* hits := search service (req_query query_data) (top_k query_data) in
  let formatted_results := map format_result hits in
  let context_chunks := context_of hits in
  let* ac :=
    if decide (mode query_data = py "chat")
    then let* r := chat_turn service query_data context_chunks in
         ret (Some (fst r), Some (snd r))
    else ret (None, conversation_id query_data) in
  let* t_end := time_now in
  let elapsed := t_end - start_time in
  let* timestamp := time_now in
  let* _ := modify (with_query_analytics (fun l => l ++
              [{| log_query := req_query query_data;
                  log_mode := mode query_data;
                  log_timestamp := timestamp;
                  response_time_ms := elapsed;
                  results_count := Z.of_nat (length formatted_results) |}])) in
  ret {| results := formatted_results;
         answer := fst ac;
         resp_conversation_id := snd ac |}.

(** [DELETE /documents/{filename}] *)
Definition not_found (what : pystr) : exn := HTTPException 404 what.

Definition delete_document (filename : pystr) : M (pystr * pystr) :=
  let* present := gets (fun w => in_store filename (document_store w)) in
  if present
  then let* _ := modify (with_document_store (delete filename)) in
       ret (py "deleted", filename)
  else raise (not_found (py "Document not found")).

Record IngestResponse := {
  ing_filename : pystr;
  ing_status : pystr;
  chunks_processed : Z;
  ing_size_bytes : Z;
  ing_preview : pystr;
}.

(** The counting loop of [ingest_file]. *)
Fixpoint ingest_chunks (service : RAGService) (filename : pystr)
    (chunks : list pystr) (count : Z) : M Z :=
  match chunks with
  | [] => ret count
  | chunk :: rest =>
      let* _ := ingest_text service chunk
                  (Some {| meta_filename := filename; meta_content := chunk |}) in
      ingest_chunks service filename rest (count + 1)
  end.

(** [POST /ingest].  The upload is taken as its file name, its size and
    the text extracted from it; the temporary file is not modelled. *)
Definition ingest_file (filename : pystr) (file_size : Z) (text_content : pystr)
    : M IngestResponse :=
  let* service := get_rag_service in
  try_except
    (if negb (truthy (strip text_content))
     then raise (HTTPException 400 (py "Could not extract any text from the file."))
     else
       let chunks := smart_chunk text_content default_chunk_size default_overlap in
       let* count := ingest_chunks service filename chunks 0 in
       let preview_text := strip (take 300 text_content) in
       let* now := time_now in
       let* _ := modify (with_document_store
                   (insert filename
                      {| doc_filename := filename; doc_chunks := count;
                         size_bytes := file_size; uploaded_at := now;
                         preview := preview_text; full_text := text_content |})) in
       ret {| ing_filename := filename; ing_status := py "ingested";
              chunks_processed := count; ing_size_bytes := file_size;
              ing_preview := preview_text |})
    (fun e =>
       match e with
       | HTTPException _ _ => raise e
       | Exception msg => raise (HTTPException 500 msg)
       end).

(** [POST /summarize] *)
Definition summarize_document (filename : pystr) : M (pystr * pystr) :=
  let* service := get_rag_service in
  let* doc := gets (fun w => document_store w !! filename) in
  match doc with
  | None => raise (not_found (py "Document not found"))
  | Some d =>
      let truncated := take 3000 (full_text d) in
      let* summary := summarize_text service truncated filename in
      ret (filename, summary)
  end.

(** [PUT /conversations/{conv_id}/rename] *)
Definition rename_conversation (cid new_title : pystr) : M (pystr * pystr * pystr) :=
  let* conv := gets (fun w => conversation_store w !! cid) in
  match conv with
  | None => raise (not_found (py "Conversation not found"))
  | Some c =>
      let* _ := modify (with_conversation_store
                  (insert cid {| conv_id := conv_id c; title := new_title;
                                 messages := messages c;
                                 created_at := created_at c;
                                 updated_at := updated_at c |})) in
      ret (py "renamed", cid, new_title)
  end.

(** [DELETE /conversations/{conv_id}] *)
Definition delete_conversation (cid : pystr) : M (pystr * pystr) :=
  let* present := gets (fun w => in_store cid (conversation_store w)) in
  if present
  then let* _ := modify (with_conversation_store (delete cid)) in
       ret (py "deleted", cid)
  else raise (not_found (py "Conversation not found")).

(** The requests that can change the state, and the states the process
    can reach by serving them from start-up on. *)
Inductive Request :=
| PostIngest (filename : pystr) (file_size : Z) (text_content : pystr)
| PostSummarize (filename : pystr)
| PostQuery (query_data : QueryRequest)
| DeleteDocument (filename : pystr)
| PutRename (cid new_title : pystr)
| DeleteConversation (cid : pystr).

Definition serve (r : Request) (w : World) : World :=
  match r with
  | PostIngest f n t => snd (ingest_file f n t w)
  | PostSummarize f => snd (summarize_document f w)
  | PostQuery q => snd (query_index q w)
  | DeleteDocument f => snd (delete_document f w)
  | PutRename c t => snd (rename_conversation c t w)
  | DeleteConversation c => snd (delete_conversation c w)
  end.

(** [lifespan]: the stores are empty and the service is built once; a
    failure leaves it unset.  The vector index outlives the process, so it
    may already hold records. *)
Definition startup (existing : list (IndexRecord Vector)) : World :=
  {| conversation_store := ∅; document_store := ∅; query_analytics := [];
     rag_service := match service_boot 0 with
                    | inr service => Some service
                    | inl _ => None
                    end;
     index_upserts := existing; genai_calls := []; slept := 0;
     uuid_count := 0; clock_reads := 0; boot_count := 1 |}.

Inductive reachable : World -> Prop :=
| reach_startup existing : reachable (startup existing)
| reach_serve r w : reachable w -> reachable (serve r w).

(** Every conversation holds whole turns: an even number of messages. *)
Definition paired (w : World) : Prop :=
  forall k c, conversation_store w !! k = Some c ->
              Nat.even (length (messages c)) = true.

(** Every conversation id was produced by [uuid4] earlier on. *)
Definition ids_minted (w : World) : Prop :=
  forall k, is_Some (conversation_store w !! k) ->
            exists i, (i < uuid_count w)%nat /\ k = uuid4 i.

(** Results in descending order of score, hits in descending order of
    similarity. *)
Definition results_descending (l : list ResultItem) : Prop :=
  Sorted (fun a b => score_ge (res_score a) (res_score b)) l.

Definition hits_descending (l : list (Hit Score)) : Prop :=
  Sorted (fun a b => score_ge (similarity a) (similarity b)) l.

(** The conversation written by a chat query and the messages it held. *)
Definition target_conversation (q : QueryRequest) (w : World) : pystr :=
  match known_conversation (conversation_id q) w with
  | Some c => c
  | None => uuid4 (uuid_count w)
  end.

Definition earlier_messages (q : QueryRequest) (w : World) : list Message :=
  match known_conversation (conversation_id q) w with
  | Some c => match conversation_store w !! c with
              | Some conv => messages conv
              | None => []
              end
  | None => []
  end.

Definition uuids_after (q : QueryRequest) (w : World) : nat :=
  match known_conversation (conversation_id q) w with
  | Some _ => uuid_count w
  | None => S (uuid_count w)
  end.

(** What a chat query that reaches its chat branch does to the store. *)
Definition turn_recorded (q : QueryRequest) (w w' : World) (ans : pystr) : Prop :=
  exists conv',
    conversation_store w' = <[target_conversation q w := conv']> (conversation_store w)
    /\ messages conv' = earlier_messages q w ++ turn_messages q ans
    /\ uuid_count w' = uuids_after q w.

(** [keeps R m]: whatever [m] returns or raises, the world it ends in is
    related by [R] to the world it started from. *)
Definition keeps (R : relation World) {A} (m : M A) : Prop :=
  forall w r w', m w = (r, w') -> R w w'.

(** The conversations are as they were and no uuid was taken back. *)
Definition conversations_kept (w w' : World) : Prop :=
  conversation_store w' = conversation_store w
  /\ (uuid_count w <= uuid_count w')%nat.

(** Nothing was upserted into the vector index. *)
Definition index_kept (w w' : World) : Prop :=
  index_upserts w' = index_upserts w.

End Main.

(** ** Scripted collaborators, to run the handlers on examples *)

Module Demo.

Definition hits : list (Hit Z) :=
  [ {| hit_id := py "h1"; similarity := 90;
       hit_meta := Some {| hm_content := Some (py "Hello world.");
                           hm_filename := Some (py "notes.txt") |} |};
    {| hit_id := py "h2"; similarity := 40; hit_meta := None |} ].

(** Embeddings are the text itself, scores are integers, every upsert
    succeeds, a query returns the first [top_k] of two fixed hits, the n-th
    uuid is "conv-" followed by the character of code n, and the clock
    advances by one at each reading. *)
Definition externals
    (gen : list (pystr * pystr) -> pystr -> pystr -> pystr + pystr)
    (boot : pystr + RAGService) : Externals :=
  {| Vector := pystr;
     Score := Z;
     score_ge := Z.ge;
     model_encode := fun text => inr text;
     index_upsert := fun _ _ => None;
     index_query := fun _ _ k => inr (take (Z.to_nat k) hits);
     genai_generate := gen;
     uuid4 := fun n => py "conv-" ++ [N.of_nat n];
     time_time := fun n => Z.of_nat n;
     service_boot := fun _ => boot |}.

Definition always_limited : list (pystr * pystr) -> pystr -> pystr -> pystr + pystr :=
  fun _ _ _ => inl (py "429 Too Many Requests").

Definition always_broken : list (pystr * pystr) -> pystr -> pystr -> pystr + pystr :=
  fun _ _ _ => inl (py "500 internal error").

Definition answering : list (pystr * pystr) -> pystr -> pystr -> pystr + pystr :=
  fun _ _ _ => inr (py "An answer.").

Definition full_service : RAGService := {| has_gemini := true; has_index := true |}.
Definition no_index_service : RAGService := {| has_gemini := true; has_index := false |}.
Definition no_key_service : RAGService := {| has_gemini := false; has_index := true |}.

Definition full : Externals := externals answering (inr full_service).

Definition search_request (cid : option pystr) : @QueryRequest :=
  {| req_query := py "what is X"; top_k := 5; mode := py "search";
     conversation_id := cid |}.

Definition chat_request (cid : option pystr) : @QueryRequest :=
  {| req_query := py "what is X"; top_k := 5; mode := py "chat";
     conversation_id := cid |}.

Definition notes : DocMeta :=
  {| doc_filename := py "notes.txt"; doc_chunks := 1; size_bytes := 28;
     uploaded_at := 0; preview := py "Hello world. This is a test.";
     full_text := py "Hello world. This is a test." |}.

End Demo.

(** ** Further notions used to state properties *)

(** [s] occurs in [t] as a contiguous piece. *)
Definition occurs_in {A} (s t : list A) : Prop := exists a b, t = a ++ s ++ b.

(** 1 for a non-empty running buffer, 0 for an empty one. *)
Definition occupied (s : pystr) : nat := if truthy s then 1 else 0.

(** A sentence as [sentences_of] produces them. *)
Definition solid (s : pystr) : Prop := s <> [] /\ strip s = s /\ nonblank s.

(** Each sentence seen so far lies whole in an emitted chunk or in the
    running buffer. *)
Definition all_held (seen : list pystr) (st : list pystr * pystr) : Prop :=
  forall s, In s seen ->
    (exists c, In c (fst st) /\ occurs_in s c) \/ occurs_in s (snd st).

(** ** The remaining endpoints that can be told from the state alone *)

Section ReadEndpoints.

Context `{Ext : Externals}.

(** [GET /conversations/{conv_id}] *)
Definition get_conversation (cid : pystr) : M Conversation :=
  let* conv := gets (fun w => conversation_store w !! cid) in
  match conv with
  | None => raise (not_found (py "Conversation not found"))
  | Some c =>
      ret {| conv_id := conv_id c; title := title c; messages := messages c;
             created_at := created_at c; updated_at := updated_at c |}
  end.

(** One message of an exported conversation. *)
Definition export_block (msg : Message) : pystr :=
  match role msg with
  | user => py "**You**"
  | assistant => py "**Endee Assistant**"
  end ++ py ":" ++ nl ++ nl ++ content msg ++ nl ++ nl ++ py "---" ++ nl.

(** [GET /conversations/{conv_id}/export] *)
Definition export_conversation (cid : pystr) : M pystr :=
  let* conv := gets (fun w => conversation_store w !! cid) in
  match conv with
  | None => raise (not_found (py "Conversation not found"))
  | Some c =>
      let lines :=
        [ py "# " ++ title c ++ nl;
          py "*Exported from Endee RAG Assistant*" ++ nl ++ nl ++ py "---" ++ nl ]
        ++ map export_block (messages c) in
      ret (join nl lines)
  end.

Record StatsResponse := {
  total_documents : Z;
  total_chunks : Z;
  total_conversations : Z;
  total_queries : Z;
  endee_connected : bool;
  gemini_enabled : bool;
}.

(** [GET /stats]: it reads the application state as it is, without
    building the service. *)
Definition get_stats (w : World) : StatsResponse :=
  {| total_documents := Z.of_nat (size (document_store w));
     total_chunks :=
       map_fold (fun _ d acc => doc_chunks d + acc) 0 (document_store w);
     total_conversations := Z.of_nat (size (conversation_store w));
     total_queries := Z.of_nat (length (query_analytics w));
     endee_connected :=
       match rag_service w with Some _ => true | None => false end;
     gemini_enabled :=
       match rag_service w with Some s => has_gemini s | None => false end |}.

(** The [recent] entry of [GET /analytics], [query_analytics[-10:][::-1]].
    (The average response time of that endpoint is a float and is left
    out.) *)
Definition analytics_recent (w : World) : list QueryLogEntry :=
  rev (slice_from (-10) (query_analytics w)).

(** Between two states the logs have only been appended to and the
    counters have not gone down. *)
Definition logs_grow (w w' : World) : Prop :=
  index_upserts w `prefix_of` index_upserts w'
  /\ genai_calls w `prefix_of` genai_calls w'
  /\ query_analytics w `prefix_of` query_analytics w'
  /\ (uuid_count w <= uuid_count w')%nat
  /\ (clock_reads w <= clock_reads w')%nat
  /\ (boot_count w <= boot_count w')%nat
  /\ slept w <= slept w'.

End ReadEndpoints.

Section IngestedDocument.

Context `{Ext : Externals}.

(** The document put in the store by a successful ingest. *)
Definition ingested_doc (filename : pystr) (file_size : Z) (text : pystr)
    (count ts : Z) : DocMeta :=
  {| doc_filename := filename; doc_chunks := count; size_bytes := file_size;
     uploaded_at := ts; preview := strip (take 300 text); full_text := text |}.

End IngestedDocument.

Section QueryNotions.

Context `{Ext : Externals}.

(** The log entry written by a query that found [n] results, started at
    [t_start], ended at [t_end] and was logged at [timestamp]. *)
Definition query_log_entry (q : QueryRequest) (n : nat)
    (t_start t_end timestamp : Z) : QueryLogEntry :=
  {| log_query := req_query q; log_mode := mode q; log_timestamp := timestamp;
     response_time_ms := t_end - t_start; results_count := Z.of_nat n |}.

(** The last step of [query_index]: two clock readings and the log entry. *)
Definition logged (q : QueryRequest) (n : nat) (t_start : Z) (w : World) : World :=
  with_query_analytics
    (fun l => l ++ [query_log_entry q n t_start (time_time (clock_reads w))
                      (time_time (S (clock_reads w)))])
    (with_clock_reads S (with_clock_reads S w)).

(** Every conversation was created and last updated at clock readings
    already taken, the creation not after the update. *)
Definition stamped (w : World) : Prop :=
  forall k c, conversation_store w !! k = Some c ->
    exists i j, (i <= j < clock_reads w)%nat
                /\ created_at c = time_time i
                /\ updated_at c = time_time j.

End QueryNotions.

(** More example states for [Demo]. *)

Module DemoStates.

(** The state after start-up with every collaborator answering. *)
Definition fresh : @World Demo.full := @startup Demo.full [].

(** The same with the document of [Demo.notes] on record. *)
Definition with_notes : @World Demo.full :=
  with_document_store (insert (py "notes.txt") Demo.notes) fresh.

(** The state after one chat query without a conversation id. *)
Definition after_chat : @World Demo.full :=
  @serve Demo.full (PostQuery (Demo.chat_request None)) fresh.

End DemoStates.

(** Collaborators whose service cannot be built. *)
Module DemoDown.

Definition down : Externals :=
  Demo.externals Demo.answering (inl (py "connection refused")).

Definition fresh : @World down := @startup down [].

End DemoDown.

(** * Properties *)

Example chunk_hello :
  smart_chunk (py "Hello world. This is a test.") 500 100
  = [py "Hello world. This is a test."].
Proof. vm_compute. reflexivity. Qed.

Example chunk_small :
  smart_chunk (py "aaa. bbb. ccc.") 8 5 = [py "aaa."; py "aaa. bbb."; py "bbb. ccc."].
Proof. vm_compute. reflexivity. Qed.

Example chunk_zero_overlap :
  smart_chunk (py "aaa. bbb. ccc.") 8 0
  = [py "aaa."; py "aaa. bbb."; py "aaa. bbb. ccc."].
Proof. vm_compute. reflexivity. Qed.

(** ** Stripping and blank strings *)

Section StripFacts.

Lemma blank_app s t : blank (s ++ t) = blank s && blank t.
Proof. unfold blank. apply forallb_app. Qed.

Lemma blank_rev s : blank (rev s) = blank s.
Proof.
  induction s as [|c s IH]; [reflexivity|].
  simpl. rewrite blank_app, IH. simpl.
  rewrite andb_true_r. apply andb_comm.
Qed.

Lemma blank_lstrip s : blank (lstrip s) = blank s.
Proof.
  induction s as [|c s IH]; [reflexivity|].
  simpl. destruct (isspace c) eqn:E; simpl; [exact IH|].
  rewrite E. reflexivity.
Qed.

Lemma lstrip_nil_iff s : lstrip s = [] <-> blank s = true.
Proof.
  induction s as [|c s IH]; simpl; [tauto|].
  destruct (isspace c); simpl; [exact IH|].
  split; intros H; discriminate H.
Qed.

Lemma blank_strip s : blank (strip s) = blank s.
Proof.
  unfold strip, rstrip.
  rewrite blank_rev, blank_lstrip, blank_rev. apply blank_lstrip.
Qed.

Lemma strip_nil_iff s : strip s = [] <-> blank s = true.
Proof.
  unfold strip, rstrip. split.
  - intros H. apply (f_equal (@rev char)) in H.
    rewrite rev_involutive in H. simpl in H.
    apply lstrip_nil_iff in H. rewrite blank_rev, blank_lstrip in H. exact H.
  - intros H.
    assert (E : lstrip (rev (lstrip s)) = []).
    { apply lstrip_nil_iff. rewrite blank_rev, blank_lstrip. exact H. }
    rewrite E. reflexivity.
Qed.

Lemma truthy_strip s : truthy (strip s) = negb (blank s).
Proof.
  destruct (blank s) eqn:E.
  - apply strip_nil_iff in E. rewrite E. reflexivity.
  - destruct (strip s) eqn:S; [|reflexivity].
    apply strip_nil_iff in S. congruence.
Qed.

Lemma truthy_false_nil s : truthy s = false -> s = [].
Proof. destruct s; [reflexivity|discriminate]. Qed.

Lemma blank_false_truthy s : blank s = false -> truthy s = true.
Proof. destruct s; [discriminate|reflexivity]. Qed.

Lemma length_lstrip s : (length (lstrip s) <= length s)%nat.
Proof.
  induction s as [|c s IH]; simpl; [lia|].
  destruct (isspace c); simpl; lia.
Qed.

Lemma length_strip s : (length (strip s) <= length s)%nat.
Proof.
  unfold strip, rstrip. rewrite length_rev.
  etransitivity; [apply length_lstrip|].
  rewrite length_rev. apply length_lstrip.
Qed.

(** Stripping a stripped string changes nothing more than its blankness
    allows: in particular a non-empty result stays non-empty. *)
Lemma strip_strip_nonempty s : strip s <> [] -> strip (strip s) <> [].
Proof.
  intros H K. apply strip_nil_iff in K. rewrite blank_strip in K.
  apply strip_nil_iff in K. contradiction.
Qed.

End StripFacts.

(** ** Sentences are never blank *)

Section SentenceFacts.

Lemma strip_kept_nonblank s : truthy (strip s) = true -> nonblank (strip s).
Proof.
  intros H. rewrite truthy_strip in H. unfold nonblank.
  rewrite blank_strip. destruct (blank s); [discriminate|reflexivity].
Qed.

Lemma filter_strip_nonblank (l : list pystr) :
  Forall nonblank (filter (fun s => truthy s = true) (map strip l)).
Proof.
  induction l as [|p l IH]; simpl; [constructor|].
  rewrite filter_cons. destruct (decide (truthy (strip p) = true)) as [H|H].
  - constructor; [apply strip_kept_nonblank; exact H|exact IH].
  - exact IH.
Qed.

Lemma para_sentences_nonblank p : Forall nonblank (para_sentences p).
Proof. apply filter_strip_nonblank. Qed.

Lemma sentences_nonblank text : Forall nonblank (sentences_of text).
Proof.
  unfold sentences_of. apply Forall_concat.
  induction (split_on NL text) as [|p l IH]; simpl; constructor; [|exact IH].
  destruct (truthy (strip p)); [apply para_sentences_nonblank|constructor].
Qed.

End SentenceFacts.

(** ** The accumulation loop keeps every emitted chunk non-blank *)

Section LoopInvariant.

Variables chunk_size overlap : Z.

Lemma nonblank_append cur sent :
  nonblank sent -> nonblank (cur ++ [SP] ++ sent).
Proof.
  unfold nonblank. intros H. rewrite !blank_app, H.
  rewrite !andb_false_r. reflexivity.
Qed.

Lemma chunk_step_inv st sent :
  chunk_inv st -> nonblank sent -> chunk_inv (chunk_step chunk_size overlap st sent).
Proof.
  destruct st as [chunks cur]. intros [Hc Hb] Hs. simpl in Hc, Hb.
  unfold chunk_step.
  destruct ((len cur + len sent + 1 >? chunk_size) && truthy cur) eqn:E.
  - apply andb_true_iff in E as [_ Ht].
    split; simpl.
    + apply Forall_app. split; [exact Hc|].
      constructor; [|constructor].
      destruct Hb as [->|Hb]; [discriminate Ht|].
      unfold nonblank. rewrite blank_strip. exact Hb.
    + right. apply nonblank_append. exact Hs.
  - split; simpl; [exact Hc|]. right. apply nonblank_append. exact Hs.
Qed.

Lemma fold_chunk_inv sentences st :
  chunk_inv st -> Forall nonblank sentences ->
  chunk_inv (fold_left (chunk_step chunk_size overlap) sentences st).
Proof.
  revert st. induction sentences as [|s l IH]; intros st Hst Hl; simpl.
  - exact Hst.
  - inversion Hl; subst. apply IH; [apply chunk_step_inv|]; assumption.
Qed.

Lemma chunk_loop_inv sentences :
  Forall nonblank sentences -> chunk_inv (chunk_loop chunk_size overlap sentences).
Proof.
  intros H. apply fold_chunk_inv; [|exact H].
  split; simpl; [constructor|left; reflexivity].
Qed.

Lemma smart_chunk_nonblank text :
  Forall nonblank (smart_chunk text chunk_size overlap).
Proof.
  unfold smart_chunk.
  pose proof (chunk_loop_inv (sentences_of text) (sentences_nonblank text)) as H.
  destruct (chunk_loop chunk_size overlap (sentences_of text)) as [chunks cur].
  destruct H as [Hc _]. simpl in Hc.
  destruct (truthy (strip cur)) eqn:E; [|exact Hc].
  apply Forall_app. split; [exact Hc|].
  constructor; [|constructor]. apply strip_kept_nonblank. exact E.
Qed.

End LoopInvariant.

(** ** Blank input has no sentences *)

Section BlankInput.

Lemma blank_split_on sep s :
  isspace sep = true ->
  blank s = forallb blank (split_on sep s).
Proof.
  intros Hsep. induction s as [|c s IH]; [reflexivity|].
  simpl. destruct (N.eqb_spec c sep) as [->|Hne].
  - rewrite Hsep. simpl. exact IH.
  - change (blank (c :: s)) with (isspace c && blank s). rewrite IH.
    destruct (split_on sep s) as [|w ws]; simpl.
    + rewrite !andb_true_r. reflexivity.
    + apply andb_assoc.
Qed.

Lemma isspace_NL : isspace NL = true.
Proof. reflexivity. Qed.

Lemma blank_sentences_of text : blank text = true -> sentences_of text = [].
Proof.
  intros H. rewrite (blank_split_on NL text isspace_NL) in H.
  unfold sentences_of.
  induction (split_on NL text) as [|p l IH]; [reflexivity|].
  simpl in *. apply andb_true_iff in H as [Hp Hl].
  apply strip_nil_iff in Hp. rewrite Hp. simpl. apply IH. exact Hl.
Qed.

Lemma smart_chunk_blank text chunk_size overlap :
  blank text = true -> smart_chunk text chunk_size overlap = [].
Proof.
  intros H. unfold smart_chunk, chunk_loop.
  rewrite (blank_sentences_of text H). reflexivity.
Qed.

End BlankInput.

(** ** Size accounting: the sentences of a text never outweigh it *)

Section Weights.

Lemma weight_split_on sep s : weight (split_on sep s) = S (length s).
Proof.
  induction s as [|c s IH]; [reflexivity|].
  simpl. destruct (c =? sep)%N; simpl.
  - rewrite IH. reflexivity.
  - destruct (split_on sep s) as [|w ws]; simpl in *; lia.
Qed.

Lemma weight_app l1 l2 : weight (l1 ++ l2) = (weight l1 + weight l2)%nat.
Proof. induction l1 as [|s l IH]; simpl; [reflexivity|]. rewrite IH. lia. Qed.

Lemma weight_map_strip l : (weight (map strip l) <= weight l)%nat.
Proof.
  induction l as [|s l IH]; simpl; [lia|].
  pose proof (length_strip s). lia.
Qed.

Lemma weight_filter (P : pystr -> Prop) `{!forall s, Decision (P s)} l :
  (weight (filter P l) <= weight l)%nat.
Proof.
  induction l as [|s l IH]; simpl; [lia|].
  rewrite filter_cons. destruct (decide (P s)); simpl; lia.
Qed.

(** [replace2] is defined by a two-step recursion; facts about it are
    proved for a string and its extension by one character together. *)
Lemma replace2_both (P : pystr -> Prop) (a b : char) :
  P [] ->
  (forall c, P [c]) ->
  (forall c d u, ((c =? a) && (d =? b))%N = true -> P u -> P (c :: d :: u)) ->
  (forall c d u, ((c =? a) && (d =? b))%N = false -> P (d :: u) -> P (c :: d :: u)) ->
  forall s, P s.
Proof.
  intros H0 H1 Hy Hn s.
  assert (H : P s /\ forall c, P (c :: s)).
  { induction s as [|d u [IHu IHdu]]; [split; [exact H0|exact H1]|].
    split; [apply IHdu|].
    intros c. destruct ((c =? a) && (d =? b))%N eqn:E.
    - apply Hy; assumption.
    - apply Hn; [assumption|]. apply IHdu. }
  exact (proj1 H).
Qed.

Lemma length_replace2 a b a' b' s :
  length (replace2 a b a' b' s) = length s.
Proof.
  pattern s. apply (replace2_both _ a b); clear s.
  - reflexivity.
  - reflexivity.
  - intros c d u E IH. simpl. rewrite E. simpl. rewrite IH. reflexivity.
  - intros c d u E IH. simpl replace2. rewrite E.
    simpl. simpl in IH. rewrite IH. reflexivity.
Qed.

Lemma blank_replace_dot s : blank (replace2 DOT SP DOT NL s) = blank s.
Proof.
  pattern s. apply (replace2_both _ DOT SP); clear s.
  - reflexivity.
  - reflexivity.
  - intros c d u E _. simpl replace2. rewrite E.
    apply andb_true_iff in E as [Ec Ed].
    apply N.eqb_eq in Ec. subst c. reflexivity.
  - intros c d u E IH. simpl replace2. rewrite E.
    change (isspace c && blank (replace2 DOT SP DOT NL (d :: u))
            = isspace c && blank (d :: u)).
    rewrite IH. reflexivity.
Qed.

Lemma weight_para_sentences p : (weight (para_sentences p) <= S (length p))%nat.
Proof.
  unfold para_sentences.
  etransitivity; [apply weight_filter|].
  etransitivity; [apply weight_map_strip|].
  rewrite weight_split_on, length_replace2. lia.
Qed.

Lemma weight_sentences_of text : (weight (sentences_of text) <= S (length text))%nat.
Proof.
  rewrite <- (weight_split_on NL text). unfold sentences_of.
  induction (split_on NL text) as [|p l IH]; simpl; [lia|].
  rewrite weight_app.
  assert ((weight (if truthy (strip p) then para_sentences (strip p) else [])
           <= S (length p))%nat).
  { destruct (truthy (strip p)); simpl; [|lia].
    pose proof (weight_para_sentences (strip p)).
    pose proof (length_strip p). lia. }
  lia.
Qed.

End Weights.

(** ** Non-blank input has at least one sentence *)

Section NonBlankInput.

Lemma filter_strip_nonempty l :
  forallb blank l = false ->
  filter (fun s => truthy s = true) (map strip l) <> [].
Proof.
  induction l as [|p l IH]; simpl; [discriminate|].
  intros H. rewrite filter_cons.
  destruct (decide (truthy (strip p) = true)) as [Ht|Ht]; [discriminate|].
  rewrite truthy_strip in Ht. destruct (blank p); simpl in *.
  - apply IH. exact H.
  - contradiction Ht. reflexivity.
Qed.

Lemma para_sentences_nonempty p : nonblank p -> para_sentences p <> [].
Proof.
  intros H. unfold para_sentences. apply filter_strip_nonempty.
  rewrite <- (blank_split_on NL _ isspace_NL), blank_replace_dot. exact H.
Qed.

Lemma sentences_of_nonempty text : nonblank text -> sentences_of text <> [].
Proof.
  unfold nonblank. rewrite (blank_split_on NL text isspace_NL).
  unfold sentences_of.
  induction (split_on NL text) as [|p l IH]; simpl; [discriminate|].
  intros H K. apply app_eq_nil in K as [Kp Kl].
  destruct (blank p) eqn:Ep; simpl in H.
  - exact (IH H Kl).
  - rewrite truthy_strip, Ep in Kp. simpl in Kp.
    apply (para_sentences_nonempty (strip p)); [|exact Kp].
    unfold nonblank. rewrite blank_strip. exact Ep.
Qed.

End NonBlankInput.

(** ** A non-blank text yields at least one chunk *)

Section AtLeastOneChunk.

Variables chunk_size overlap : Z.

Lemma chunk_step_buffer st sent :
  nonblank sent -> nonblank (snd (chunk_step chunk_size overlap st sent)).
Proof.
  destruct st as [chunks cur]. intros H. unfold chunk_step.
  destruct ((len cur + len sent + 1 >? chunk_size) && truthy cur);
    simpl; apply nonblank_append; exact H.
Qed.

Lemma chunk_loop_buffer sentences :
  sentences <> [] -> Forall nonblank sentences ->
  nonblank (snd (chunk_loop chunk_size overlap sentences)).
Proof.
  intros Hne Hall. unfold chunk_loop.
  destruct (exists_last Hne) as (l & x & ->).
  rewrite fold_left_app. simpl. apply chunk_step_buffer.
  apply Forall_app in Hall as [_ Hx]. inversion Hx; assumption.
Qed.

Lemma smart_chunk_nonempty text :
  nonblank text -> smart_chunk text chunk_size overlap <> [].
Proof.
  intros H. unfold smart_chunk.
  pose proof (chunk_loop_buffer _ (sentences_of_nonempty text H)
                (sentences_nonblank text)) as Hb.
  destruct (chunk_loop chunk_size overlap (sentences_of text)) as [chunks cur].
  simpl in Hb. rewrite truthy_strip. unfold nonblank in Hb. rewrite Hb. simpl.
  intros K. apply app_eq_nil in K as [_ K]. discriminate K.
Qed.

End AtLeastOneChunk.

(** ** A text shorter than the chunk size is never cut *)

Section ShortText.

Variables chunk_size overlap : Z.

Lemma fold_no_emit sentences chunks cur :
  len cur + Z.of_nat (weight sentences) <= chunk_size ->
  fold_left (chunk_step chunk_size overlap) sentences (chunks, cur)
  = (chunks, cur ++ concat (map (fun s => SP :: s) sentences)).
Proof.
  revert cur. induction sentences as [|s l IH]; intros cur H; simpl.
  - rewrite app_nil_r. reflexivity.
  - simpl in H. unfold len in *.
    assert (E : (Z.of_nat (length cur) + Z.of_nat (length s) + 1 >? chunk_size)
                = false).
    { rewrite Z.gtb_ltb. apply Z.ltb_ge. lia. }
    rewrite E. simpl. rewrite IH.
    + rewrite <- app_assoc. reflexivity.
    + rewrite length_app. simpl. lia.
Qed.

Lemma smart_chunk_short text :
  len text < chunk_size ->
  smart_chunk text chunk_size overlap
  = match sentences_of text with
    | [] => []
    | _ => [strip (concat (map (fun s => SP :: s) (sentences_of text)))]
    end.
Proof.
  intros Hlen. unfold smart_chunk.
  pose proof (chunk_loop_inv chunk_size overlap _ (sentences_nonblank text)) as Inv.
  unfold chunk_loop in *.
  rewrite fold_no_emit in *.
  2,3: pose proof (weight_sentences_of text); unfold len in *; simpl; lia.
  simpl in *. destruct Inv as [_ Hb].
  destruct (sentences_of text) as [|s l]; [reflexivity|].
  destruct Hb as [Hb|Hb]; [discriminate Hb|].
  unfold nonblank in Hb. simpl in Hb |- *.
  rewrite truthy_strip. simpl. rewrite Hb. reflexivity.
Qed.

End ShortText.

Example spec_chunk_zero_overlap :
  spec_chunk (py "aaa. bbb. ccc.") 8 0 = [py "aaa."; py "bbb."; py "ccc."].
Proof. vm_compute. reflexivity. Qed.

Example spec_chunk_small :
  spec_chunk (py "aaa. bbb. ccc.") 8 5 = [py "aaa."; py "aaa. bbb."; py "bbb. ccc."].
Proof. vm_compute. reflexivity. Qed.

(** ** The code against the specified algorithm *)

Section Refinement.

Lemma split_on_cons_ne sep c s :
  c <> sep ->
  split_on sep (c :: s)
  = match split_on sep s with [] => [[c]] | w :: ws => (c :: w) :: ws end.
Proof. intros H. simpl. destruct (N.eqb_spec c sep); [contradiction|reflexivity]. Qed.

Lemma split_on_pieces_free sep s :
  Forall (Forall (fun c => c <> sep)) (split_on sep s).
Proof.
  induction s as [|c s IH]; simpl.
  - repeat constructor.
  - destruct (N.eqb_spec c sep) as [E|E].
    + constructor; [constructor|exact IH].
    + destruct (split_on sep s) as [|w ws].
      * repeat constructor. exact E.
      * inversion IH; subst. constructor; [constructor|]; assumption.
Qed.

Lemma Forall_lstrip (P : char -> Prop) s : Forall P s -> Forall P (lstrip s).
Proof.
  induction s as [|c s IH]; simpl; intros H; [exact H|].
  destruct (isspace c); [|exact H]. inversion H; subst. apply IH. assumption.
Qed.

Lemma Forall_strip (P : char -> Prop) s : Forall P s -> Forall P (strip s).
Proof.
  intros H. unfold strip, rstrip.
  apply Forall_rev, Forall_lstrip, Forall_rev, Forall_lstrip. exact H.
Qed.

Lemma cut_sentences_replace p :
  no_newline p -> split_on NL (replace2 DOT SP DOT NL p) = cut_sentences p.
Proof.
  pattern p. apply (replace2_both _ DOT SP); clear p.
  - reflexivity.
  - intros c H. inversion H; subst. simpl.
    destruct (N.eqb_spec c NL); [contradiction|reflexivity].
  - intros c d u E IH H. simpl replace2. simpl cut_sentences. rewrite E.
    apply andb_true_iff in E as [Ec Ed]. apply N.eqb_eq in Ec. subst c.
    inversion H as [|? ? _ H']; subst. inversion H' as [|? ? _ Hu]; subst.
    rewrite <- (IH Hu). reflexivity.
  - intros c d u E IH H.
    change (replace2 DOT SP DOT NL (c :: d :: u))
      with (if ((c =? DOT) && (d =? SP))%N
            then DOT :: NL :: replace2 DOT SP DOT NL u
            else c :: replace2 DOT SP DOT NL (d :: u)).
    change (cut_sentences (c :: d :: u))
      with (if ((c =? DOT) && (d =? SP))%N then [DOT] :: cut_sentences u
            else match cut_sentences (d :: u) with
                 | [] => [[c]]
                 | w :: ws => (c :: w) :: ws
                 end).
    rewrite E. inversion H as [|? ? Hc H']; subst.
    rewrite split_on_cons_ne by exact Hc. rewrite (IH H'). reflexivity.
Qed.

Lemma filter_truthy (l : list pystr) :
  filter (fun s => truthy s = true) l = filter (fun s => s <> []) l.
Proof.
  induction l as [|s l IH]; [reflexivity|].
  rewrite !filter_cons, IH.
  destruct s as [|c s].
  - destruct (decide (truthy [] = true)) as [H|H]; [discriminate H|].
    destruct (decide (@nil char <> [])) as [K|K]; [contradiction K|]; reflexivity.
  - destruct (decide (truthy (c :: s) = true)) as [H|H]; [|contradiction H; reflexivity].
    destruct (decide (c :: s <> [])) as [K|K]; [reflexivity|].
    contradiction K. discriminate.
Qed.

Lemma para_sentences_spec p :
  no_newline p -> para_sentences p = nonempty_trimmed (cut_sentences p).
Proof.
  intros H. unfold para_sentences, nonempty_trimmed.
  rewrite (cut_sentences_replace p H). apply filter_truthy.
Qed.

Lemma sentences_of_spec text : sentences_of text = spec_sentences text.
Proof.
  unfold sentences_of, spec_sentences, nonempty_trimmed at 2.
  pose proof (split_on_pieces_free NL text) as H.
  induction (split_on NL text) as [|p l IH]; [reflexivity|].
  inversion H as [|? ? Hp Hl]; subst. simpl.
  rewrite filter_cons, (IH Hl).
  rewrite (para_sentences_spec (strip p) (Forall_strip _ _ Hp)).
  destruct (strip p); reflexivity.
Qed.

Lemma slice_last_n {A} (k : Z) (l : list A) :
  1 <= k ->
  slice_from (- Z.min (Z.of_nat (length l)) k) l = last_n (Z.to_nat k) l.
Proof.
  intros Hk. unfold slice_from, last_n.
  destruct l as [|x l]; [rewrite !drop_nil; reflexivity|].
  set (n := length (x :: l)).
  assert (Hn : (1 <= n)%nat) by (subst n; simpl; lia).
  destruct (Z.ltb_spec (- Z.min (Z.of_nat n) k) 0); [|lia].
  f_equal. lia.
Qed.

Lemma truthy_len s : truthy s = negb (len s =? 0).
Proof. destruct s; reflexivity. Qed.

Lemma chunk_step_spec chunk_size overlap st sent :
  5 <= overlap ->
  chunk_step chunk_size overlap st sent = spec_step chunk_size overlap st sent.
Proof.
  intros Hov. destruct st as [chunks cur]. unfold chunk_step, spec_step.
  assert (Hk : 1 <= overlap `div` 5) by (apply Z.div_le_lower_bound; lia).
  rewrite (slice_last_n _ _ Hk), truthy_len.
  replace (len (cur ++ [SP] ++ sent)) with (len cur + len sent + 1).
  - reflexivity.
  - unfold len. rewrite !length_app. simpl. lia.
Qed.

Lemma fold_chunk_spec chunk_size overlap sentences st :
  5 <= overlap ->
  fold_left (chunk_step chunk_size overlap) sentences st
  = fold_left (spec_step chunk_size overlap) sentences st.
Proof.
  intros Hov. revert st.
  induction sentences as [|s l IH]; intros st; simpl; [reflexivity|].
  rewrite (chunk_step_spec _ _ _ _ Hov). apply IH.
Qed.

(** With at least one overlap word asked for, the code computes exactly
    what the specification describes. *)
Lemma smart_chunk_refines_spec text chunk_size overlap :
  5 <= overlap ->
  smart_chunk text chunk_size overlap = spec_chunk text chunk_size overlap.
Proof.
  intros Hov. unfold smart_chunk, spec_chunk, chunk_loop.
  rewrite (fold_chunk_spec _ _ _ _ Hov), sentences_of_spec.
  destruct (fold_left _ _ _) as [chunks cur].
  rewrite truthy_len. reflexivity.
Qed.

End Refinement.

(** ** A sentence is never cut *)

Section WholeSentences.

Lemma lstrip_idem s : lstrip (lstrip s) = lstrip s.
Proof.
  induction s as [|c s IH]; [reflexivity|].
  simpl. destruct (isspace c) eqn:E; [exact IH|].
  simpl. rewrite E. reflexivity.
Qed.

Lemma lstrip_app_nonspace l c r :
  isspace c = false -> lstrip (l ++ c :: r) = lstrip l ++ c :: r.
Proof.
  intros Hc. induction l as [|d l IH]; simpl.
  - rewrite Hc. reflexivity.
  - destruct (isspace d); [exact IH|reflexivity].
Qed.

Lemma rstrip_idem s : rstrip (rstrip s) = rstrip s.
Proof. unfold rstrip. rewrite rev_involutive, lstrip_idem. reflexivity. Qed.

Lemma lstrip_rstrip_fixed s : lstrip s = s -> lstrip (rstrip s) = rstrip s.
Proof.
  destruct s as [|c t]; [reflexivity|].
  simpl. destruct (isspace c) eqn:E.
  - intros H. pose proof (length_lstrip t) as L. rewrite H in L. simpl in L. lia.
  - intros _. unfold rstrip. simpl rev.
    rewrite (lstrip_app_nonspace _ _ [] E), rev_app_distr. simpl.
    rewrite E. reflexivity.
Qed.

Lemma strip_idem s : strip (strip s) = strip s.
Proof.
  unfold strip.
  rewrite (lstrip_rstrip_fixed (lstrip s) (lstrip_idem s)).
  apply rstrip_idem.
Qed.

Lemma strip_leading_space s : strip (SP :: s) = strip s.
Proof. reflexivity. Qed.

Lemma filter_strip_fixed (l : list pystr) :
  Forall (fun s => strip s = s)
         (filter (fun s => truthy s = true) (map strip l)).
Proof.
  induction l as [|p l IH]; simpl; [constructor|].
  rewrite filter_cons. destruct (decide (truthy (strip p) = true)); [|exact IH].
  constructor; [apply strip_idem|exact IH].
Qed.

Lemma sentences_stripped text : Forall (fun s => strip s = s) (sentences_of text).
Proof.
  unfold sentences_of. apply Forall_concat.
  induction (split_on NL text) as [|p l IH]; simpl; constructor; [|exact IH].
  destruct (truthy (strip p)); [apply filter_strip_fixed|constructor].
Qed.

(** With nothing buffered a sentence is taken whole, whatever its length. *)
Lemma chunk_step_empty_buffer chunk_size overlap chunks sent :
  chunk_step chunk_size overlap (chunks, []) sent = (chunks, SP :: sent).
Proof. unfold chunk_step. simpl. rewrite andb_false_r. reflexivity. Qed.

(** A text of one sentence is returned as that sentence, however long. *)
Lemma smart_chunk_single_sentence text chunk_size overlap s :
  sentences_of text = [s] -> smart_chunk text chunk_size overlap = [s].
Proof.
  intros H. unfold smart_chunk, chunk_loop. rewrite H.
  change (fold_left (chunk_step chunk_size overlap) [s] ([], []))
    with (chunk_step chunk_size overlap ([], []) s).
  rewrite chunk_step_empty_buffer, strip_leading_space.
  pose proof (sentences_stripped text) as F.
  pose proof (sentences_nonblank text) as N.
  rewrite H in F, N. inversion F; subst. inversion N; subst.
  rewrite truthy_strip.
  match goal with Hb : nonblank s |- _ => unfold nonblank in Hb; rewrite Hb end.
  simpl. congruence.
Qed.

End WholeSentences.

Example oversized_sentence_whole :
  smart_chunk (py "This sentence is longer than ten characters") 10 100
  = [py "This sentence is longer than ten characters"].
Proof. vm_compute. reflexivity. Qed.

(** ** Claims about the chunker *)

(** C2.  [smart_chunk] is meant to follow the specified algorithm, seeding
    the buffer after each emitted chunk with the last floor(overlap/5)
    words.  With [overlap = 0] (any overlap below 5) that is no word at
    all, yet the slice [words[-0:]] of the code is the whole word list: on
    "aaa. bbb. ccc." with chunk size 8 the code re-emits everything seen so
    far in each chunk, where the specified algorithm yields the three
    sentences. *)
Theorem smart_chunk_overlap_slice_diverges :
  smart_chunk (py "aaa. bbb. ccc.") 8 0
    = [py "aaa."; py "aaa. bbb."; py "aaa. bbb. ccc."]
  /\ spec_chunk (py "aaa. bbb. ccc.") 8 0
    = [py "aaa."; py "bbb."; py "ccc."]
  /\ slice_from (- Z.min 1 (0 `div` 5)) [py "aaa."] = [py "aaa."]
  /\ last_n (overlap_words_count 0) [py "aaa."] = [].
Proof. vm_compute. repeat split; reflexivity. Qed.

(** C3.  Every chunk returned by [smart_chunk] is non-empty after
    trimming and contains a non-whitespace character; an empty or
    whitespace-only text yields no chunk at all. *)
Theorem smart_chunk_no_blank_chunk text chunk_size overlap :
  (forall c, In c (smart_chunk text chunk_size overlap) ->
             strip c <> [] /\ blank c = false)
  /\ (blank text = true -> smart_chunk text chunk_size overlap = []).
Proof.
  split.
  - intros c Hc.
    pose proof (smart_chunk_nonblank chunk_size overlap text) as H.
    rewrite List.Forall_forall in H. specialize (H c Hc).
    split; [|exact H].
    intros K. apply strip_nil_iff in K. unfold nonblank in H. congruence.
  - apply smart_chunk_blank.
Qed.

Lemma smart_chunk_no_blank_chunk_witness :
  (strip (py "Hello world. This is a test.") <> []
   /\ blank (py "Hello world. This is a test.") = false)
  /\ smart_chunk (py "   ") 500 100 = [].
Proof.
  split.
  - apply (proj1 (smart_chunk_no_blank_chunk
                    (py "Hello world. This is a test.") 500 100)).
    vm_compute. left. reflexivity.
  - apply (proj2 (smart_chunk_no_blank_chunk (py "   ") 500 100)).
    vm_compute. reflexivity.
Defined.

(** C4, as the code has it.  A text with at least one non-whitespace
    character and fewer than [chunk_size] characters is returned as exactly
    one chunk. *)
Theorem smart_chunk_short_text_one_chunk text chunk_size overlap :
  blank text = false ->
  len text < chunk_size ->
  length (smart_chunk text chunk_size overlap) = 1%nat.
Proof.
  intros Hb Hlen. rewrite (smart_chunk_short _ _ _ Hlen).
  pose proof (sentences_of_nonempty text Hb) as Hne.
  destruct (sentences_of text); [contradiction Hne|]; reflexivity.
Qed.

Lemma smart_chunk_short_text_one_chunk_witness :
  length (smart_chunk (py "Hello world. This is a test.") 500 100) = 1%nat.
Proof.
  apply (smart_chunk_short_text_one_chunk
           (py "Hello world. This is a test.") 500 100).
  - vm_compute. reflexivity.
  - vm_compute. reflexivity.
Defined.

(** C4 as stated fails: a single space is a non-empty text shorter than
    the default chunk size, and it yields no chunk. *)
Lemma smart_chunk_short_text_counterexample :
  ~ (forall text chunk_size overlap,
        text <> [] -> len text < chunk_size ->
        length (smart_chunk text chunk_size overlap) = 1%nat).
Proof.
  intros H.
  specialize (H (py " ") default_chunk_size default_overlap).
  assert (K : length (smart_chunk (py " ") default_chunk_size default_overlap)
              = 1%nat).
  { apply H; [discriminate|vm_compute; reflexivity]. }
  vm_compute in K. discriminate K.
Qed.

(** ** The generation gateway *)

Section GeminiFacts.

Context `{Ext : Externals}.

Ltac run_monad :=
  unfold bind, ret, raise, try_except, gets, modify, lift_outcome,
         generate_content, sleep; simpl.

Lemma same_but_model_traffic_refl w : same_but_model_traffic w w.
Proof. repeat split. Qed.

Lemma same_but_model_traffic_trans w1 w2 w3 :
  same_but_model_traffic w1 w2 -> same_but_model_traffic w2 w3 ->
  same_but_model_traffic w1 w3.
Proof.
  unfold same_but_model_traffic.
  intros (A1 & A2 & A3 & A4 & A5 & A6 & A7 & A8)
         (B1 & B2 & B3 & B4 & B5 & B6 & B7 & B8).
  repeat split; congruence.
Qed.

(** One attempt, spelled out: the call is logged; text is returned, a
    rate-limit-shaped failure sleeps two seconds and tries again while
    attempts remain, any other failure leaves the loop. *)
Lemma gemini_attempts_step m p n w :
  gemini_attempts m p (S n) w
  = let w1 := with_genai_calls (fun l => l ++ [(m, p)]) w in
    match genai_generate (genai_calls w) m p with
    | inr text => (Ok (Some text), w1)
    | inl msg =>
        if rate_limit_shaped msg
        then gemini_attempts m p n (with_slept (fun s => s + 2) w1)
        else (Ok None, w1)
    end.
Proof.
  simpl. run_monad.
  destruct (genai_generate (genai_calls w) m p) as [msg|text]; simpl.
  - destruct (rate_limit_shaped msg); reflexivity.
  - reflexivity.
Qed.

Lemma gemini_attempts_ok m p n w :
  exists r w', gemini_attempts m p n w = (Ok r, w')
               /\ same_but_model_traffic w w'.
Proof.
  revert w. induction n as [|n IH]; intros w.
  - exists None, w. split; [reflexivity|apply same_but_model_traffic_refl].
  - rewrite gemini_attempts_step. simpl.
    destruct (genai_generate (genai_calls w) m p) as [msg|text].
    + destruct (rate_limit_shaped msg).
      * destruct (IH (with_slept (fun s => s + 2)
                        (with_genai_calls (fun l => l ++ [(m, p)]) w)))
          as (r & w' & E & F).
        exists r, w'. split; [exact E|].
        destruct F as (F1 & F2 & F3 & F4 & F5 & F6 & F7 & F8).
        repeat split; assumption.
      * eexists _, _. split; [reflexivity|repeat split].
    + eexists _, _. split; [reflexivity|repeat split].
Qed.

Lemma gemini_chain_step m rest p w :
  gemini_chain (m :: rest) p w
  = match gemini_attempts m p 2 w with
    | (Ok (Some text), w') => (Ok (Some text), w')
    | (Ok None, w') => gemini_chain rest p w'
    | (Raise e, w') => (Raise e, w')
    end.
Proof.
  change (gemini_chain (m :: rest) p w)
    with (bind (gemini_attempts m p 2)
               (fun r => match r with
                         | Some text => ret (Some text)
                         | None => gemini_chain rest p
                         end) w).
  unfold bind. destruct (gemini_attempts m p 2 w) as [[[text|]|e] w']; reflexivity.
Qed.

Lemma gemini_chain_ok chain p w :
  exists r w', gemini_chain chain p w = (Ok r, w')
               /\ same_but_model_traffic w w'.
Proof.
  revert w. induction chain as [|m rest IH]; intros w.
  - exists None, w. split; [reflexivity|apply same_but_model_traffic_refl].
  - rewrite gemini_chain_step.
    destruct (gemini_attempts_ok m p 2 w) as (r & w1 & E & F). rewrite E.
    destruct r as [text|].
    + exists (Some text), w1. split; [reflexivity|exact F].
    + destruct (IH w1) as (r' & w2 & E' & F').
      exists r', w2. split; [exact E'|].
      exact (same_but_model_traffic_trans _ _ _ F F').
Qed.

(** [_call_gemini] always returns a string and touches nothing but the
    record of the traffic with the model. *)
Lemma call_gemini_ok self p w :
  exists text w', _call_gemini self p w = (Ok text, w')
                  /\ same_but_model_traffic w w'.
Proof.
  unfold _call_gemini. destruct (has_gemini self); cbn [negb].
  - unfold bind.
    destruct (gemini_chain_ok GEMINI_MODEL_CHAIN p w) as (r & w' & E & F).
    rewrite E. destruct r as [text|]; eexists _, _; split; try reflexivity; exact F.
  - exists missing_key_message, w.
    split; [reflexivity|apply same_but_model_traffic_refl].
Qed.

(** C5.  [_call_gemini] never raises: on every prompt and in every state
    it returns a string.  Without a credential it returns the fixed
    missing-key message and leaves the world as it was, so the record of
    outbound model calls does not grow. *)
Theorem call_gemini_never_raises self prompt w :
  (exists text w', _call_gemini self prompt w = (Ok text, w'))
  /\ (has_gemini self = false ->
      _call_gemini self prompt w = (Ok missing_key_message, w)
      /\ genai_calls (snd (_call_gemini self prompt w)) = genai_calls w).
Proof.
  split.
  - destruct (call_gemini_ok self prompt w) as (text & w' & E & _).
    exists text, w'. exact E.
  - intros H. unfold _call_gemini. rewrite H. simpl. split; reflexivity.
Qed.

(** When every call fails with a rate-limit-shaped message, a model is
    tried [n] times out of [n]. *)
Lemma gemini_attempts_all_limited m p n w :
  (forall log name, exists msg,
      genai_generate log name p = inl msg /\ rate_limit_shaped msg = true) ->
  exists w', gemini_attempts m p n w = (Ok None, w')
             /\ genai_calls w' = genai_calls w ++ repeat (m, p) n
             /\ slept w' = slept w + 2 * Z.of_nat n.
Proof.
  intros H. revert w. induction n as [|n IH]; intros w.
  - exists w. simpl. rewrite app_nil_r. repeat split. lia.
  - rewrite gemini_attempts_step. simpl.
    destruct (H (genai_calls w) m) as (msg & E & R). rewrite E, R.
    destruct (IH (with_slept (fun s => s + 2)
                    (with_genai_calls (fun l => l ++ [(m, p)]) w)))
      as (w' & E' & C & S).
    exists w'. split; [exact E'|]. simpl in C, S. split.
    + rewrite C, <- app_assoc. reflexivity.
    + rewrite S. lia.
Qed.

Lemma gemini_chain_all_limited chain p w :
  (forall log name, exists msg,
      genai_generate log name p = inl msg /\ rate_limit_shaped msg = true) ->
  exists w', gemini_chain chain p w = (Ok None, w')
             /\ genai_calls w'
                = genai_calls w ++ concat (map (fun m => [(m, p); (m, p)]) chain).
Proof.
  intros H. revert w. induction chain as [|m rest IH]; intros w.
  - exists w. simpl. rewrite app_nil_r. split; reflexivity.
  - rewrite gemini_chain_step.
    destruct (gemini_attempts_all_limited m p 2 w H) as (w1 & E & C & _).
    rewrite E. destruct (IH w1) as (w2 & E2 & C2).
    exists w2. split; [exact E2|].
    rewrite C2, C. simpl. rewrite <- app_assoc. reflexivity.
Qed.

(** When every call fails with a message that is not rate-limit-shaped,
    each model is tried once. *)
Lemma gemini_chain_all_broken chain p w :
  (forall log name, exists msg,
      genai_generate log name p = inl msg /\ rate_limit_shaped msg = false) ->
  exists w', gemini_chain chain p w = (Ok None, w')
             /\ genai_calls w' = genai_calls w ++ map (fun m => (m, p)) chain.
Proof.
  intros H. revert w. induction chain as [|m rest IH]; intros w.
  - exists w. simpl. rewrite app_nil_r. split; reflexivity.
  - rewrite gemini_chain_step, gemini_attempts_step. simpl.
    destruct (H (genai_calls w) m) as (msg & E & R). rewrite E, R.
    destruct (IH (with_genai_calls (fun l => l ++ [(m, p)]) w)) as (w2 & E2 & C2).
    exists w2. split; [exact E2|].
    rewrite C2. simpl. rewrite <- app_assoc. reflexivity.
Qed.

End GeminiFacts.

Section GeminiFallback.

Context `{Ext : Externals}.

(** C6.  With a credential: a failed attempt whose message is
    rate-limit-shaped is followed by a second attempt on the same model
    (two attempts at most), any other failure ends the attempts on that
    model at once, and in both cases the next model is tried.  So when all
    attempts fail rate-limit-shaped the five models are called twice each,
    ten calls, and when all fail otherwise once each, five calls; the
    fixed exhausted message is returned. *)
Theorem gemini_fallback_attempts self prompt w :
  has_gemini self = true ->
  ((forall log name, exists msg,
       genai_generate log name prompt = inl msg /\ rate_limit_shaped msg = true) ->
   exists w', _call_gemini self prompt w = (Ok exhausted_message, w')
     /\ genai_calls w'
        = genai_calls w
          ++ concat (map (fun m => [(m, prompt); (m, prompt)]) GEMINI_MODEL_CHAIN)
     /\ length (genai_calls w') = (length (genai_calls w) + 10)%nat)
  /\ ((forall log name, exists msg,
         genai_generate log name prompt = inl msg /\ rate_limit_shaped msg = false) ->
      exists w', _call_gemini self prompt w = (Ok exhausted_message, w')
        /\ genai_calls w'
           = genai_calls w ++ map (fun m => (m, prompt)) GEMINI_MODEL_CHAIN
        /\ length (genai_calls w') = (length (genai_calls w) + 5)%nat)
  /\ (forall m n w0,
        gemini_attempts m prompt (S n) w0
        = let w1 := with_genai_calls (fun l => l ++ [(m, prompt)]) w0 in
          match genai_generate (genai_calls w0) m prompt with
          | inr text => (Ok (Some text), w1)
          | inl msg =>
              if rate_limit_shaped msg
              then gemini_attempts m prompt n (with_slept (fun s => s + 2) w1)
              else (Ok None, w1)
          end).
Proof.
  intros Hkey. repeat split.
  - intros H.
    destruct (gemini_chain_all_limited GEMINI_MODEL_CHAIN prompt w H) as (w' & E & C).
    exists w'. unfold _call_gemini. rewrite Hkey. cbn [negb]. unfold bind.
    rewrite E. repeat split; [exact C|].
    rewrite C, length_app. reflexivity.
  - intros H.
    destruct (gemini_chain_all_broken GEMINI_MODEL_CHAIN prompt w H) as (w' & E & C).
    exists w'. unfold _call_gemini. rewrite Hkey. cbn [negb]. unfold bind.
    rewrite E. repeat split; [exact C|].
    rewrite C, length_app. reflexivity.
  - intros m n w0. apply gemini_attempts_step.
Qed.

End GeminiFallback.

Lemma call_gemini_never_raises_witness :
  let E := Demo.externals Demo.answering (inr Demo.no_key_service) in
  @_call_gemini E Demo.no_key_service (py "What is X?") (@startup E [])
    = (Ok missing_key_message, @startup E [])
  /\ @genai_calls E
       (snd (@_call_gemini E Demo.no_key_service (py "What is X?") (@startup E [])))
     = @genai_calls E (@startup E []).
Proof.
  intros E.
  apply (proj2 (@call_gemini_never_raises E Demo.no_key_service
                  (py "What is X?") (@startup E []))).
  reflexivity.
Defined.

Lemma gemini_fallback_attempts_witness :
  (let E := Demo.externals Demo.always_limited (inr Demo.full_service) in
   exists w', @_call_gemini E Demo.full_service (py "What is X?") (@startup E [])
              = (Ok exhausted_message, w')
     /\ @genai_calls E w'
        = @genai_calls E (@startup E [])
          ++ concat (map (fun m => [(m, py "What is X?"); (m, py "What is X?")])
                         GEMINI_MODEL_CHAIN)
     /\ length (@genai_calls E w')
        = (length (@genai_calls E (@startup E [])) + 10)%nat)
  /\ (let E := Demo.externals Demo.always_broken (inr Demo.full_service) in
      exists w', @_call_gemini E Demo.full_service (py "What is X?") (@startup E [])
                 = (Ok exhausted_message, w')
        /\ @genai_calls E w'
           = @genai_calls E (@startup E [])
             ++ map (fun m => (m, py "What is X?")) GEMINI_MODEL_CHAIN
        /\ length (@genai_calls E w')
           = (length (@genai_calls E (@startup E [])) + 5)%nat).
Proof.
  split; intros E.
  - apply (proj1 (@gemini_fallback_attempts E Demo.full_service
                    (py "What is X?") (@startup E []) eq_refl)).
    intros log name. exists (py "429 Too Many Requests").
    split; vm_compute; reflexivity.
  - apply (proj1 (proj2 (@gemini_fallback_attempts E Demo.full_service
                           (py "What is X?") (@startup E []) eq_refl))).
    intros log name. exists (py "500 internal error").
    split; vm_compute; reflexivity.
Defined.

(** ** What a computation leaves alone *)

Section Frames.

Context `{Ext : Externals}.

Context (R : relation World) `{!PreOrder R}.

Lemma keeps_ret {A} (a : A) : keeps R (ret a).
Proof. intros w r w' E. inversion E. reflexivity. Qed.

Lemma keeps_raise {A} e : keeps R (@raise _ A e).
Proof. intros w r w' E. inversion E. reflexivity. Qed.

Lemma keeps_gets {A} (f : World -> A) : keeps R (gets f).
Proof. intros w r w' E. inversion E. reflexivity. Qed.

Lemma keeps_modify f : (forall w, R w (f w)) -> keeps R (modify f).
Proof. intros H w r w' E. inversion E. apply H. Qed.

Lemma keeps_lift_outcome {A} (o : pystr + A) : keeps R (lift_outcome o).
Proof. destruct o; [apply keeps_raise|apply keeps_ret]. Qed.

Lemma keeps_bind {A B} (m : M A) (k : A -> M B) :
  keeps R m -> (forall a, keeps R (k a)) -> keeps R (bind m k).
Proof.
  intros Hm Hk w r w' E. unfold bind in E.
  destruct (m w) as [[a|e] w1] eqn:Em.
  - transitivity w1; [exact (Hm _ _ _ Em)|exact (Hk a _ _ _ E)].
  - inversion E; subst. exact (Hm _ _ _ Em).
Qed.

Lemma keeps_try_except {A} (m : M A) (h : exn -> M A) :
  keeps R m -> (forall e, keeps R (h e)) -> keeps R (try_except m h).
Proof.
  intros Hm Hh w r w' E. unfold try_except in E.
  destruct (m w) as [[a|e] w1] eqn:Em.
  - inversion E; subst. exact (Hm _ _ _ Em).
  - transitivity w1; [exact (Hm _ _ _ Em)|exact (Hh e _ _ _ E)].
Qed.

End Frames.

Section KeptRelations.

Context `{Ext : Externals}.

#[global] Instance conversations_kept_preorder : PreOrder conversations_kept.
Proof.
  split.
  - intros w. split; [reflexivity|lia].
  - intros w1 w2 w3 [A1 A2] [B1 B2]. split; [congruence|lia].
Qed.

#[global] Instance index_kept_preorder : PreOrder index_kept.
Proof.
  split.
  - intros w. reflexivity.
  - intros w1 w2 w3 A B. unfold index_kept in *. congruence.
Qed.

End KeptRelations.

Ltac kept_fields :=
  unfold conversations_kept, index_kept; simpl;
  repeat split; try reflexivity; try lia.

Create HintDb frames.

Ltac frame_apply lem :=
  apply lem;
  try match goal with |- PreOrder _ => typeclasses eauto end.

Ltac frame_step :=
  cbv beta;
  match goal with
  | |- keeps _ (bind _ _) => frame_apply keeps_bind; [|intros ?]
  | |- keeps _ (ret _) => frame_apply keeps_ret
  | |- keeps _ (raise _) => frame_apply keeps_raise
  | |- keeps _ (gets _) => frame_apply keeps_gets
  | |- keeps _ (lift_outcome _) => frame_apply keeps_lift_outcome
  | |- keeps _ (try_except _ _) => frame_apply keeps_try_except; [|intros ?]
  | |- keeps _ (modify _) => frame_apply keeps_modify; intros ?; kept_fields
  | |- keeps _ (if ?b then _ else _) => destruct b
  | |- keeps _ (match ?x with _ => _ end) => destruct x
  | |- keeps _ _ => solve [auto with frames]
  end.

Ltac frame := repeat frame_step.

(** A computation given by its effect on the world in one step. *)
Ltac frame_direct :=
  let w := fresh "w" in let r := fresh "r" in
  let w' := fresh "w'" in let E := fresh "E" in
  intros w r w' E;
  repeat match type of E with
         | context [match ?x with _ => _ end] => destruct x
         end;
  inversion E; subst; kept_fields.

Section PrimitiveFrames.

Context `{Ext : Externals}.

Lemma uuid4_keeps_conversations : keeps conversations_kept uuid4_str.
Proof. unfold uuid4_str. frame_direct. Qed.

Lemma time_now_keeps_conversations : keeps conversations_kept time_now.
Proof. unfold time_now. frame_direct. Qed.

Lemma upsert_keeps_conversations r : keeps conversations_kept (upsert r).
Proof. unfold upsert. frame_direct. Qed.

Lemma get_rag_service_keeps_conversations : keeps conversations_kept get_rag_service.
Proof. unfold get_rag_service. frame_direct. Qed.

Lemma get_rag_service_keeps_index : keeps index_kept get_rag_service.
Proof. unfold get_rag_service. frame_direct. Qed.

(** [search] does not change the world at all. *)
Lemma search_pure self q k w r w' : search self q k w = (r, w') -> w' = w.
Proof.
  unfold search, encode, query, bind, lift_outcome, raise, ret.
  destruct (has_index self); simpl.
  - destruct (model_encode q) as [msg|v]; [intros E; inversion E; reflexivity|].
    destruct (index_query (index_upserts w) v k); intros E; inversion E; reflexivity.
  - intros E. inversion E. reflexivity.
Qed.

Lemma call_gemini_frame self p w r w' :
  _call_gemini self p w = (r, w') -> same_but_model_traffic w w'.
Proof.
  intros E. destruct (call_gemini_ok self p w) as (t & w1 & E1 & F).
  rewrite E in E1. inversion E1; subst. exact F.
Qed.

Lemma call_gemini_keeps_conversations self p :
  keeps conversations_kept (_call_gemini self p).
Proof.
  intros w r w' E. apply call_gemini_frame in E.
  destruct E as (F1 & F2 & F3 & F4 & F5 & F6 & F7 & F8).
  split; [exact F1|lia].
Qed.

End PrimitiveFrames.

#[global] Hint Resolve uuid4_keeps_conversations time_now_keeps_conversations
  upsert_keeps_conversations get_rag_service_keeps_conversations
  call_gemini_keeps_conversations : frames.

(** ** Deleting a document *)

Section DeleteDocument.

Context `{Ext : Externals}.

Lemma in_store_lookup {V} (key : pystr) (store : gmap pystr V) :
  in_store key store = true <-> is_Some (store !! key).
Proof.
  unfold in_store. destruct (store !! key) as [v|].
  - split; [eauto|reflexivity].
  - split; [discriminate|intros [v Hv]; discriminate Hv].
Qed.

(** C9.  [delete_document] on an unknown file name raises 404 "Document
    not found" and changes nothing; on a known one it removes that entry of
    the document store and no other.  In both cases nothing is removed
    from (or added to) the vector index, and the conversations stay as they
    were. *)
Theorem delete_document_metadata_only filename w :
  (document_store w !! filename = None ->
   delete_document filename w
   = (Raise (HTTPException 404 (py "Document not found")), w))
  /\ (is_Some (document_store w !! filename) ->
      exists w', delete_document filename w = (Ok (py "deleted", filename), w')
        /\ document_store w' !! filename = None
        /\ (forall other, other <> filename ->
              document_store w' !! other = document_store w !! other))
  /\ index_upserts (snd (delete_document filename w)) = index_upserts w
  /\ conversation_store (snd (delete_document filename w)) = conversation_store w.
Proof.
  unfold delete_document, bind, gets, modify, ret, raise, not_found, in_store.
  repeat split.
  - intros H. rewrite H. reflexivity.
  - intros [d H]. rewrite H. eexists. split; [reflexivity|]. simpl. split.
    + apply lookup_delete_eq.
    + intros other Hne. apply lookup_delete_ne. congruence.
  - destruct (document_store w !! filename); reflexivity.
  - destruct (document_store w !! filename); reflexivity.
Qed.

End DeleteDocument.

Lemma delete_document_metadata_only_witness :
  let E := Demo.externals Demo.answering (inr Demo.full_service) in
  let w := with_document_store (insert (py "notes.txt") Demo.notes) (@startup E []) in
  @delete_document E (py "unknown.txt") w
  = (Raise (HTTPException 404 (py "Document not found")), w)
  /\ exists w', @delete_document E (py "notes.txt") w
                = (Ok (py "deleted", py "notes.txt"), w')
       /\ @document_store E w' !! py "notes.txt" = None
       /\ (forall other, other <> py "notes.txt" ->
             @document_store E w' !! other = @document_store E w !! other).
Proof.
  intros E w. split.
  - apply (proj1 (@delete_document_metadata_only E (py "unknown.txt") w)).
    vm_compute. reflexivity.
  - apply (proj1 (proj2 (@delete_document_metadata_only E (py "notes.txt") w))).
    exists Demo.notes. vm_compute. reflexivity.
Defined.

(** ** Queries *)

Section QueryFacts.

Context `{Ext : Externals}.

Lemma query_index_search_mode q w resp w' :
  mode q <> py "chat" ->
  query_index q w = (Ok resp, w') ->
  exists service w1 hits,
    get_rag_service w = (Ok service, w1)
    /\ search service (req_query q) (top_k q) (with_clock_reads S w1)
       = (Ok hits, with_clock_reads S w1)
    /\ resp = {| results := map format_result hits; answer := None;
                 resp_conversation_id := conversation_id q |}
    /\ conversation_store w' = conversation_store w1
    /\ uuid_count w' = uuid_count w1
    /\ index_upserts w' = index_upserts w1
    /\ document_store w' = document_store w1.
Proof.
  intros Hmode E. unfold query_index in E. unfold bind at 1 in E.
  destruct (get_rag_service w) as [[service|e] w1] eqn:Eg; [|discriminate E].
  unfold bind at 1 in E. unfold time_now at 1 in E.
  unfold bind at 1 in E.
  destruct (search service (req_query q) (top_k q) (with_clock_reads S w1))
    as [[hits|e] w2] eqn:Es; [|discriminate E].
  pose proof (search_pure _ _ _ _ _ _ Es) as ->.
  destruct (decide (mode q = py "chat")) as [|_]; [contradiction|].
  unfold bind, ret, time_now, modify in E. cbn [fst snd] in E.
  inversion E; subst; clear E.
  exists service, w1, hits. repeat split; try reflexivity. exact Es.
Qed.

Lemma known_conversation_lookup cid w c :
  known_conversation cid w = Some c ->
  cid = Some c /\ exists conv, conversation_store w !! c = Some conv.
Proof.
  unfold known_conversation, in_store. destruct cid as [c'|]; [|discriminate].
  destruct (conversation_store w !! c') as [conv|] eqn:L; [|discriminate].
  intros H. inversion H; subst. split; [reflexivity|eauto].
Qed.

Lemma known_conversation_none cid w :
  known_conversation cid w = None ->
  cid = None \/ exists c, cid = Some c /\ conversation_store w !! c = None.
Proof.
  unfold known_conversation, in_store. destruct cid as [c'|]; [|auto].
  destruct (conversation_store w !! c') as [conv|] eqn:L; [discriminate|].
  intros _. right. eauto.
Qed.

Lemma chat_turn_spec service q ctx w :
  let known := known_conversation (conversation_id q) w in
  let cid := match known with Some c => c | None => uuid4 (uuid_count w) end in
  let old := match known with
             | Some c => match conversation_store w !! c with
                         | Some conv => messages conv
                         | None => []
                         end
             | None => []
             end in
  exists ans w' conv',
    chat_turn service q ctx w = (Ok (ans, cid), w')
    /\ conversation_store w' = <[cid := conv']> (conversation_store w)
    /\ messages conv' = old ++ turn_messages q ans
    /\ uuid_count w' = match known with
                       | Some _ => uuid_count w
                       | None => S (uuid_count w)
                       end
    /\ index_upserts w' = index_upserts w
    /\ document_store w' = document_store w.
Proof.
  intros known cid old. unfold chat_turn.
  unfold bind at 1. unfold gets at 1. unfold bind at 1. unfold generate_answer.
  destruct (call_gemini_ok service
              (answer_prompt (req_query q) ctx (chat_history (conversation_id q) w)) w)
    as (ans & wg & Eg & F).
  rewrite Eg. destruct F as (F1 & F2 & F3 & F4 & F5 & F6 & F7 & F8).
  unfold bind at 1. unfold gets at 1.
  assert (K : known_conversation (conversation_id q) wg = known).
  { unfold known, known_conversation. rewrite F1. reflexivity. }
  rewrite K. subst cid old. destruct known as [c|] eqn:Ek.
  - apply known_conversation_lookup in Ek as [Hid [conv Hconv]].
    rewrite Hconv.
    unfold bind at 1. unfold ret at 1.
    unfold bind at 1. unfold append_message at 1. rewrite F1, Hconv.
    unfold bind at 1. unfold append_message at 1.
    cbn [conversation_store with_conversation_store].
    rewrite lookup_insert_eq.
    unfold bind at 1. unfold time_now at 1.
    unfold bind at 1. unfold set_updated_at at 1.
    cbn [conversation_store with_conversation_store with_clock_reads].
    rewrite lookup_insert_eq.
    unfold ret.
    eexists ans, _, _. split; [reflexivity|].
    cbn [conversation_store with_conversation_store with_clock_reads
         uuid_count index_upserts document_store messages].
    rewrite !insert_insert_eq, F1.
    repeat split; try assumption. rewrite <- app_assoc. reflexivity.
  - unfold bind at 1. unfold bind at 1. unfold uuid4_str at 1.
    unfold bind at 1. unfold time_now at 1.
    unfold bind at 1. unfold time_now at 1.
    unfold bind at 1. unfold modify at 1. unfold ret at 1.
    unfold bind at 1. unfold append_message at 1.
    cbn [conversation_store with_conversation_store with_clock_reads
         with_uuid_count uuid_count clock_reads].
    rewrite lookup_insert_eq.
    unfold bind at 1. unfold append_message at 1.
    cbn [conversation_store with_conversation_store].
    rewrite lookup_insert_eq.
    unfold bind at 1. unfold time_now at 1.
    unfold bind at 1. unfold set_updated_at at 1.
    cbn [conversation_store with_conversation_store with_clock_reads].
    rewrite lookup_insert_eq.
    unfold ret. rewrite F6.
    eexists ans, _, _. split; [reflexivity|].
    cbn [conversation_store with_conversation_store with_clock_reads
         with_uuid_count uuid_count index_upserts document_store messages].
    rewrite !insert_insert_eq, F1, F6.
    repeat split; assumption.
Qed.

Lemma query_index_chat_mode q w resp w' :
  mode q = py "chat" ->
  query_index q w = (Ok resp, w') ->
  exists service w1 hits ans cid w2,
    get_rag_service w = (Ok service, w1)
    /\ search service (req_query q) (top_k q) (with_clock_reads S w1)
       = (Ok hits, with_clock_reads S w1)
    /\ chat_turn service q (context_of hits) (with_clock_reads S w1)
       = (Ok (ans, cid), w2)
    /\ resp = {| results := map format_result hits; answer := Some ans;
                 resp_conversation_id := Some cid |}
    /\ conversation_store w' = conversation_store w2
    /\ uuid_count w' = uuid_count w2.
Proof.
  intros Hmode E. unfold query_index in E. unfold bind at 1 in E.
  destruct (get_rag_service w) as [[service|e] w1] eqn:Eg; [|discriminate E].
  unfold bind at 1 in E. unfold time_now at 1 in E.
  unfold bind at 1 in E.
  destruct (search service (req_query q) (top_k q) (with_clock_reads S w1))
    as [[hits|e] w2] eqn:Es; [|discriminate E].
  pose proof (search_pure _ _ _ _ _ _ Es) as ->.
  destruct (decide (mode q = py "chat")) as [_|]; [|contradiction].
  unfold bind at 1 in E. unfold bind at 1 in E.
  destruct (chat_turn_spec service q (context_of hits) (with_clock_reads S w1))
    as (ans & w2 & conv' & Et & _).
  rewrite Et in E.
  unfold bind, ret, time_now, modify in E. cbn [fst snd] in E.
  inversion E; subst; clear E.
  eexists service, w1, hits, ans, _, w2.
  repeat split; try reflexivity; assumption.
Qed.

(** A query is answered whenever the service is there and the embedding
    model and the index answer. *)
Lemma query_index_returns q w service :
  rag_service w = Some service ->
  (has_index service = true ->
   exists v hits, model_encode (req_query q) = inr v
                  /\ index_query (index_upserts w) v (top_k q) = inr hits) ->
  exists resp w', query_index q w = (Ok resp, w').
Proof.
  intros Hs Hidx. unfold query_index. unfold bind at 1.
  unfold get_rag_service. rewrite Hs.
  unfold bind at 1. unfold time_now at 1. unfold bind at 1.
  assert (Es : exists hits,
             search service (req_query q) (top_k q) (with_clock_reads S w)
             = (Ok hits, with_clock_reads S w)).
  { unfold search. destruct (has_index service); cbn [negb].
    - destruct (Hidx eq_refl) as (v & hits & Ev & Eq).
      exists hits. unfold bind, encode, query, lift_outcome, ret.
      rewrite Ev. cbn [index_upserts with_clock_reads]. rewrite Eq. reflexivity.
    - exists []. reflexivity. }
  destruct Es as (hits & Es). rewrite Es.
  destruct (decide (mode q = py "chat")).
  - unfold bind at 1. unfold bind at 1.
    destruct (chat_turn_spec service q (context_of hits) (with_clock_reads S w))
      as (ans & w2 & conv' & Et & _).
    rewrite Et. unfold bind, ret, time_now, modify. eauto.
  - unfold bind, ret, time_now, modify. eauto.
Qed.

End QueryFacts.

(** ** Search-mode queries *)

Section SearchMode.

Context `{Ext : Externals}.

Lemma format_results_descending hits :
  hits_descending hits -> results_descending (map format_result hits).
Proof.
  unfold hits_descending, results_descending.
  induction 1 as [|a l Hl IH Hhd]; simpl; constructor; [exact IH|].
  destruct Hhd; simpl; constructor. assumption.
Qed.

Lemma search_origin service q k w hits :
  search service q k w = (Ok hits, w) ->
  (has_index service = false /\ hits = [])
  \/ (has_index service = true
      /\ exists v, model_encode q = inr v
                   /\ index_query (index_upserts w) v k = inr hits).
Proof.
  unfold search, bind, encode, query, lift_outcome, raise, ret.
  destruct (has_index service); cbn [negb].
  - destruct (model_encode q) as [msg|v]; [discriminate|].
    destruct (index_query (index_upserts w) v k) as [msg|l] eqn:Eq; [discriminate|].
    intros E. inversion E; subst. right. split; [reflexivity|]. eauto.
  - intros E. inversion E. left. split; reflexivity.
Qed.

Lemma get_rag_service_index w r w1 :
  get_rag_service w = (r, w1) -> index_upserts w1 = index_upserts w.
Proof. intros E. exact (get_rag_service_keeps_index _ _ _ E). Qed.

Lemma get_rag_service_conversations w r w1 :
  get_rag_service w = (r, w1) ->
  conversation_store w1 = conversation_store w /\ uuid_count w1 = uuid_count w.
Proof.
  unfold get_rag_service. intros E.
  destruct (rag_service w); [inversion E; split; reflexivity|].
  destruct (service_boot (boot_count w)); inversion E; split; reflexivity.
Qed.


(** C10.  A /query call whose mode is not "chat" and which names a
    conversation returns that very id, whether or not a conversation of
    that id exists; the conversation store is left as it was, so none is
    created. *)
Theorem query_search_mode_echoes_id q w resp w' c :
  mode q <> py "chat" ->
  conversation_id q = Some c ->
  query_index q w = (Ok resp, w') ->
  resp_conversation_id resp = Some c
  /\ conversation_store w' = conversation_store w
  /\ conversation_store w' !! c = conversation_store w !! c.
Proof.
  intros Hmode Hid E.
  destruct (query_index_search_mode q w resp w' Hmode E)
    as (service & w1 & hits & Eg & Es & -> & Hc & _).
  destruct (get_rag_service_conversations _ _ _ Eg) as [Hc1 _].
  cbn [resp_conversation_id].
  assert (conversation_store w' = conversation_store w) as -> by congruence.
  repeat split. exact Hid.
Qed.

End SearchMode.


Lemma query_search_mode_echoes_id_witness :
  exists resp w',
    @query_index Demo.full (Demo.search_request (Some (py "no-such-id")))
      (@startup Demo.full [])
    = (Ok resp, w')
    /\ resp_conversation_id resp = Some (py "no-such-id")
    /\ @conversation_store Demo.full w' = ∅
    /\ @conversation_store Demo.full w' !! py "no-such-id" = None.
Proof.
  eexists _, _. split; [vm_compute; reflexivity|].
  assert (Hmode : mode (Demo.search_request (Some (py "no-such-id"))) <> py "chat")
    by (vm_compute; discriminate).
  exact (@query_search_mode_echoes_id Demo.full
           (Demo.search_request (Some (py "no-such-id")))
           (@startup Demo.full []) _ _ (py "no-such-id") Hmode eq_refl eq_refl).
Defined.

(** ** Handlers that do not touch the conversations *)

Section ConversationFrames.

Context `{Ext : Externals}.

Lemma ingest_text_keeps_conversations self text meta :
  keeps conversations_kept (ingest_text self text meta).
Proof. unfold ingest_text, encode. frame. Qed.

Lemma ingest_chunks_keeps_conversations self filename chunks count :
  keeps conversations_kept (ingest_chunks self filename chunks count).
Proof.
  revert count. induction chunks as [|c l IH]; intros count; simpl.
  - frame.
  - frame_step; [apply ingest_text_keeps_conversations|apply IH].
Qed.

Lemma ingest_file_keeps_conversations filename size text :
  keeps conversations_kept (ingest_file filename size text).
Proof.
  pose proof ingest_chunks_keeps_conversations.
  unfold ingest_file. frame.
Qed.

Lemma summarize_document_keeps_conversations filename :
  keeps conversations_kept (summarize_document filename).
Proof. unfold summarize_document, summarize_text. frame. Qed.

Lemma delete_document_keeps_conversations filename :
  keeps conversations_kept (delete_document filename).
Proof. unfold delete_document. frame. Qed.

Lemma paired_kept w w' : conversations_kept w w' -> paired w -> paired w'.
Proof. intros [E _] H k c L. rewrite E in L. exact (H k c L). Qed.

Lemma ids_minted_kept w w' : conversations_kept w w' -> ids_minted w -> ids_minted w'.
Proof.
  intros [E Hn] H k L. rewrite E in L.
  destruct (H k L) as (i & Hi & ->). exists i. split; [lia|reflexivity].
Qed.

End ConversationFrames.

(** ** Conversations across a query *)

Section ChatInvariants.

Context `{Ext : Externals}.

Lemma known_conversation_ext cid w1 w2 :
  conversation_store w1 = conversation_store w2 ->
  known_conversation cid w1 = known_conversation cid w2.
Proof. intros E. unfold known_conversation. rewrite E. reflexivity. Qed.

Lemma query_index_chat_recorded q w resp w' :
  mode q = py "chat" ->
  query_index q w = (Ok resp, w') ->
  exists ans,
    answer resp = Some ans
    /\ resp_conversation_id resp = Some (target_conversation q w)
    /\ turn_recorded q w w' ans.
Proof.
  intros Hmode E.
  destruct (query_index_chat_mode q w resp w' Hmode E)
    as (service & w1 & hits & ans & cid & w2 & Eg & Es & Et & -> & Hc & Hu).
  destruct (get_rag_service_conversations _ _ _ Eg) as [Hc1 Hu1].
  destruct (chat_turn_spec service q (context_of hits) (with_clock_reads S w1))
    as (ans' & w2' & conv' & Et' & Hs & Hm & Hn & _).
  rewrite Et in Et'. inversion Et'; subst ans' w2'. clear Et'.
  assert (K : known_conversation (conversation_id q) (with_clock_reads S w1)
              = known_conversation (conversation_id q) w).
  { apply known_conversation_ext. exact Hc1. }
  cbn [conversation_store with_clock_reads uuid_count] in *.
  rewrite K, Hc1, Hu1 in *.
  exists ans. cbn [answer resp_conversation_id].
  split; [reflexivity|]. split.
  - unfold target_conversation. congruence.
  - exists conv'. unfold target_conversation, earlier_messages, uuids_after.
    repeat split; congruence.
Qed.

Lemma query_index_raise_kept q w e w' :
  query_index q w = (Raise e, w') -> conversations_kept w w'.
Proof.
  intros E. unfold query_index in E. unfold bind at 1 in E.
  destruct (get_rag_service w) as [[service|e1] w1] eqn:Eg.
  - destruct (get_rag_service_conversations _ _ _ Eg) as [Hc1 Hu1].
    unfold bind at 1 in E. unfold time_now at 1 in E. unfold bind at 1 in E.
    destruct (search service (req_query q) (top_k q) (with_clock_reads S w1))
      as [[hits|e2] w2] eqn:Es.
    + exfalso. pose proof (search_pure _ _ _ _ _ _ Es) as ->.
      destruct (decide (mode q = py "chat")).
      * unfold bind at 1 in E. unfold bind at 1 in E.
        destruct (chat_turn_spec service q (context_of hits) (with_clock_reads S w1))
          as (ans & w3 & conv' & Et & _).
        rewrite Et in E. unfold bind, ret, time_now, modify in E. discriminate E.
      * unfold bind, ret, time_now, modify in E. discriminate E.
    + pose proof (search_pure _ _ _ _ _ _ Es) as ->.
      inversion E; subst. split; simpl; [exact Hc1|lia].
  - inversion E; subst. exact (get_rag_service_keeps_conversations _ _ _ Eg).
Qed.

Lemma even_turn (old : list Message) q ans :
  Nat.even (length (old ++ turn_messages q ans)) = Nat.even (length old).
Proof.
  rewrite length_app. simpl. rewrite Nat.even_add.
  destruct (Nat.even (length old)); reflexivity.
Qed.

Lemma turn_recorded_paired q w w' ans :
  turn_recorded q w w' ans -> paired w -> paired w'.
Proof.
  intros (conv' & Hs & Hm & _) H k c L. rewrite Hs in L.
  destruct (decide (target_conversation q w = k)) as [<-|Hne].
  - rewrite lookup_insert_eq in L. inversion L; subst c.
    rewrite Hm, even_turn. unfold earlier_messages.
    destruct (known_conversation (conversation_id q) w) as [c|]; [|reflexivity].
    destruct (conversation_store w !! c) as [conv|] eqn:Lc; [|reflexivity].
    exact (H c conv Lc).
  - rewrite lookup_insert_ne in L by exact Hne. exact (H k c L).
Qed.

Lemma turn_recorded_minted q w w' ans :
  turn_recorded q w w' ans -> ids_minted w -> ids_minted w'.
Proof.
  intros (conv' & Hs & _ & Hn) H k L. rewrite Hs in L. rewrite Hn.
  unfold target_conversation, uuids_after in *.
  destruct (known_conversation (conversation_id q) w) as [c|] eqn:K.
  - apply known_conversation_lookup in K as [_ [conv Lc]].
    destruct (decide (c = k)) as [<-|Hne].
    + apply H. eauto.
    + rewrite lookup_insert_ne in L by exact Hne. apply H. exact L.
  - destruct (decide (uuid4 (uuid_count w) = k)) as [<-|Hne].
    + exists (uuid_count w). split; [lia|reflexivity].
    + rewrite lookup_insert_ne in L by exact Hne.
      destruct (H k L) as (i & Hi & ->). exists i. split; [lia|reflexivity].
Qed.

Lemma query_index_invariants q w :
  paired w /\ ids_minted w ->
  paired (snd (query_index q w)) /\ ids_minted (snd (query_index q w)).
Proof.
  intros [Hp Hi]. destruct (query_index q w) as [[resp|e] w'] eqn:E; simpl.
  - destruct (decide (mode q = py "chat")) as [Hm|Hm].
    + destruct (query_index_chat_recorded q w resp w' Hm E) as (ans & _ & _ & T).
      split; [exact (turn_recorded_paired _ _ _ _ T Hp)
             |exact (turn_recorded_minted _ _ _ _ T Hi)].
    + destruct (query_index_search_mode q w resp w' Hm E)
        as (service & w1 & hits & Eg & _ & _ & Hc & Hu & _).
      destruct (get_rag_service_conversations _ _ _ Eg) as [Hc1 Hu1].
      assert (K : conversations_kept w w') by (split; [congruence|lia]).
      split; [exact (paired_kept _ _ K Hp)|exact (ids_minted_kept _ _ K Hi)].
  - pose proof (query_index_raise_kept q w e w' E) as K.
    split; [exact (paired_kept _ _ K Hp)|exact (ids_minted_kept _ _ K Hi)].
Qed.

Lemma rename_conversation_invariants cid t w :
  paired w /\ ids_minted w ->
  paired (snd (rename_conversation cid t w))
  /\ ids_minted (snd (rename_conversation cid t w)).
Proof.
  intros [Hp Hi]. unfold rename_conversation, bind, gets, modify, ret, raise.
  destruct (conversation_store w !! cid) as [c|] eqn:L; simpl; [|split; assumption].
  split.
  - intros k c' L'. cbn [conversation_store with_conversation_store] in L'.
    destruct (decide (cid = k)) as [<-|Hne].
    + rewrite lookup_insert_eq in L'. inversion L'; subst c'. simpl.
      exact (Hp cid c L).
    + rewrite lookup_insert_ne in L' by exact Hne. exact (Hp k c' L').
  - intros k L'. cbn [conversation_store with_conversation_store uuid_count] in *.
    destruct (decide (cid = k)) as [<-|Hne].
    + apply Hi. eauto.
    + rewrite lookup_insert_ne in L' by exact Hne. apply Hi. exact L'.
Qed.

Lemma delete_conversation_invariants cid w :
  paired w /\ ids_minted w ->
  paired (snd (delete_conversation cid w))
  /\ ids_minted (snd (delete_conversation cid w)).
Proof.
  intros [Hp Hi]. unfold delete_conversation, bind, gets, modify, ret, raise.
  destruct (in_store cid (conversation_store w)); simpl; [|split; assumption].
  split.
  - intros k c L. cbn [conversation_store with_conversation_store] in L.
    apply lookup_delete_Some in L as [_ L]. exact (Hp k c L).
  - intros k [c L]. cbn [conversation_store with_conversation_store uuid_count] in *.
    apply lookup_delete_Some in L as [_ L]. apply Hi. eauto.
Qed.

Lemma kept_invariants {A} (m : M A) w :
  keeps conversations_kept m ->
  paired w /\ ids_minted w -> paired (snd (m w)) /\ ids_minted (snd (m w)).
Proof.
  intros K [Hp Hi]. destruct (m w) as [r w'] eqn:E. simpl.
  pose proof (K _ _ _ E) as F.
  split; [exact (paired_kept _ _ F Hp)|exact (ids_minted_kept _ _ F Hi)].
Qed.

Lemma serve_invariants r w :
  paired w /\ ids_minted w -> paired (serve r w) /\ ids_minted (serve r w).
Proof.
  destruct r; simpl.
  - apply kept_invariants, ingest_file_keeps_conversations.
  - apply kept_invariants, summarize_document_keeps_conversations.
  - apply query_index_invariants.
  - apply kept_invariants, delete_document_keeps_conversations.
  - apply rename_conversation_invariants.
  - apply delete_conversation_invariants.
Qed.

(** In every state the process can reach, all conversations hold whole
    turns and all their ids came from [uuid4]. *)
Lemma reachable_invariants w : reachable w -> paired w /\ ids_minted w.
Proof.
  induction 1 as [existing|r w _ IH].
  - split.
    + intros k c L. simpl in L. rewrite lookup_empty in L. discriminate L.
    + intros k [c L]. simpl in L. rewrite lookup_empty in L. discriminate L.
  - apply serve_invariants. exact IH.
Qed.

End ChatInvariants.

Section ChatMode.

Context `{Ext : Externals}.


End ChatMode.


(** ** Ingestion: chunks counted against chunks upserted *)

Section Ingestion.

Context `{Ext : Externals}.

(** One call of [ingest_text]: with an index, a non-blank text that does
    not fail adds exactly one record; without an index nothing is added. *)
Lemma ingest_text_upserts self text meta w r w' :
  ingest_text self text meta w = (Ok r, w') ->
  (has_index self = false -> index_upserts w' = index_upserts w)
  /\ (has_index self = true -> nonblank text ->
      exists record, index_upserts w' = index_upserts w ++ [record]).
Proof.
  unfold ingest_text. rewrite truthy_strip, negb_involutive.
  destruct (blank text) eqn:B.
  - intros E. inversion E; subst. split; [reflexivity|].
    intros _ N. unfold nonblank in N. congruence.
  - unfold bind, encode, lift_outcome, uuid4_str, upsert, raise, ret.
    destruct (model_encode text) as [msg|v]; [discriminate|].
    destruct (has_index self).
    + cbn [index_upserts with_uuid_count uuid_count].
      destruct (index_upsert _ _) as [msg|]; [discriminate|].
      intros E. inversion E; subst. split; [discriminate|].
      intros _ _. eexists. reflexivity.
    + intros E. inversion E; subst. split; [reflexivity|discriminate].
Qed.

Lemma ingest_chunks_step self filename c rest count w :
  ingest_chunks self filename (c :: rest) count w
  = match ingest_text self c
            (Some {| meta_filename := filename; meta_content := c |}) w with
    | (Ok _, w1) => ingest_chunks self filename rest (count + 1) w1
    | (Raise e, w1) => (Raise e, w1)
    end.
Proof. reflexivity. Qed.

(** The loop of [ingest_file] counts the chunks it went through; the
    index receives as many records only when there is an index. *)
Lemma ingest_chunks_count self filename chunks count w n w' :
  ingest_chunks self filename chunks count w = (Ok n, w') ->
  n = count + Z.of_nat (length chunks)
  /\ (has_index self = false -> index_upserts w' = index_upserts w)
  /\ (has_index self = true -> Forall nonblank chunks ->
      exists new, index_upserts w' = index_upserts w ++ new
                  /\ length new = length chunks).
Proof.
  revert count w. induction chunks as [|c rest IH]; intros count w E.
  - inversion E; subst. split; [simpl; lia|]. split; [reflexivity|].
    intros _ _. exists []. rewrite app_nil_r. split; reflexivity.
  - rewrite ingest_chunks_step in E.
    destruct (ingest_text self c _ w) as [[r|e] w1] eqn:Et; [|discriminate E].
    destruct (ingest_text_upserts _ _ _ _ _ _ Et) as [T0 T1].
    destruct (IH _ _ E) as (Hn & I0 & I1).
    split; [rewrite Hn; simpl length; lia|]. split.
    + intros H. rewrite (I0 H), (T0 H). reflexivity.
    + intros H F. inversion F as [|? ? Fc Fr]; subst.
      destruct (T1 H Fc) as (record & Hr).
      destruct (I1 H Fr) as (new & Hnew & Hlen).
      exists (record :: new). split.
      * rewrite Hnew, Hr, <- app_assoc. reflexivity.
      * simpl. rewrite Hlen. reflexivity.
Qed.

(** A successful [ingest_file] stores the number of chunks of the text.
    With an index that is the number of records upserted by the call;
    without one, nothing was upserted. *)
Lemma ingest_file_count filename size text w resp w' :
  ingest_file filename size text w = (Ok resp, w') ->
  exists service doc,
    fst (get_rag_service w) = Ok service
    /\ document_store w' !! filename = Some doc
    /\ doc_chunks doc = chunks_processed resp
    /\ doc_chunks doc
       = Z.of_nat (length (smart_chunk text default_chunk_size default_overlap))
    /\ (has_index service = true ->
        exists new, index_upserts w' = index_upserts w ++ new
                    /\ doc_chunks doc = Z.of_nat (length new))
    /\ (has_index service = false -> index_upserts w' = index_upserts w).
Proof.
  unfold ingest_file. unfold bind at 1.
  destruct (get_rag_service w) as [[service|e] w1] eqn:Eg; [|discriminate].
  pose proof (get_rag_service_index _ _ _ Eg) as Hidx.
  unfold try_except.
  destruct (negb (truthy (strip text))); [discriminate|].
  unfold bind at 1.
  destruct (ingest_chunks service filename
              (smart_chunk text default_chunk_size default_overlap) 0 w1)
    as [[n|e] w2] eqn:Ec; [|destruct e; discriminate].
  destruct (ingest_chunks_count _ _ _ _ _ _ _ Ec) as (Hn & I0 & I1).
  unfold bind, time_now, modify, ret. intros E. inversion E; subst. clear E.
  exists service, {| doc_filename := filename;
                     doc_chunks := 0 + Z.of_nat (length (smart_chunk text default_chunk_size default_overlap));
                     size_bytes := size;
                     uploaded_at := time_time (clock_reads w2);
                     preview := strip (take 300 text);
                     full_text := text |}.
  cbn [fst document_store with_document_store with_clock_reads doc_chunks
       chunks_processed index_upserts].
  split; [reflexivity|]. split; [apply lookup_insert_eq|].
  split; [reflexivity|]. split; [lia|]. split.
  - intros H.
    destruct (I1 H (smart_chunk_nonblank _ _ _)) as (new & Hnew & Hlen).
    exists new. rewrite Hnew, Hidx, Hlen. split; [reflexivity|lia].
  - intros H. rewrite (I0 H). exact Hidx.
Qed.

(** Without an index every successful ingest stores a positive chunk
    count although the index received nothing. *)
Lemma ingest_without_index_overcounts filename size text w resp w' service :
  rag_service w = Some service ->
  has_index service = false ->
  ingest_file filename size text w = (Ok resp, w') ->
  exists doc,
    document_store w' !! filename = Some doc
    /\ 1 <= doc_chunks doc
    /\ index_upserts w' = index_upserts w.
Proof.
  intros Hs Hidx E.
  assert (Hnb : nonblank text).
  { unfold ingest_file, bind, try_except, get_rag_service in E. rewrite Hs in E.
    rewrite truthy_strip, negb_involutive in E.
    unfold nonblank. destruct (blank text); [discriminate E|reflexivity]. }
  destruct (ingest_file_count _ _ _ _ _ _ E)
    as (service' & doc & Eg & Hd & _ & Hn & _ & H0).
  unfold get_rag_service in Eg. rewrite Hs in Eg. simpl in Eg.
  inversion Eg; subst service'.
  exists doc. split; [exact Hd|]. split; [|exact (H0 Hidx)].
  rewrite Hn.
  pose proof (smart_chunk_nonempty default_chunk_size default_overlap text Hnb).
  destruct (smart_chunk text default_chunk_size default_overlap);
    [contradiction|simpl; lia].
Qed.

End Ingestion.

(** C1.  The stored chunk count should be the number of chunks upserted by
    the ingest call.  Without a vector index [ingest_text] upserts nothing
    and returns [None], but [ingest_file] counts the chunk all the same:
    ingesting "notes.txt" holding "Hello world. This is a test." succeeds
    and stores a chunk count of 1 while the index received no record. *)
Theorem ingest_counts_chunks_not_upserted :
  let E := Demo.externals Demo.answering (inr Demo.no_index_service) in
  exists resp w' doc,
    @ingest_file E (py "notes.txt") 28 (py "Hello world. This is a test.")
      (@startup E [])
    = (Ok resp, w')
    /\ chunks_processed resp = 1
    /\ @document_store E w' !! py "notes.txt" = Some doc
    /\ doc_chunks doc = 1
    /\ @index_upserts E w' = []
    /\ @ingest_text E Demo.no_index_service (py "Hello world. This is a test.")
         (Some {| meta_filename := py "notes.txt";
                  meta_content := py "Hello world. This is a test." |})
         (@startup E [])
       = (Ok None, with_uuid_count S (@startup E [])).
Proof.
  intros E. eexists _, _, _.
  split; [vm_compute; reflexivity|].
  split; [vm_compute; reflexivity|].
  split; [vm_compute; reflexivity|].
  split; [vm_compute; reflexivity|].
  split; vm_compute; reflexivity.
Qed.

(** * Further properties of the chunker *)

Section ChunkShape.

Variables chunk_size overlap : Z.

Lemma chunk_step_trimmed st sent :
  Forall (fun c => strip c = c) (fst st) ->
  Forall (fun c => strip c = c) (fst (chunk_step chunk_size overlap st sent)).
Proof.
  destruct st as [chunks cur]. simpl. intros H. unfold chunk_step.
  destruct ((len cur + len sent + 1 >? chunk_size) && truthy cur); simpl.
  - apply Forall_app. split; [exact H|]. repeat constructor. apply strip_idem.
  - exact H.
Qed.

Lemma fold_chunk_trimmed sentences st :
  Forall (fun c => strip c = c) (fst st) ->
  Forall (fun c => strip c = c)
         (fst (fold_left (chunk_step chunk_size overlap) sentences st)).
Proof.
  revert st. induction sentences as [|s l IH]; intros st H; simpl; [exact H|].
  apply IH, chunk_step_trimmed, H.
Qed.

(** X1.  Every chunk returned by [smart_chunk] is its own trimming: it
    neither starts nor ends with whitespace. *)
Theorem smart_chunk_chunks_trimmed text c :
  In c (smart_chunk text chunk_size overlap) -> strip c = c.
Proof.
  intros Hc.
  assert (F : Forall (fun c => strip c = c) (smart_chunk text chunk_size overlap)).
  { unfold smart_chunk, chunk_loop.
    pose proof (fold_chunk_trimmed (sentences_of text) ([], [])
                  (List.Forall_nil _)) as H.
    destruct (fold_left _ _ _) as [chunks cur]. simpl in H.
    destruct (truthy (strip cur)); [|exact H].
    apply Forall_app. split; [exact H|]. repeat constructor. apply strip_idem. }
  rewrite List.Forall_forall in F. exact (F c Hc).
Qed.

Lemma chunk_step_count st sent :
  (length (fst (chunk_step chunk_size overlap st sent))
   + occupied (snd (chunk_step chunk_size overlap st sent))
   <= length (fst st) + occupied (snd st) + 1)%nat.
Proof.
  destruct st as [chunks cur]. unfold chunk_step. cbn [fst snd].
  destruct (len cur + len sent + 1 >? chunk_size); cbn [andb].
  - destruct cur as [|c cur]; cbn [truthy fst snd].
    + unfold occupied. simpl. lia.
    + rewrite length_app. unfold occupied.
      destruct (truthy _); simpl; lia.
  - cbn [fst snd]. unfold occupied. destruct (truthy _), (truthy _); lia.
Qed.

Lemma fold_chunk_count sentences st :
  (length (fst (fold_left (chunk_step chunk_size overlap) sentences st))
   + occupied (snd (fold_left (chunk_step chunk_size overlap) sentences st))
   <= length (fst st) + occupied (snd st) + length sentences)%nat.
Proof.
  revert st. induction sentences as [|s l IH]; intros st; simpl; [lia|].
  pose proof (IH (chunk_step chunk_size overlap st s)).
  pose proof (chunk_step_count st s). lia.
Qed.

(** X2.  [smart_chunk] never returns more chunks than the text has
    sentences. *)
Theorem smart_chunk_at_most_one_chunk_per_sentence text :
  (length (smart_chunk text chunk_size overlap) <= length (sentences_of text))%nat.
Proof.
  unfold smart_chunk, chunk_loop.
  pose proof (fold_chunk_count (sentences_of text) ([], [])) as H.
  destruct (fold_left _ _ _) as [chunks cur]. cbn [fst snd] in H.
  unfold occupied in H. simpl in H.
  destruct (truthy (strip cur)) eqn:E.
  - rewrite length_app. simpl.
    destruct cur as [|c cur]; [discriminate E|]. simpl in H. lia.
  - destruct (truthy cur); lia.
Qed.

End ChunkShape.

Section WholeSentencesKept.

Variables chunk_size overlap : Z.

Lemma occurs_in_refl {A} (s : list A) : occurs_in s s.
Proof. exists [], []. rewrite app_nil_r. reflexivity. Qed.

Lemma occurs_in_app_r {A} (s t u : list A) : occurs_in s t -> occurs_in s (t ++ u).
Proof.
  intros (a & b & ->). exists a, (b ++ u). rewrite <- !app_assoc. reflexivity.
Qed.

Lemma occurs_in_app_l {A} (s t u : list A) : occurs_in s t -> occurs_in s (u ++ t).
Proof.
  intros (a & b & ->). exists (u ++ a), b. rewrite <- !app_assoc. reflexivity.
Qed.

Lemma occurs_in_rev {A} (s t : list A) : occurs_in s t -> occurs_in (rev s) (rev t).
Proof.
  intros (a & b & ->). exists (rev b), (rev a).
  rewrite !rev_app_distr, <- app_assoc. reflexivity.
Qed.

Lemma lstrip_fixed_head c s : lstrip (c :: s) = c :: s -> isspace c = false.
Proof.
  simpl. destruct (isspace c); [|reflexivity].
  intros H. pose proof (length_lstrip s) as L. rewrite H in L. simpl in L. lia.
Qed.

Lemma occurs_in_lstrip s t :
  s <> [] -> lstrip s = s -> occurs_in s t -> occurs_in s (lstrip t).
Proof.
  intros Hne Hfix (a & b & ->).
  destruct s as [|c s]; [contradiction|].
  pose proof (lstrip_fixed_head c s Hfix) as Hc.
  induction a as [|d a IH]; simpl.
  - rewrite Hc. exists [], b. reflexivity.
  - destruct (isspace d); [exact IH|].
    exists (d :: a), b. reflexivity.
Qed.

Lemma stripped_lstrip s : strip s = s -> lstrip s = s.
Proof.
  intros H. rewrite <- H at 1. unfold strip.
  rewrite (lstrip_rstrip_fixed (lstrip s) (lstrip_idem s)). exact H.
Qed.

Lemma stripped_lstrip_rev s : strip s = s -> lstrip (rev s) = rev s.
Proof.
  intros H. rewrite <- H. unfold strip, rstrip.
  rewrite rev_involutive. apply lstrip_idem.
Qed.

Lemma occurs_in_strip s t :
  s <> [] -> strip s = s -> occurs_in s t -> occurs_in s (strip t).
Proof.
  intros Hne Hfix H. unfold strip, rstrip.
  rewrite <- (rev_involutive s). apply occurs_in_rev.
  apply occurs_in_lstrip.
  - intros K. apply (f_equal (@rev char)) in K.
    rewrite rev_involutive in K. contradiction.
  - apply stripped_lstrip_rev, Hfix.
  - apply occurs_in_rev, occurs_in_lstrip;
      [exact Hne|apply stripped_lstrip, Hfix|exact H].
Qed.

Lemma chunk_step_held seen st sent :
  Forall solid seen ->
  all_held seen st ->
  all_held (seen ++ [sent]) (chunk_step chunk_size overlap st sent).
Proof.
  destruct st as [chunks cur]. intros Hsolid H s Hs.
  apply in_app_or in Hs. unfold chunk_step.
  destruct ((len cur + len sent + 1 >? chunk_size) && truthy cur); cbn [fst snd].
  - destruct Hs as [Hs|[<-|[]]].
    + left. rewrite List.Forall_forall in Hsolid.
      destruct (Hsolid s Hs) as (Hne & Hfix & _).
      destruct (H s Hs) as [(c & Hc & Ho)|Ho]; cbn [fst snd] in *.
      * exists c. split; [apply in_or_app; left; exact Hc|exact Ho].
      * exists (strip cur). split; [apply in_or_app; right; left; reflexivity|].
        apply occurs_in_strip; assumption.
    + right. apply occurs_in_app_l, occurs_in_app_l, occurs_in_refl.
  - destruct Hs as [Hs|[<-|[]]].
    + destruct (H s Hs) as [(c & Hc & Ho)|Ho]; cbn [fst snd] in *.
      * left. exists c. split; assumption.
      * right. apply occurs_in_app_r. exact Ho.
    + right. apply occurs_in_app_l, occurs_in_app_l, occurs_in_refl.
Qed.

Lemma fold_chunk_held sentences seen st :
  Forall solid seen -> Forall solid sentences ->
  all_held seen st ->
  all_held (seen ++ sentences)
           (fold_left (chunk_step chunk_size overlap) sentences st).
Proof.
  revert seen st. induction sentences as [|x l IH]; intros seen st Hseen Hl H.
  - rewrite app_nil_r. exact H.
  - inversion Hl as [|? ? Hx Hl']; subst. simpl.
    replace (seen ++ x :: l) with ((seen ++ [x]) ++ l)
      by (rewrite <- app_assoc; reflexivity).
    apply IH.
    + apply Forall_app. split; [exact Hseen|].
      constructor; [exact Hx|constructor].
    + exact Hl'.
    + apply chunk_step_held; assumption.
Qed.

Lemma sentences_solid text : Forall solid (sentences_of text).
Proof.
  pose proof (sentences_stripped text) as F.
  pose proof (sentences_nonblank text) as N.
  rewrite List.Forall_forall in *. intros s Hs.
  split; [|split; [exact (F s Hs)|exact (N s Hs)]].
  intros ->. specialize (N [] Hs). discriminate N.
Qed.

Lemma occurs_in_nonblank s t : nonblank s -> occurs_in s t -> nonblank t.
Proof.
  unfold nonblank. intros H (a & b & ->).
  rewrite !blank_app, H, andb_false_r. reflexivity.
Qed.

(** X3.  No sentence is dropped or cut: every sentence of the text lies
    whole, as one contiguous piece, inside one of the returned chunks. *)
Theorem smart_chunk_keeps_every_sentence text s :
  In s (sentences_of text) ->
  exists c, In c (smart_chunk text chunk_size overlap) /\ occurs_in s c.
Proof.
  intros Hs.
  pose proof (sentences_solid text) as Hsolid.
  pose proof (fold_chunk_held (sentences_of text) [] ([], [])
                (List.Forall_nil _) Hsolid) as H.
  unfold smart_chunk, chunk_loop.
  destruct (fold_left _ _ _) as [chunks cur].
  destruct (H (fun _ (F : In _ []) => match F with end) s Hs)
    as [(c & Hc & Ho)|Ho]; cbn [fst snd] in *.
  - exists c. split; [|exact Ho].
    destruct (truthy (strip cur)); [apply in_or_app; left|]; exact Hc.
  - rewrite List.Forall_forall in Hsolid.
    destruct (Hsolid s Hs) as (Hne & Hfix & Hnb).
    pose proof (occurs_in_nonblank _ _ Hnb Ho) as Hcur.
    rewrite truthy_strip. unfold nonblank in Hcur. rewrite Hcur. simpl.
    exists (strip cur). split; [apply in_or_app; right; left; reflexivity|].
    apply occurs_in_strip; assumption.
Qed.

(** X4.  A text with at least one non-whitespace character yields at
    least one chunk, whatever the chunk size and the overlap. *)
Theorem smart_chunk_some_chunk text :
  blank text = false -> smart_chunk text chunk_size overlap <> [].
Proof. apply smart_chunk_nonempty. Qed.

(** X5.  A text that is a single sentence comes back as that one
    sentence, also when it is longer than the chunk size. *)
Theorem smart_chunk_lone_sentence text s :
  sentences_of text = [s] -> smart_chunk text chunk_size overlap = [s].
Proof. apply smart_chunk_single_sentence. Qed.

End WholeSentencesKept.

(** * The sentence splitter *)

Section SentenceShape.

Lemma is_prefix_app p b : is_prefix p (p ++ b) = true.
Proof.
  induction p as [|c p IH]; [reflexivity|].
  simpl. rewrite N.eqb_refl. exact IH.
Qed.

Lemma is_prefix_true p t : is_prefix p t = true -> exists b, t = p ++ b.
Proof.
  revert t. induction p as [|c p IH]; intros t H.
  - exists t. reflexivity.
  - destruct t as [|d t]; [discriminate H|].
    simpl in H. apply andb_true_iff in H as [Hc Hp].
    apply N.eqb_eq in Hc. subst d.
    destruct (IH t Hp) as (b & ->). exists b. reflexivity.
Qed.

(** The membership test [sub in s] holds exactly when [sub] occurs in [s]. *)
Lemma contains_occurs p t : contains p t = true <-> occurs_in p t.
Proof.
  split.
  - induction t as [|d t IH]; simpl.
    + rewrite orb_false_r. intros H.
      destruct (is_prefix_true _ _ H) as (b & Hb). exists [], b. exact Hb.
    + intros H. apply orb_true_iff in H as [H|H].
      * destruct (is_prefix_true _ _ H) as (b & Hb). exists [], b. exact Hb.
      * destruct (IH H) as (a & b & ->). exists (d :: a), b. reflexivity.
  - intros (a & b & ->). induction a as [|d a IH].
    + simpl app. destruct (p ++ b) eqn:E; simpl.
      * rewrite <- E, is_prefix_app. reflexivity.
      * rewrite <- E, is_prefix_app. reflexivity.
    + simpl. rewrite IH. apply orb_true_r.
Qed.

Lemma occurs_in_trans {A} (s t u : list A) :
  occurs_in s t -> occurs_in t u -> occurs_in s u.
Proof.
  intros (a & b & ->) (a' & b' & ->).
  exists (a' ++ a), (b ++ b'). rewrite <- !app_assoc. reflexivity.
Qed.

Lemma contains_false_within p s t :
  occurs_in s t -> contains p t = false -> contains p s = false.
Proof.
  intros Hst Ht. destruct (contains p s) eqn:E; [|reflexivity].
  apply contains_occurs in E.
  pose proof (proj2 (contains_occurs p t) (occurs_in_trans _ _ _ E Hst)).
  congruence.
Qed.

Lemma lstrip_occurs s : occurs_in (lstrip s) s.
Proof.
  induction s as [|c s IH]; simpl.
  - apply occurs_in_refl.
  - destruct (isspace c).
    + destruct IH as (a & b & E). exists (c :: a), b. simpl. rewrite <- E. reflexivity.
    + apply occurs_in_refl.
Qed.

Lemma strip_occurs s : occurs_in (strip s) s.
Proof.
  unfold strip, rstrip.
  apply (occurs_in_trans _ (lstrip s)); [|apply lstrip_occurs].
  rewrite <- (rev_involutive (lstrip s)) at 2.
  apply occurs_in_rev, lstrip_occurs.
Qed.

Lemma join_cons sep (w : pystr) x l :
  join sep (w :: x :: l) = w ++ sep ++ join sep (x :: l).
Proof. reflexivity. Qed.

(** Splitting on a character and joining with it gives the string back. *)
Lemma join_split_on sep s : join [sep] (split_on sep s) = s.
Proof.
  induction s as [|c s IH]; [reflexivity|].
  simpl split_on. destruct (c =? sep)%N eqn:E.
  - apply N.eqb_eq in E. subst c.
    destruct (split_on sep s) as [|w ws] eqn:S.
    + simpl in IH. subst s. discriminate S.
    + rewrite join_cons, IH. reflexivity.
  - destruct (split_on sep s) as [|w ws] eqn:S.
    + simpl in IH. subst s. discriminate S.
    + destruct ws as [|x ws].
      * simpl in *. rewrite IH. reflexivity.
      * rewrite join_cons. rewrite join_cons in IH.
        rewrite <- IH. reflexivity.
Qed.

Lemma occurs_in_join sep (l : list pystr) w :
  In w l -> occurs_in w (join sep l).
Proof.
  induction l as [|x l IH]; [intros []|].
  intros [->|H].
  - destruct l as [|y l]; [apply occurs_in_refl|].
    rewrite join_cons. exists [], (sep ++ join sep (y :: l)). reflexivity.
  - destruct l as [|y l]; [destruct H|].
    rewrite join_cons. apply occurs_in_app_l, occurs_in_app_l, IH, H.
Qed.

Lemma split_on_piece_occurs sep s w : In w (split_on sep s) -> occurs_in w s.
Proof.
  intros H. rewrite <- (join_split_on sep s).
  apply occurs_in_join, H.
Qed.

Lemma replace2_head a b b' c s :
  exists r, replace2 a b a b' (c :: s) = c :: r.
Proof.
  destruct s as [|d u]; [exists []; reflexivity|].
  simpl. destruct ((c =? a) && (d =? b))%N eqn:E.
  - apply andb_true_iff in E as [Ec _]. apply N.eqb_eq in Ec. subst c. eauto.
  - eauto.
Qed.

Lemma contains_pair_cons a b c d u :
  contains [a; b] (c :: d :: u)
  = ((a =? c) && (b =? d))%N || contains [a; b] (d :: u).
Proof. simpl. rewrite andb_true_r. reflexivity. Qed.

(** After the replacement no period-space is left. *)
Lemma replace_dot_free s :
  contains [DOT; SP] (replace2 DOT SP DOT NL s) = false.
Proof.
  pattern s. apply (replace2_both _ DOT SP); clear s.
  - reflexivity.
  - intros c. simpl. rewrite !andb_false_r. reflexivity.
  - intros c d u E IH. simpl replace2. rewrite E.
    destruct (replace2 DOT SP DOT NL u) as [|x r] eqn:R.
    + reflexivity.
    + rewrite contains_pair_cons. simpl andb. rewrite contains_pair_cons.
      simpl andb. exact IH.
  - intros c d u E IH.
    change (replace2 DOT SP DOT NL (c :: d :: u))
      with (if ((c =? DOT) && (d =? SP))%N
            then DOT :: NL :: replace2 DOT SP DOT NL u
            else c :: replace2 DOT SP DOT NL (d :: u)).
    rewrite E.
    destruct (replace2_head DOT SP NL d u) as (r & Hr).
    assert (Hr' : replace2 DOT SP DOT NL (d :: u) = d :: r) by exact Hr.
    rewrite Hr' in IH |- *.
    rewrite contains_pair_cons. apply orb_false_iff. split; [|exact IH].
    rewrite (N.eqb_sym DOT c), (N.eqb_sym SP d). exact E.
Qed.

Lemma para_sentences_shape q s :
  In s (para_sentences q) ->
  contains [DOT; SP] s = false /\ ~ In NL s.
Proof.
  unfold para_sentences. intros H.
  apply list_elem_of_In, list_elem_of_filter in H as [_ H].
  apply list_elem_of_In, in_map_iff in H as (w & <- & Hw).
  split.
  - apply (contains_false_within _ _ (replace2 DOT SP DOT NL q)).
    + apply (occurs_in_trans _ w); [apply strip_occurs|].
      exact (split_on_piece_occurs _ _ _ Hw).
    + apply replace_dot_free.
  - pose proof (split_on_pieces_free NL (replace2 DOT SP DOT NL q)) as F.
    rewrite List.Forall_forall in F. specialize (F w Hw).
    apply (Forall_strip _ _) in F. rewrite List.Forall_forall in F.
    intros K. exact (F NL K eq_refl).
Qed.

(** X6.  Every sentence the chunker works on is non-empty and trimmed,
    holds no line break, and holds no period followed by a space. *)
Theorem sentences_of_shape text s :
  In s (sentences_of text) ->
  s <> [] /\ strip s = s /\ ~ In NL s /\ contains (py ". ") s = false.
Proof.
  intros Hs.
  pose proof (sentences_solid text) as F. rewrite List.Forall_forall in F.
  destruct (F s Hs) as (Hne & Hfix & _).
  split; [exact Hne|]. split; [exact Hfix|].
  unfold sentences_of in Hs. apply in_concat in Hs as (l & Hl & Hsl).
  apply in_map_iff in Hl as (p & <- & _).
  destruct (truthy (strip p)); [|destruct Hsl].
  destruct (para_sentences_shape _ _ Hsl) as [A B]. split; assumption.
Qed.

End SentenceShape.

(** * Further properties of the generation gateway *)

Section RateLimitShape.

Lemma lower_char_idem c : lower_char (lower_char c) = lower_char c.
Proof.
  unfold lower_char.
  destruct ((65 <=? c) && (c <=? 90))%N eqn:E; [|rewrite E; reflexivity].
  apply andb_true_iff in E as [E1 E2].
  apply N.leb_le in E1, E2.
  destruct ((65 <=? c + 32) && (c + 32 <=? 90))%N eqn:E'; [|reflexivity].
  apply andb_true_iff in E' as [_ E4]. apply N.leb_le in E4. lia.
Qed.

Lemma lower_idem s : lower (lower s) = lower s.
Proof.
  unfold lower. rewrite map_map. apply map_ext. intros c. apply lower_char_idem.
Qed.

(** A character below 'A' is met in lowered text exactly where it stands
    in the text itself. *)
Lemma eqb_lower_char x c : (x < 65)%N -> (x =? lower_char c)%N = (x =? c)%N.
Proof.
  intros Hx. unfold lower_char.
  destruct ((65 <=? c) && (c <=? 90))%N eqn:E; [|reflexivity].
  apply andb_true_iff in E as [E1 E2]. apply N.leb_le in E1, E2.
  destruct (N.eqb_spec x (c + 32)), (N.eqb_spec x c); try reflexivity; lia.
Qed.

Lemma is_prefix_lower p s :
  Forall (fun x => (x < 65)%N) p -> is_prefix p (lower s) = is_prefix p s.
Proof.
  intros Hp. revert s. induction Hp as [|x p Hx Hp IH]; intros s.
  - reflexivity.
  - destruct s as [|c s]; [reflexivity|].
    simpl. rewrite (eqb_lower_char x c Hx). f_equal. apply IH.
Qed.

Lemma contains_lower p s :
  Forall (fun x => (x < 65)%N) p -> contains p (lower s) = contains p s.
Proof.
  intros Hp. induction s as [|c s IH].
  - reflexivity.
  - change (lower (c :: s)) with (lower_char c :: lower s).
    change (contains p (lower_char c :: lower s))
      with (is_prefix p (lower (c :: s)) || contains p (lower s)).
    rewrite (is_prefix_lower p (c :: s) Hp), IH. reflexivity.
Qed.

Lemma rate_limit_shaped_lower s : rate_limit_shaped (lower s) = rate_limit_shaped s.
Proof.
  unfold rate_limit_shaped. rewrite lower_idem. f_equal. f_equal.
  apply contains_lower. repeat constructor.
Qed.

(** X7.  The classification of a failure ignores letter case: two
    messages that are equal once lowered are classified alike. *)
Theorem rate_limit_shaped_ignores_case s t :
  lower s = lower t -> rate_limit_shaped s = rate_limit_shaped t.
Proof.
  intros H.
  rewrite <- (rate_limit_shaped_lower s), <- (rate_limit_shaped_lower t), H.
  reflexivity.
Qed.

End RateLimitShape.

Section GeminiBounds.

Context `{Ext : Externals}.

Lemma gemini_attempts_traffic m p n w r w' :
  gemini_attempts m p n w = (r, w') ->
  exists new,
    genai_calls w' = genai_calls w ++ new
    /\ (length new <= n)%nat
    /\ Forall (fun c => c = (m, p)) new
    /\ slept w <= slept w' <= slept w + 2 * Z.of_nat (length new)
    /\ match r with
       | Ok (Some text) =>
           exists older, genai_calls w' = older ++ [(m, p)]
                         /\ genai_generate older m p = inr text
       | _ => True
       end.
Proof.
  revert w. induction n as [|n IH]; intros w E.
  - inversion E; subst. exists []. rewrite app_nil_r.
    repeat split; simpl; try lia. constructor.
  - rewrite gemini_attempts_step in E. cbv zeta in E.
    destruct (genai_generate (genai_calls w) m p) as [msg|text] eqn:G.
    + destruct (rate_limit_shaped msg).
      * destruct (IH _ E) as (new & C & L & F & S & R).
        cbn [genai_calls slept with_slept with_genai_calls] in C, S.
        exists ((m, p) :: new). split; [rewrite C, <- app_assoc; reflexivity|].
        split; [simpl; lia|]. split; [constructor; [reflexivity|exact F]|].
        split; [simpl length; lia|exact R].
      * inversion E; subst. exists [(m, p)].
        cbn [genai_calls slept with_genai_calls].
        repeat split; simpl; try lia. repeat constructor.
    + inversion E; subst. exists [(m, p)].
      cbn [genai_calls slept with_genai_calls].
      repeat split; simpl; try lia; [repeat constructor|].
      exists (genai_calls w). split; [reflexivity|exact G].
Qed.

Lemma gemini_chain_traffic chain p w r w' :
  gemini_chain chain p w = (r, w') ->
  exists new,
    genai_calls w' = genai_calls w ++ new
    /\ (length new <= 2 * length chain)%nat
    /\ Forall (fun c => In (fst c) chain /\ snd c = p) new
    /\ slept w <= slept w' <= slept w + 2 * Z.of_nat (length new)
    /\ match r with
       | Ok (Some text) =>
           exists m older, genai_calls w' = older ++ [(m, p)]
                           /\ genai_generate older m p = inr text
       | _ => True
       end.
Proof.
  revert w. induction chain as [|m rest IH]; intros w E.
  - inversion E; subst. exists []. rewrite app_nil_r.
    repeat split; simpl; try lia. constructor.
  - rewrite gemini_chain_step in E.
    destruct (gemini_attempts m p 2 w) as [[[text|]|e] w1] eqn:A.
    + inversion E; subst.
      destruct (gemini_attempts_traffic _ _ _ _ _ _ A) as (new & C & L & F & S & R).
      exists new. split; [exact C|]. split; [simpl; lia|]. split.
      * eapply Forall_impl; [exact F|]. intros c ->. split; [left|]; reflexivity.
      * split; [exact S|]. destruct R as (older & R1 & R2). eauto.
    + destruct (gemini_attempts_traffic _ _ _ _ _ _ A) as (new & C & L & F & S & _).
      destruct (IH _ E) as (new' & C' & L' & F' & S' & R').
      exists (new ++ new'). split; [rewrite C', C, <- app_assoc; reflexivity|].
      split; [rewrite length_app; simpl; lia|]. split.
      * apply Forall_app. split.
        -- eapply Forall_impl; [exact F|]. intros c ->. split; [left|]; reflexivity.
        -- eapply Forall_impl; [exact F'|]. intros c [H1 H2].
           split; [right; exact H1|exact H2].
      * split; [rewrite length_app; lia|exact R'].
    + inversion E; subst.
      destruct (gemini_attempts_traffic _ _ _ _ _ _ A) as (new & C & L & F & S & _).
      exists new. split; [exact C|]. split; [simpl; lia|]. split.
      * eapply Forall_impl; [exact F|]. intros c ->. split; [left|]; reflexivity.
      * split; [exact S|exact I].
Qed.

Lemma call_gemini_traffic self p w r w' :
  _call_gemini self p w = (r, w') ->
  exists new,
    genai_calls w' = genai_calls w ++ new
    /\ (length new <= 10)%nat
    /\ Forall (fun c => In (fst c) GEMINI_MODEL_CHAIN /\ snd c = p) new
    /\ slept w <= slept w' <= slept w + 2 * Z.of_nat (length new).
Proof.
  unfold _call_gemini. destruct (has_gemini self); cbn [negb].
  - unfold bind. destruct (gemini_chain GEMINI_MODEL_CHAIN p w) as [r0 w0] eqn:G.
    destruct (gemini_chain_traffic _ _ _ _ _ G) as (new & C & L & F & S & _).
    intros E. assert (w' = w0) as ->.
    { destruct r0 as [[t|]|e]; inversion E; reflexivity. }
    exists new. repeat split; try assumption; lia.
  - intros E. inversion E; subst. exists []. rewrite app_nil_r.
    repeat split; simpl; try lia. constructor.
Qed.

(** X8.  Whatever the models answer, one call of [_call_gemini] makes at
    most ten calls to them, each with the given prompt and a model of the
    chain, and sleeps at most two seconds per call made. *)
Theorem call_gemini_bounded_retries self prompt w :
  exists new,
    genai_calls (snd (_call_gemini self prompt w)) = genai_calls w ++ new
    /\ (length new <= 10)%nat
    /\ (forall c, In c new -> In (fst c) GEMINI_MODEL_CHAIN /\ snd c = prompt)
    /\ slept w <= slept (snd (_call_gemini self prompt w))
       <= slept w + 2 * Z.of_nat (length new).
Proof.
  destruct (_call_gemini self prompt w) as [r w'] eqn:E.
  destruct (call_gemini_traffic _ _ _ _ _ E) as (new & C & L & F & S).
  exists new. cbn [snd]. split; [exact C|]. split; [exact L|].
  split; [|exact S]. rewrite List.Forall_forall in F. exact F.
Qed.

(** X9.  [_call_gemini] stops at the first answer: the text it returns is
    the exhausted-chain message or the answer to the last call it made.
    In particular, when the first model answers at once, that answer is
    returned after a single call and without sleeping. *)
Theorem call_gemini_returns_last_answer self prompt w text w' :
  has_gemini self = true ->
  _call_gemini self prompt w = (Ok text, w') ->
  (text = exhausted_message
   \/ exists m older, genai_calls w' = older ++ [(m, prompt)]
                      /\ genai_generate older m prompt = inr text)
  /\ (forall first, genai_generate (genai_calls w) (py "gemini-2.0-flash") prompt
                    = inr first ->
      text = first
      /\ genai_calls w' = genai_calls w ++ [(py "gemini-2.0-flash", prompt)]
      /\ slept w' = slept w).
Proof.
  intros Hkey. unfold _call_gemini. rewrite Hkey. cbn [negb]. unfold bind.
  destruct (gemini_chain GEMINI_MODEL_CHAIN prompt w) as [r0 w0] eqn:G.
  intros E. split.
  - destruct (gemini_chain_traffic _ _ _ _ _ G) as (new & _ & _ & _ & _ & R).
    destruct r0 as [[t|]|e]; inversion E; subst; [right; exact R|left; reflexivity].
  - intros first Hfirst.
    unfold GEMINI_MODEL_CHAIN in G.
    rewrite gemini_chain_step, gemini_attempts_step in G. cbv zeta in G.
    rewrite Hfirst in G. inversion G; subst.
    inversion E; subst. repeat split.
Qed.

End GeminiBounds.

(** * Further properties of the service methods and helpers *)

Section ServiceMethods.

Context `{Ext : Externals}.

(** X10.  [ingest_text] does nothing at all on a blank text.  It returns
    an id only when there is an index, the text is not blank, and one
    record carrying that id, the embedding of the text and the given
    metadata was appended to the index; the id is the uuid just minted. *)
Theorem ingest_text_outcomes self text meta w :
  (blank text = true -> ingest_text self text meta w = (Ok None, w))
  /\ (forall id w', ingest_text self text meta w = (Ok (Some id), w') ->
        has_index self = true
        /\ blank text = false
        /\ id = uuid4 (uuid_count w)
        /\ uuid_count w' = S (uuid_count w)
        /\ exists v, model_encode text = inr v
             /\ index_upserts w'
                = index_upserts w
                  ++ [ {| rec_id := id; rec_vector := v; rec_meta := meta |} ])
  /\ (forall r w', ingest_text self text meta w = (r, w') ->
        has_index self = false -> index_upserts w' = index_upserts w
                                  /\ r <> Ok (Some (uuid4 (uuid_count w)))).
Proof.
  unfold ingest_text. rewrite truthy_strip, negb_involutive.
  split; [intros ->; reflexivity|].
  destruct (blank text).
  { split; [intros id w' E; inversion E|].
    intros r w' E _. inversion E; subst. split; [reflexivity|discriminate]. }
  unfold bind, encode, lift_outcome, uuid4_str, upsert, raise, ret.
  destruct (model_encode text) as [msg|v].
  { split; [intros id w' E; inversion E|].
    intros r w' E _. inversion E; subst. split; [reflexivity|discriminate]. }
  destruct (has_index self).
  - cbn [index_upserts with_uuid_count uuid_count].
    destruct (index_upsert _ _) as [msg|].
    + split; [intros id w' E; inversion E|]. intros r w' _ K. discriminate K.
    + split; [|intros r w' _ K; discriminate K].
      intros id w' E. inversion E; subst.
      repeat split. exists v. split; reflexivity.
  - split; [intros id w' E; inversion E|].
    intros r w' E _. inversion E; subst. split; [reflexivity|discriminate].
Qed.

(** X11.  [search] never changes the state.  Without an index it returns
    the empty list without asking the embedding model; with one, a failure
    of the embedding model or of the index is raised as it is. *)
Theorem search_read_only self q k w :
  (forall r w', search self q k w = (r, w') -> w' = w)
  /\ (has_index self = false -> search self q k w = (Ok [], w))
  /\ (has_index self = true ->
      search self q k w
      = match model_encode q with
        | inl msg => (Raise (Exception msg), w)
        | inr v => match index_query (index_upserts w) v k with
                   | inl msg => (Raise (Exception msg), w)
                   | inr hits => (Ok hits, w)
                   end
        end).
Proof.
  split; [intros r w'; apply search_pure|].
  unfold search, bind, encode, query, lift_outcome, raise, ret.
  split; intros ->; cbn [negb]; [reflexivity|].
  destruct (model_encode q) as [msg|v]; [reflexivity|].
  destruct (index_query (index_upserts w) v k); reflexivity.
Qed.

(** X12.  The title made from a query has at most 61 characters: it is
    the trimmed query when that has at most 60 characters, and otherwise
    its first 60 characters followed by an ellipsis. *)
Theorem generate_title_bounds q :
  len (generate_title_from_query q) <= 61
  /\ (len (strip q) <= 60 -> generate_title_from_query q = strip q)
  /\ (60 < len (strip q) ->
      generate_title_from_query q = take 60 (strip q) ++ [8230%N]
      /\ len (generate_title_from_query q) = 61).
Proof.
  unfold generate_title_from_query, len.
  destruct (Z.gtb_spec (Z.of_nat (length (strip q))) 60) as [H|H].
  - rewrite length_app, length_take. change (length [8230%N]) with 1%nat.
    split; [lia|]. split; [lia|]. intros _. split; [reflexivity|lia].
  - rewrite length_take. split; [lia|]. split; [|lia].
    intros _. apply take_ge. lia.
Qed.

(** X13.  [get_rag_service] builds the service at most once: a service
    that is there is returned without any change of state, and a call that
    returned a service makes the next call return the same one.  A failed
    construction raises 503 and leaves the service unset, so the next call
    tries again. *)
Theorem get_rag_service_lazy w :
  (forall s, rag_service w = Some s -> get_rag_service w = (Ok s, w))
  /\ (forall s w1, get_rag_service w = (Ok s, w1) ->
        rag_service w1 = Some s /\ get_rag_service w1 = (Ok s, w1))
  /\ (forall e w1, get_rag_service w = (Raise e, w1) ->
        rag_service w = None
        /\ rag_service w1 = None
        /\ boot_count w1 = S (boot_count w)
        /\ exists msg, service_boot (boot_count w) = inl msg
             /\ e = HTTPException 503 (py "RAG Service unavailable: " ++ msg)).
Proof.
  unfold get_rag_service. split; [intros s ->; reflexivity|].
  destruct (rag_service w) as [s0|] eqn:R.
  - split.
    + intros s w1 E. inversion E; subst. rewrite R. split; reflexivity.
    + intros e w1 E. inversion E.
  - destruct (service_boot (boot_count w)) as [msg|s0] eqn:B.
    + split; [intros s w1 E; inversion E|].
      intros e w1 E. inversion E; subst. cbn [rag_service boot_count with_boot_count].
      repeat split; [exact R|]. exists msg. split; reflexivity.
    + split; [|intros e w1 E; inversion E].
      intros s w1 E. inversion E; subst. split; reflexivity.
Qed.

End ServiceMethods.

(** * Logs are append-only *)

Section LogsGrow.

Context `{Ext : Externals}.

#[global] Instance logs_grow_preorder : PreOrder logs_grow.
Proof.
  split.
  - intros w. unfold logs_grow. repeat split; try reflexivity; lia.
  - intros w1 w2 w3 (A1 & A2 & A3 & A4 & A5 & A6 & A7)
                   (B1 & B2 & B3 & B4 & B5 & B6 & B7).
    unfold logs_grow. repeat split; try (etransitivity; eassumption); lia.
Qed.

End LogsGrow.

Ltac grow_fields :=
  unfold logs_grow; simpl;
  repeat split; try reflexivity; try lia;
  try (apply prefix_app_r; reflexivity).

Ltac grow_step :=
  cbv beta;
  match goal with
  | |- keeps _ (bind _ _) => frame_apply keeps_bind; [|intros ?]
  | |- keeps _ (ret _) => frame_apply keeps_ret
  | |- keeps _ (raise _) => frame_apply keeps_raise
  | |- keeps _ (gets _) => frame_apply keeps_gets
  | |- keeps _ (lift_outcome _) => frame_apply keeps_lift_outcome
  | |- keeps _ (try_except _ _) => frame_apply keeps_try_except; [|intros ?]
  | |- keeps _ (modify _) => frame_apply keeps_modify; intros ?; grow_fields
  | |- keeps _ (if ?b then _ else _) => destruct b
  | |- keeps _ (match ?x with _ => _ end) => destruct x
  | |- keeps _ _ => solve [auto with grows]
  end.

Ltac grow := repeat grow_step.

Ltac grow_direct :=
  let w := fresh "w" in let r := fresh "r" in
  let w' := fresh "w'" in let E := fresh "E" in
  intros w r w' E;
  repeat match type of E with
         | context [match ?x with _ => _ end] => destruct x
         end;
  inversion E; subst; grow_fields.

Create HintDb grows.

Section LogsGrowHandlers.

Context `{Ext : Externals}.

Lemma uuid4_grows : keeps logs_grow uuid4_str.
Proof. unfold uuid4_str. grow_direct. Qed.

Lemma time_now_grows : keeps logs_grow time_now.
Proof. unfold time_now. grow_direct. Qed.

Lemma upsert_grows r : keeps logs_grow (upsert r).
Proof. unfold upsert. grow_direct. Qed.

Lemma get_rag_service_grows : keeps logs_grow get_rag_service.
Proof. unfold get_rag_service. grow_direct. Qed.

Lemma append_message_grows cid msg : keeps logs_grow (append_message cid msg).
Proof. unfold append_message. grow_direct. Qed.

Lemma set_updated_at_grows cid t : keeps logs_grow (set_updated_at cid t).
Proof. unfold set_updated_at. grow_direct. Qed.

Lemma search_grows self q k : keeps logs_grow (search self q k).
Proof. intros w r w' E. apply search_pure in E. subst. reflexivity. Qed.

Lemma call_gemini_grows self p : keeps logs_grow (_call_gemini self p).
Proof.
  intros w r w' E.
  destruct (call_gemini_traffic _ _ _ _ _ E) as (new & C & _ & _ & S).
  destruct (call_gemini_frame _ _ _ _ _ E)
    as (F1 & F2 & F3 & F4 & F5 & F6 & F7 & F8).
  unfold logs_grow. rewrite C, F3, F5, F6, F7, F8.
  repeat split; try reflexivity; try lia. apply prefix_app_r. reflexivity.
Qed.

Hint Resolve uuid4_grows time_now_grows upsert_grows get_rag_service_grows
  append_message_grows set_updated_at_grows search_grows call_gemini_grows : grows.

Lemma ingest_text_grows self text meta : keeps logs_grow (ingest_text self text meta).
Proof. unfold ingest_text, encode. grow. Qed.

Lemma ingest_chunks_grows self filename chunks count :
  keeps logs_grow (ingest_chunks self filename chunks count).
Proof.
  revert count. induction chunks as [|c l IH]; intros count; simpl.
  - grow.
  - grow_step; [apply ingest_text_grows|apply IH].
Qed.

Lemma ingest_file_grows filename size text :
  keeps logs_grow (ingest_file filename size text).
Proof.
  pose proof ingest_chunks_grows. unfold ingest_file. grow.
Qed.

Lemma summarize_document_grows filename :
  keeps logs_grow (summarize_document filename).
Proof. unfold summarize_document, summarize_text. grow. Qed.

Lemma delete_document_grows filename : keeps logs_grow (delete_document filename).
Proof. unfold delete_document. grow. Qed.

Lemma rename_conversation_grows cid t :
  keeps logs_grow (rename_conversation cid t).
Proof. unfold rename_conversation. grow. Qed.

Lemma delete_conversation_grows cid : keeps logs_grow (delete_conversation cid).
Proof. unfold delete_conversation. grow. Qed.

Lemma chat_turn_grows service q ctx : keeps logs_grow (chat_turn service q ctx).
Proof. unfold chat_turn, generate_answer. grow. Qed.

Lemma query_index_grows q : keeps logs_grow (query_index q).
Proof.
  pose proof chat_turn_grows. unfold query_index. grow.
Qed.

(** X14.  Whatever request is served, and whether it succeeds or fails,
    nothing is ever removed from the vector index, from the record of
    calls to the language model or from the query log: each is extended
    at its end only; and no counter (uuids, clock readings, service
    constructions, time slept) goes down. *)
Theorem serve_only_appends r w :
  index_upserts w `prefix_of` index_upserts (serve r w)
  /\ genai_calls w `prefix_of` genai_calls (serve r w)
  /\ query_analytics w `prefix_of` query_analytics (serve r w)
  /\ (uuid_count w <= uuid_count (serve r w))%nat
  /\ (clock_reads w <= clock_reads (serve r w))%nat
  /\ (boot_count w <= boot_count (serve r w))%nat
  /\ slept w <= slept (serve r w).
Proof.
  change (logs_grow w (serve r w)).
  destruct r; simpl;
    match goal with
    | |- logs_grow _ (snd (?m _)) =>
        destruct (m w) as [res w'] eqn:E; simpl
    end.
  - exact (ingest_file_grows _ _ _ _ _ _ E).
  - exact (summarize_document_grows _ _ _ _ E).
  - exact (query_index_grows _ _ _ _ E).
  - exact (delete_document_grows _ _ _ _ E).
  - exact (rename_conversation_grows _ _ _ _ _ E).
  - exact (delete_conversation_grows _ _ _ _ E).
Qed.

End LogsGrowHandlers.

(** * Further properties of ingestion *)

Section IngestFile.

Context `{Ext : Externals}.

Lemma ingest_text_stores self text meta w r w' :
  ingest_text self text meta w = (r, w') ->
  document_store w' = document_store w
  /\ match r with
     | Raise e => exists msg, e = Exception msg
     | Ok _ => True
     end.
Proof.
  unfold ingest_text, bind, encode, lift_outcome, uuid4_str, upsert, raise, ret.
  destruct (negb (truthy (strip text))).
  { intros E. inversion E; subst. split; [reflexivity|exact I]. }
  destruct (model_encode text) as [msg|v].
  { intros E. inversion E; subst. split; [reflexivity|eauto]. }
  destruct (has_index self).
  - cbn [index_upserts with_uuid_count].
    destruct (index_upsert _ _) as [msg|]; intros E; inversion E; subst;
      (split; [reflexivity|]); [eauto|exact I].
  - intros E. inversion E; subst. split; [reflexivity|exact I].
Qed.

Lemma ingest_chunks_stores self filename chunks count w r w' :
  ingest_chunks self filename chunks count w = (r, w') ->
  document_store w' = document_store w
  /\ match r with
     | Raise e => exists msg, e = Exception msg
     | Ok _ => True
     end.
Proof.
  revert count w. induction chunks as [|c rest IH]; intros count w E.
  - inversion E; subst. split; [reflexivity|exact I].
  - rewrite ingest_chunks_step in E.
    destruct (ingest_text self c _ w) as [[r0|e] w1] eqn:Et.
    + destruct (ingest_text_stores _ _ _ _ _ _ Et) as [D _].
      destruct (IH _ _ E) as [D' R]. split; [congruence|exact R].
    + inversion E; subst. exact (ingest_text_stores _ _ _ _ _ _ Et).
Qed.

Lemma get_rag_service_documents w r w1 :
  get_rag_service w = (r, w1) -> document_store w1 = document_store w.
Proof.
  unfold get_rag_service. intros E.
  destruct (rag_service w); [inversion E; reflexivity|].
  destruct (service_boot (boot_count w)); inversion E; reflexivity.
Qed.

Lemma get_rag_service_raises w e w1 :
  get_rag_service w = (Raise e, w1) ->
  exists msg, e = HTTPException 503 (py "RAG Service unavailable: " ++ msg).
Proof.
  unfold get_rag_service. destruct (rag_service w); [discriminate|].
  destruct (service_boot (boot_count w)) as [msg|]; [|discriminate].
  intros E. inversion E. eauto.
Qed.

(** [ingest_file], outcome by outcome. *)
Lemma ingest_file_cases filename size text w :
  match get_rag_service w with
  | (Raise e, w1) => ingest_file filename size text w = (Raise e, w1)
  | (Ok service, w1) =>
      if blank text
      then ingest_file filename size text w
           = (Raise (HTTPException 400
                       (py "Could not extract any text from the file.")), w1)
      else
        match ingest_chunks service filename
                (smart_chunk text default_chunk_size default_overlap) 0 w1 with
        | (Raise (Exception msg), w2) =>
            ingest_file filename size text w = (Raise (HTTPException 500 msg), w2)
        | (Raise (HTTPException c d), w2) =>
            ingest_file filename size text w = (Raise (HTTPException c d), w2)
        | (Ok count, w2) =>
            ingest_file filename size text w
            = (Ok {| ing_filename := filename; ing_status := py "ingested";
                     chunks_processed := count; ing_size_bytes := size;
                     ing_preview := strip (take 300 text) |},
               with_document_store
                 (insert filename
                    (ingested_doc filename size text count
                       (time_time (clock_reads w2))))
                 (with_clock_reads S w2))
        end
  end.
Proof.
  destruct (get_rag_service w) as [[service|e] w1] eqn:Eg.
  - destruct (blank text) eqn:B.
    + unfold ingest_file. unfold bind at 1. rewrite Eg.
      unfold try_except. rewrite truthy_strip, B. reflexivity.
    + destruct (ingest_chunks service filename _ 0 w1)
        as [[count|[c d|msg]] w2] eqn:Ec;
        unfold ingest_file; unfold bind at 1; rewrite Eg;
        unfold try_except; rewrite truthy_strip, B; cbn [negb];
        unfold bind at 1; rewrite Ec; reflexivity.
  - unfold ingest_file. unfold bind at 1. rewrite Eg. reflexivity.
Qed.

Lemma ingest_file_stores_metadata_aux filename size text w resp w' :
  ingest_file filename size text w = (Ok resp, w') ->
  exists ts,
    document_store w'
    = <[filename := ingested_doc filename size text (chunks_processed resp) ts]>
        (document_store w).
Proof.
  intros E. pose proof (ingest_file_cases filename size text w) as C.
  destruct (get_rag_service w) as [[service|e1] w1] eqn:Eg;
    [|rewrite C in E; discriminate E].
  pose proof (get_rag_service_documents _ _ _ Eg) as D.
  destruct (blank text); [rewrite C in E; discriminate E|].
  destruct (ingest_chunks service filename _ 0 w1) as [[count|e2] w2] eqn:Ec.
  - destruct (ingest_chunks_stores _ _ _ _ _ _ _ Ec) as [D' _].
    rewrite C in E. inversion E; subst resp w'. clear E.
    cbn [chunks_processed document_store with_document_store with_clock_reads].
    eexists. rewrite D', D. reflexivity.
  - destruct e2; rewrite C in E; discriminate E.
Qed.


(** X16.  A successful [ingest_file] puts exactly one entry in the
    document store, under the file name, replacing an earlier one of that
    name and leaving the others: it holds the given size, the whole text,
    the number of chunks of the text, and as preview the trimmed first 300
    characters.  The response reports the same values. *)
Theorem ingest_file_stores_metadata filename size text w resp w' :
  ingest_file filename size text w = (Ok resp, w') ->
  blank text = false
  /\ (exists ts,
        document_store w'
        = <[filename := ingested_doc filename size text (chunks_processed resp) ts]>
            (document_store w))
  /\ (forall other, other <> filename ->
        document_store w' !! other = document_store w !! other)
  /\ resp = {| ing_filename := filename; ing_status := py "ingested";
               chunks_processed :=
                 Z.of_nat (length (smart_chunk text default_chunk_size
                                     default_overlap));
               ing_size_bytes := size;
               ing_preview := strip (take 300 text) |}
  /\ len (ing_preview resp) <= 300.
Proof.
  intros E. pose proof (ingest_file_cases filename size text w) as C.
  destruct (get_rag_service w) as [[service|e1] w1] eqn:Eg;
    [|rewrite C in E; discriminate E].
  pose proof (get_rag_service_documents _ _ _ Eg) as D.
  destruct (blank text); [rewrite C in E; discriminate E|].
  destruct (ingest_chunks service filename _ 0 w1) as [[count|e2] w2] eqn:Ec.
  - destruct (ingest_chunks_stores _ _ _ _ _ _ _ Ec) as [D' _].
    destruct (ingest_chunks_count _ _ _ _ _ _ _ Ec) as (Hn & _).
    rewrite C in E. inversion E; subst resp w'. clear E.
    cbn [chunks_processed document_store with_document_store with_clock_reads
         ing_preview].
    split; [reflexivity|]. split; [eexists; rewrite D', D; reflexivity|].
    split; [intros other Hne; rewrite lookup_insert_ne by congruence; congruence|].
    split; [rewrite Hn; reflexivity|].
    unfold len. pose proof (length_strip (take 300 text)) as L.
    rewrite length_take in L. lia.
  - destruct e2; rewrite C in E; discriminate E.
Qed.

(** X17.  Ingesting a file and then deleting it by name gives back the
    document store without that name (the store as it was, if the name was
    new), while the vectors upserted by the ingest stay in the index. *)
Theorem ingest_then_delete filename size text w resp w' :
  ingest_file filename size text w = (Ok resp, w') ->
  exists w'',
    delete_document filename w' = (Ok (py "deleted", filename), w'')
    /\ document_store w'' = delete filename (document_store w)
    /\ (document_store w !! filename = None -> document_store w'' = document_store w)
    /\ index_upserts w'' = index_upserts w'
    /\ index_upserts w `prefix_of` index_upserts w''.
Proof.
  intros E.
  destruct (ingest_file_stores_metadata_aux filename size text w resp w' E)
    as (ts & Hs).
  pose proof (ingest_file_grows _ _ _ _ _ _ E) as (G & _).
  unfold delete_document, bind, gets, modify, ret, in_store.
  rewrite Hs, lookup_insert_eq. eexists. split; [reflexivity|].
  cbn [document_store with_document_store index_upserts].
  rewrite Hs, delete_insert_eq.
  split; [reflexivity|]. split; [apply delete_id|]. split; [reflexivity|exact G].
Qed.

End IngestFile.

(** * Summaries and conversations *)

Section SummariesAndConversations.

Context `{Ext : Externals}.

(** X18.  With a service at hand, [summarize_document] answers 404 for an
    unknown file name without calling the model; for a known one it always
    returns a summary, obtained from the model with a prompt built from at
    most the first 3000 characters of the text, and it leaves the
    documents, the conversations and the index as they were. *)
Theorem summarize_document_outcomes filename w service :
  rag_service w = Some service ->
  (document_store w !! filename = None ->
   summarize_document filename w
   = (Raise (HTTPException 404 (py "Document not found")), w))
  /\ (forall d, document_store w !! filename = Some d ->
      exists summary w',
        summarize_document filename w = (Ok (filename, summary), w')
        /\ _call_gemini service
             (summary_prompt (take 3000 (full_text d)) filename) w
           = (Ok summary, w')
        /\ len (take 3000 (full_text d)) <= 3000
        /\ document_store w' = document_store w
        /\ conversation_store w' = conversation_store w
        /\ index_upserts w' = index_upserts w).
Proof.
  intros Hs.
  assert (U : summarize_document filename w
              = match document_store w !! filename with
                | None => (Raise (HTTPException 404 (py "Document not found")), w)
                | Some d =>
                    match _call_gemini service
                            (summary_prompt (take 3000 (full_text d)) filename) w with
                    | (Ok summary, w') => (Ok (filename, summary), w')
                    | (Raise e, w') => (Raise e, w')
                    end
                end).
  { unfold summarize_document, summarize_text, bind, gets, get_rag_service.
    rewrite Hs. destruct (document_store w !! filename); reflexivity. }
  rewrite U. split.
  - intros H. rewrite H. reflexivity.
  - intros d H. rewrite H.
    destruct (call_gemini_ok service
                (summary_prompt (take 3000 (full_text d)) filename) w)
      as (summary & w' & E & F).
    rewrite E. exists summary, w'. split; [reflexivity|]. split; [reflexivity|].
    destruct F as (F1 & F2 & F3 & F4 & F5 & _).
    split; [|repeat split; assumption].
    unfold len. rewrite length_take. lia.
Qed.

(** X19.  [rename_conversation] answers 404 for an unknown id and changes
    nothing; for a known one it replaces the title and nothing else: the
    messages and both timestamps of that conversation, every other
    conversation, the documents and the index stay as they were. *)
Theorem rename_conversation_title_only cid new_title w :
  (conversation_store w !! cid = None ->
   rename_conversation cid new_title w
   = (Raise (HTTPException 404 (py "Conversation not found")), w))
  /\ (forall c, conversation_store w !! cid = Some c ->
      exists w',
        rename_conversation cid new_title w
        = (Ok (py "renamed", cid, new_title), w')
        /\ conversation_store w' !! cid
           = Some {| conv_id := conv_id c; title := new_title;
                     messages := messages c; created_at := created_at c;
                     updated_at := updated_at c |}
        /\ (forall other, other <> cid ->
              conversation_store w' !! other = conversation_store w !! other)
        /\ document_store w' = document_store w
        /\ index_upserts w' = index_upserts w).
Proof.
  unfold rename_conversation, bind, gets, modify, ret, raise, not_found. split.
  - intros ->. reflexivity.
  - intros c ->. eexists. split; [reflexivity|].
    cbn [conversation_store with_conversation_store document_store index_upserts].
    split; [apply lookup_insert_eq|]. split; [|split; reflexivity].
    intros other Hne. apply lookup_insert_ne. congruence.
Qed.

(** X20.  [delete_conversation] answers 404 for an unknown id and changes
    nothing; for a known one it removes that conversation and no other,
    and leaves the documents and the index as they were. *)
Theorem delete_conversation_only_that_one cid w :
  (conversation_store w !! cid = None ->
   delete_conversation cid w
   = (Raise (HTTPException 404 (py "Conversation not found")), w))
  /\ (is_Some (conversation_store w !! cid) ->
      exists w',
        delete_conversation cid w = (Ok (py "deleted", cid), w')
        /\ conversation_store w' !! cid = None
        /\ (forall other, other <> cid ->
              conversation_store w' !! other = conversation_store w !! other)
        /\ document_store w' = document_store w
        /\ index_upserts w' = index_upserts w).
Proof.
  unfold delete_conversation, bind, gets, modify, ret, raise, not_found, in_store.
  split.
  - intros ->. reflexivity.
  - intros [c ->]. eexists. split; [reflexivity|].
    cbn [conversation_store with_conversation_store document_store index_upserts].
    split; [apply lookup_delete_eq|]. split; [|split; reflexivity].
    intros other Hne. apply lookup_delete_ne. congruence.
Qed.

Lemma get_conversation_found cid w c :
  conversation_store w !! cid = Some c -> get_conversation cid w = (Ok c, w).
Proof.
  intros H. unfold get_conversation, bind, gets, ret. rewrite H.
  destruct c; reflexivity.
Qed.

Lemma get_conversation_missing cid w :
  conversation_store w !! cid = None ->
  get_conversation cid w
  = (Raise (HTTPException 404 (py "Conversation not found")), w).
Proof.
  intros H. unfold get_conversation, bind, gets, raise, not_found.
  rewrite H. reflexivity.
Qed.

(** X21.  Reading a conversation back: after a successful rename
    [get_conversation] returns the conversation with the new title and its
    old messages; after a successful delete it answers 404; and it never
    changes the state. *)
Theorem get_conversation_after_change cid w :
  (forall r w', get_conversation cid w = (r, w') -> w' = w)
  /\ (forall new_title r w' c,
        conversation_store w !! cid = Some c ->
        rename_conversation cid new_title w = (Ok r, w') ->
        exists c', get_conversation cid w' = (Ok c', w')
                   /\ title c' = new_title
                   /\ messages c' = messages c)
  /\ (forall r w',
        delete_conversation cid w = (Ok r, w') ->
        get_conversation cid w'
        = (Raise (HTTPException 404 (py "Conversation not found")), w')).
Proof.
  split; [|split].
  - intros r w'. unfold get_conversation, bind, gets, ret, raise.
    destruct (conversation_store w !! cid); intros E; inversion E; reflexivity.
  - intros new_title r w' c Hc.
    unfold rename_conversation, bind, gets, modify, ret. rewrite Hc.
    intros E. inversion E; subst. eexists. split.
    + apply get_conversation_found.
      cbn [conversation_store with_conversation_store]. apply lookup_insert_eq.
    + split; reflexivity.
  - intros r w'.
    unfold delete_conversation, bind, gets, modify, ret, raise.
    destruct (in_store cid (conversation_store w)); intros E; inversion E; subst.
    apply get_conversation_missing.
    cbn [conversation_store with_conversation_store]. apply lookup_delete_eq.
Qed.

(** X22.  After a chat query that returned, [get_conversation] on the
    returned id finds the conversation, and its last two messages are the
    query, from the user, and the returned answer, from the assistant. *)
Theorem get_conversation_after_chat q w resp w' :
  mode q = py "chat" ->
  query_index q w = (Ok resp, w') ->
  exists cid ans c older,
    resp_conversation_id resp = Some cid
    /\ answer resp = Some ans
    /\ get_conversation cid w' = (Ok c, w')
    /\ messages c = older ++ [ {| role := user; content := req_query q |};
                               {| role := assistant; content := ans |} ].
Proof.
  intros Hmode E.
  destruct (query_index_chat_recorded q w resp w' Hmode E)
    as (ans & Ha & Hc & conv' & Hs & Hm & _).
  exists (target_conversation q w), ans, conv', (earlier_messages q w).
  split; [exact Hc|]. split; [exact Ha|]. split; [|exact Hm].
  apply get_conversation_found. rewrite Hs. apply lookup_insert_eq.
Qed.

Lemma content_in_block msg : occurs_in (content msg) (export_block msg).
Proof.
  unfold export_block.
  apply occurs_in_app_l, occurs_in_app_l, occurs_in_app_l, occurs_in_app_l.
  apply occurs_in_app_r, occurs_in_refl.
Qed.

(** X23.  [export_conversation] answers 404 for an unknown id; for a
    known one it returns a text that starts with "# " and the title and in
    which the content of every message of the conversation occurs; it
    never changes the state. *)
Theorem export_conversation_holds_messages cid w :
  (conversation_store w !! cid = None ->
   export_conversation cid w
   = (Raise (HTTPException 404 (py "Conversation not found")), w))
  /\ (forall c, conversation_store w !! cid = Some c ->
      exists text rest,
        export_conversation cid w = (Ok text, w)
        /\ text = py "# " ++ title c ++ rest
        /\ forall msg, In msg (messages c) -> occurs_in (content msg) text).
Proof.
  unfold export_conversation, bind, gets, ret, raise, not_found. split.
  - intros ->. reflexivity.
  - intros c ->.
    set (second := py "*Exported from Endee RAG Assistant*" ++ nl ++ nl
                   ++ py "---" ++ nl).
    exists (join nl ((py "# " ++ title c ++ nl) :: second
                     :: map export_block (messages c))),
           (nl ++ nl ++ join nl (second :: map export_block (messages c))).
    split; [reflexivity|]. split.
    + rewrite join_cons. rewrite <- !app_assoc. reflexivity.
    + intros msg Hmsg.
      apply (occurs_in_trans _ (export_block msg)); [apply content_in_block|].
      apply occurs_in_join. right. right.
      apply in_map. exact Hmsg.
Qed.

End SummariesAndConversations.

(** * Queries, step by step *)

Section QuerySteps.

Context `{Ext : Externals}.

Lemma chat_history_ext cid w1 w2 :
  conversation_store w1 = conversation_store w2 ->
  chat_history cid w1 = chat_history cid w2.
Proof. intros E. unfold chat_history. rewrite E. reflexivity. Qed.

(** The chat branch in full: the model is asked once through
    [_call_gemini], then the turn is written. *)
Lemma chat_turn_full service q ctx w :
  exists ans wg w' conv',
    _call_gemini service
      (answer_prompt (req_query q) ctx (chat_history (conversation_id q) w)) w
    = (Ok ans, wg)
    /\ chat_turn service q ctx w = (Ok (ans, target_conversation q w), w')
    /\ conversation_store w'
       = <[target_conversation q w := conv']> (conversation_store w)
    /\ messages conv' = earlier_messages q w ++ turn_messages q ans
    /\ (forall c conv, known_conversation (conversation_id q) w = Some c ->
          conversation_store w !! c = Some conv ->
          conv_id conv' = conv_id conv /\ title conv' = title conv
          /\ created_at conv' = created_at conv
          /\ updated_at conv' = time_time (clock_reads w)
          /\ clock_reads w' = S (clock_reads w))
    /\ (known_conversation (conversation_id q) w = None ->
          conv_id conv' = uuid4 (uuid_count w)
          /\ title conv' = generate_title_from_query (req_query q)
          /\ created_at conv' = time_time (clock_reads w)
          /\ updated_at conv' = time_time (S (S (clock_reads w)))
          /\ clock_reads w' = S (S (S (clock_reads w))))
    /\ genai_calls w' = genai_calls wg
    /\ query_analytics w' = query_analytics w
    /\ document_store w' = document_store w
    /\ index_upserts w' = index_upserts w.
Proof.
  unfold chat_turn, target_conversation, earlier_messages.
  unfold bind at 1. unfold gets at 1. unfold bind at 1. unfold generate_answer.
  destruct (call_gemini_ok service
              (answer_prompt (req_query q) ctx (chat_history (conversation_id q) w)) w)
    as (ans & wg & Eg & F).
  rewrite Eg. destruct F as (F1 & F2 & F3 & F4 & F5 & F6 & F7 & F8).
  unfold bind at 1. unfold gets at 1.
  rewrite (known_conversation_ext (conversation_id q) wg w F1).
  destruct (known_conversation (conversation_id q) w) as [c|] eqn:Ek.
  - apply known_conversation_lookup in Ek as [Hid [conv Hconv]].
    rewrite Hconv.
    unfold bind at 1. unfold ret at 1.
    unfold bind at 1. unfold append_message at 1. rewrite F1, Hconv.
    unfold bind at 1. unfold append_message at 1.
    cbn [conversation_store with_conversation_store].
    rewrite lookup_insert_eq.
    unfold bind at 1. unfold time_now at 1.
    unfold bind at 1. unfold set_updated_at at 1.
    cbn [conversation_store with_conversation_store with_clock_reads].
    rewrite lookup_insert_eq.
    unfold ret.
    eexists ans, wg, _, _. split; [reflexivity|]. split; [reflexivity|].
    cbn [conversation_store with_conversation_store with_clock_reads
         uuid_count index_upserts document_store messages genai_calls
         query_analytics clock_reads conv_id title created_at updated_at].
    rewrite !insert_insert_eq, F1, F7.
    split; [reflexivity|]. split; [rewrite <- app_assoc; reflexivity|].
    split.
    { intros c0 conv0 Hc0 Hconv0. inversion Hc0; subst c0.
      rewrite Hconv in Hconv0. inversion Hconv0; subst conv0.
      repeat split. }
    split; [discriminate|]. repeat split; assumption.
  - unfold bind at 1. unfold bind at 1. unfold uuid4_str at 1.
    unfold bind at 1. unfold time_now at 1.
    unfold bind at 1. unfold time_now at 1.
    unfold bind at 1. unfold modify at 1. unfold ret at 1.
    unfold bind at 1. unfold append_message at 1.
    cbn [conversation_store with_conversation_store with_clock_reads
         with_uuid_count uuid_count clock_reads].
    rewrite lookup_insert_eq.
    unfold bind at 1. unfold append_message at 1.
    cbn [conversation_store with_conversation_store].
    rewrite lookup_insert_eq.
    unfold bind at 1. unfold time_now at 1.
    unfold bind at 1. unfold set_updated_at at 1.
    cbn [conversation_store with_conversation_store with_clock_reads].
    rewrite lookup_insert_eq.
    unfold ret. rewrite F6.
    eexists ans, wg, _, _. split; [reflexivity|]. split; [reflexivity|].
    cbn [conversation_store with_conversation_store with_clock_reads
         with_uuid_count uuid_count index_upserts document_store messages
         genai_calls query_analytics clock_reads conv_id title created_at
         updated_at].
    rewrite !insert_insert_eq, F1, F7.
    split; [reflexivity|]. split; [reflexivity|].
    split; [intros c0 conv0 Hc0; discriminate Hc0|].
    split; [intros _; repeat split|]. repeat split; assumption.
Qed.

(** A query that returns, in full. *)
Lemma query_index_full q w resp w' :
  query_index q w = (Ok resp, w') ->
  exists service w1 hits w2,
    get_rag_service w = (Ok service, w1)
    /\ search service (req_query q) (top_k q) (with_clock_reads S w1)
       = (Ok hits, with_clock_reads S w1)
    /\ results resp = map format_result hits
    /\ (if decide (mode q = py "chat")
        then exists ans cid,
               chat_turn service q (context_of hits) (with_clock_reads S w1)
               = (Ok (ans, cid), w2)
               /\ answer resp = Some ans
               /\ resp_conversation_id resp = Some cid
        else w2 = with_clock_reads S w1
             /\ answer resp = None
             /\ resp_conversation_id resp = conversation_id q)
    /\ w' = logged q (length hits) (time_time (clock_reads w1)) w2.
Proof.
  intros E. unfold query_index in E. unfold bind at 1 in E.
  destruct (get_rag_service w) as [[service|e] w1] eqn:Eg; [|discriminate E].
  unfold bind at 1 in E. unfold time_now at 1 in E.
  unfold bind at 1 in E.
  destruct (search service (req_query q) (top_k q) (with_clock_reads S w1))
    as [[hits|e] w2] eqn:Es; [|discriminate E].
  pose proof (search_pure _ _ _ _ _ _ Es) as ->.
  exists service, w1, hits.
  destruct (decide (mode q = py "chat")) as [Hm|Hm].
  - unfold bind at 1 in E. unfold bind at 1 in E.
    destruct (chat_turn_full service q (context_of hits) (with_clock_reads S w1))
      as (ans & wg & w2 & conv' & _ & Et & _).
    rewrite Et in E.
    unfold bind, ret, time_now, modify in E. cbn [fst snd] in E.
    inversion E; subst resp w'; clear E.
    exists w2. split; [reflexivity|]. split; [exact Es|].
    split; [reflexivity|]. split; [eauto|].
    unfold logged, query_log_entry. rewrite length_map. reflexivity.
  - unfold bind, ret, time_now, modify in E. cbn [fst snd] in E.
    inversion E; subst resp w'; clear E.
    exists (with_clock_reads S w1). split; [reflexivity|]. split; [exact Es|].
    split; [reflexivity|]. split; [repeat split|].
    unfold logged, query_log_entry. rewrite length_map. reflexivity.
Qed.

(** A query that fails has left the state after [get_rag_service], or one
    clock reading later. *)
Lemma query_index_raise_full q w e w' :
  query_index q w = (Raise e, w') ->
  exists r w1, get_rag_service w = (r, w1)
               /\ (w' = w1 \/ w' = with_clock_reads S w1).
Proof.
  intros E. unfold query_index in E. unfold bind at 1 in E.
  destruct (get_rag_service w) as [[service|e1] w1] eqn:Eg.
  - unfold bind at 1 in E. unfold time_now at 1 in E. unfold bind at 1 in E.
    destruct (search service (req_query q) (top_k q) (with_clock_reads S w1))
      as [[hits|e2] w2] eqn:Es.
    + exfalso. pose proof (search_pure _ _ _ _ _ _ Es) as ->.
      destruct (decide (mode q = py "chat")).
      * unfold bind at 1 in E. unfold bind at 1 in E.
        destruct (chat_turn_full service q (context_of hits) (with_clock_reads S w1))
          as (ans & wg & w3 & conv' & _ & Et & _).
        rewrite Et in E. unfold bind, ret, time_now, modify in E. discriminate E.
      * unfold bind, ret, time_now, modify in E. discriminate E.
    + pose proof (search_pure _ _ _ _ _ _ Es) as ->.
      inversion E; subst. eauto.
  - inversion E; subst. eauto.
Qed.

Lemma get_rag_service_logs w r w1 :
  get_rag_service w = (r, w1) ->
  query_analytics w1 = query_analytics w
  /\ genai_calls w1 = genai_calls w
  /\ clock_reads w1 = clock_reads w.
Proof.
  unfold get_rag_service. intros E.
  destruct (rag_service w); [inversion E; repeat split|].
  destruct (service_boot (boot_count w)); inversion E; repeat split.
Qed.

End QuerySteps.

(** * The query log, the prompt and the timestamps *)

Section QueryLog.

Context `{Ext : Externals}.

Lemma query_index_analytics q w resp w' :
  query_index q w = (Ok resp, w') ->
  exists t_start t_end ts,
    query_analytics w'
    = query_analytics w
      ++ [query_log_entry q (length (results resp)) t_start t_end ts].
Proof.
  intros E.
  destruct (query_index_full q w resp w' E)
    as (service & w1 & hits & w2 & Eg & Es & Hr & Hb & ->).
  destruct (get_rag_service_logs _ _ _ Eg) as (Q1 & _ & _).
  assert (Q2 : query_analytics w2 = query_analytics w).
  { destruct (decide (mode q = py "chat")).
    - destruct Hb as (ans & cid & Et & _).
      destruct (chat_turn_full service q (context_of hits) (with_clock_reads S w1))
        as (ans' & wg & w2' & conv' & _ & Et' & _ & _ & _ & _ & _ & Q & _).
      rewrite Et in Et'. inversion Et'; subst. rewrite Q. exact Q1.
    - destruct Hb as (-> & _). exact Q1. }
  unfold logged. cbn [query_analytics with_query_analytics with_clock_reads].
  rewrite Q2, Hr, length_map. eauto.
Qed.

(** X24.  A query that returns appends exactly one entry to the query
    log, holding the query, the mode and the number of results returned;
    a query that fails appends none.  [get_stats] then counts one query
    more. *)
Theorem query_index_logs_once q w :
  (forall resp w', query_index q w = (Ok resp, w') ->
     exists entry,
       query_analytics w' = query_analytics w ++ [entry]
       /\ log_query entry = req_query q
       /\ log_mode entry = mode q
       /\ results_count entry = Z.of_nat (length (results resp))
       /\ total_queries (get_stats w') = total_queries (get_stats w) + 1)
  /\ (forall e w', query_index q w = (Raise e, w') ->
        query_analytics w' = query_analytics w).
Proof.
  split.
  - intros resp w' E.
    destruct (query_index_analytics q w resp w' E) as (t1 & t2 & ts & H).
    eexists. split; [exact H|]. repeat split.
    unfold get_stats. cbn [total_queries]. rewrite H, length_app. simpl. lia.
  - intros e w' E.
    destruct (query_index_raise_full q w e w' E) as (r & w1 & Eg & [->| ->]);
      destruct (get_rag_service_logs _ _ _ Eg) as (Q1 & _ & _); exact Q1.
Qed.

Lemma slice_from_last {A} (n : nat) (l : list A) :
  slice_from (- Z.of_nat (S n)) l = drop (length l - S n) l.
Proof.
  unfold slice_from.
  destruct (Z.ltb_spec (- Z.of_nat (S n)) 0); [|lia]. f_equal. lia.
Qed.

Lemma analytics_recent_take w :
  analytics_recent w = take 10 (rev (query_analytics w)).
Proof.
  unfold analytics_recent. rewrite (slice_from_last 9).
  symmetry. apply firstn_rev.
Qed.

(** X25.  The [recent] list of the analytics endpoint holds at most ten
    entries, newest first: it is the first ten of the log read backwards,
    and after a query that returned it starts with that query's entry,
    followed by the first nine of what it was. *)
Theorem analytics_recent_newest_first q w resp w' :
  query_index q w = (Ok resp, w') ->
  (length (analytics_recent w') <= 10)%nat
  /\ analytics_recent w' = take 10 (rev (query_analytics w'))
  /\ exists entry,
       query_analytics w' = query_analytics w ++ [entry]
       /\ analytics_recent w' = entry :: take 9 (analytics_recent w).
Proof.
  intros E.
  destruct (query_index_analytics q w resp w' E) as (t1 & t2 & ts & H).
  rewrite !analytics_recent_take.
  split; [rewrite length_take; lia|]. split; [reflexivity|].
  eexists. split; [exact H|].
  rewrite H, rev_app_distr. simpl rev. simpl app.
  rewrite take_take. reflexivity.
Qed.

(** X26.  In a chat query the model is only ever sent one prompt, built
    from the query, the contents of the hits that are neither empty nor
    the placeholder, and the history; the history is the last six
    messages of the conversation named in the request (none when the
    request names no known conversation), so at most six. *)
Theorem chat_query_prompt_history q w resp w' :
  mode q = py "chat" ->
  query_index q w = (Ok resp, w') ->
  (exists hits new,
     results resp = map format_result hits
     /\ genai_calls w' = genai_calls w ++ new
     /\ forall c, In c new ->
          snd c = answer_prompt (req_query q) (context_of hits)
                    (chat_history (conversation_id q) w))
  /\ (length (chat_history (conversation_id q) w) <= 6)%nat
  /\ (forall c conv, conversation_id q = Some c -> c <> [] ->
        conversation_store w !! c = Some conv ->
        chat_history (conversation_id q) w
        = drop (length (messages conv) - 6) (messages conv))
  /\ (known_conversation (conversation_id q) w = None ->
        chat_history (conversation_id q) w = []).
Proof.
  intros Hmode E. split; [|split; [|split]].
  - destruct (query_index_full q w resp w' E)
      as (service & w1 & hits & w2 & Eg & Es & Hr & Hb & ->).
    destruct (decide (mode q = py "chat")) as [_|]; [|contradiction].
    destruct Hb as (ans & cid & Et & _).
    destruct (chat_turn_full service q (context_of hits) (with_clock_reads S w1))
      as (ans' & wg & w2' & conv' & Ec & Et' & _ & _ & _ & _ & G & _).
    rewrite Et in Et'. inversion Et'; subst ans' w2'. clear Et'.
    destruct (call_gemini_traffic _ _ _ _ _ Ec) as (new & C & _ & F & _).
    destruct (get_rag_service_logs _ _ _ Eg) as (_ & G1 & _).
    destruct (get_rag_service_conversations _ _ _ Eg) as [Hc1 _].
    exists hits, new. split; [exact Hr|]. split.
    + unfold logged. cbn [genai_calls with_query_analytics with_clock_reads].
      rewrite G, C. cbn [genai_calls with_clock_reads]. rewrite G1. reflexivity.
    + intros c Hc. rewrite List.Forall_forall in F.
      destruct (F c Hc) as [_ ->]. f_equal.
      apply chat_history_ext. exact Hc1.
  - unfold chat_history. destruct (conversation_id q) as [c|]; [|simpl; lia].
    destruct (truthy c); [|simpl; lia].
    destruct (conversation_store w !! c) as [conv|]; [|simpl; lia].
    rewrite (slice_from_last 5), length_drop. lia.
  - intros c conv Hid Hne Hconv. unfold chat_history. rewrite Hid, Hconv.
    destruct c; [contradiction|]. simpl truthy. cbv iota.
    apply (slice_from_last 5).
  - intros K. unfold chat_history, known_conversation, in_store in *.
    destruct (conversation_id q) as [c|]; [|reflexivity].
    destruct (conversation_store w !! c); [discriminate K|].
    destruct (truthy c); reflexivity.
Qed.


End QueryLog.

(** * Timestamps of conversations *)

Section Timestamps.

Context `{Ext : Externals}.

Lemma stamped_later w w' :
  conversation_store w' = conversation_store w ->
  (clock_reads w <= clock_reads w')%nat ->
  stamped w -> stamped w'.
Proof.
  intros Hs Hc H k c L. rewrite Hs in L.
  destruct (H k c L) as (i & j & Hij & A & B).
  exists i, j. split; [lia|]. split; assumption.
Qed.

Lemma stamped_kept {A} (m : M A) w :
  keeps conversations_kept m -> keeps logs_grow m ->
  stamped w -> stamped (snd (m w)).
Proof.
  intros K G H. destruct (m w) as [r w'] eqn:E. simpl.
  destruct (K _ _ _ E) as [Hs _].
  destruct (G _ _ _ E) as (_ & _ & _ & _ & Hc & _).
  exact (stamped_later _ _ Hs Hc H).
Qed.

Lemma stamped_query q w : stamped w -> stamped (snd (query_index q w)).
Proof.
  intros H. destruct (query_index q w) as [[resp|e] w'] eqn:E; simpl.
  - destruct (query_index_full q w resp w' E)
      as (service & w1 & hits & w2 & Eg & Es & Hr & Hb & ->).
    destruct (get_rag_service_conversations _ _ _ Eg) as [Hc1 _].
    destruct (get_rag_service_logs _ _ _ Eg) as (_ & _ & Hk1).
    destruct (decide (mode q = py "chat")) as [_|_].
    + destruct Hb as (ans & cid & Et & _).
      destruct (chat_turn_full service q (context_of hits) (with_clock_reads S w1))
        as (ans' & wg & w2' & conv' & _ & Et' & Hs & _ & Hkn & Hnew & _).
      rewrite Et in Et'. inversion Et'; subst ans' w2' cid. clear Et'.
      assert (K : known_conversation (conversation_id q) (with_clock_reads S w1)
                  = known_conversation (conversation_id q) w)
        by (apply known_conversation_ext; exact Hc1).
      cbn [conversation_store with_clock_reads clock_reads] in Hs, Hkn, Hnew.
      rewrite Hc1 in Hs, Hkn. rewrite K in Hkn, Hnew. rewrite Hk1 in Hkn, Hnew.
      intros k c L. unfold logged in *.
      cbn [conversation_store clock_reads with_query_analytics with_clock_reads]
        in *.
      rewrite Hs in L.
      destruct (decide (target_conversation q (with_clock_reads S w1) = k))
        as [<-|Hne].
      * rewrite lookup_insert_eq in L. inversion L; subst c. clear L.
        destruct (known_conversation (conversation_id q) w) as [c0|] eqn:Kq.
        -- destruct (known_conversation_lookup _ _ _ Kq) as [_ [conv Hconv]].
           destruct (Hkn c0 conv eq_refl Hconv) as (_ & _ & C & U & N).
           destruct (H c0 conv Hconv) as (i & j & Hij & Ci & Uj).
           exists i, (S (clock_reads w)). split; [lia|].
           split; [congruence|exact U].
        -- destruct (Hnew eq_refl) as (_ & _ & C & U & N).
           exists (S (clock_reads w)), (S (S (S (clock_reads w)))).
           split; [lia|]. split; assumption.
      * rewrite lookup_insert_ne in L by exact Hne.
        destruct (H k c L) as (i & j & Hij & Ci & Uj).
        assert (clock_reads w < clock_reads w2)%nat.
        { destruct (known_conversation (conversation_id q) w) as [c0|] eqn:Kq.
          - destruct (known_conversation_lookup _ _ _ Kq) as [_ [conv Hconv]].
            destruct (Hkn c0 conv eq_refl Hconv) as (_ & _ & _ & _ & N). lia.
          - destruct (Hnew eq_refl) as (_ & _ & _ & _ & N). lia. }
        exists i, j. split; [lia|]. split; assumption.
    + destruct Hb as (-> & _).
      apply (stamped_later w); [exact Hc1| |exact H].
      unfold logged. simpl. lia.
  - destruct (query_index_raise_full q w e w' E) as (r & w1 & Eg & Hw).
    destruct (get_rag_service_conversations _ _ _ Eg) as [Hc1 _].
    destruct (get_rag_service_logs _ _ _ Eg) as (_ & _ & Hk1).
    destruct Hw as [->| ->]; apply (stamped_later w); try exact H;
      try exact Hc1; simpl; lia.
Qed.

Lemma stamped_rename cid t w :
  stamped w -> stamped (snd (rename_conversation cid t w)).
Proof.
  intros H. unfold rename_conversation, bind, gets, modify, ret, raise.
  destruct (conversation_store w !! cid) as [c|] eqn:L; simpl; [|exact H].
  intros k c' L'. cbn [conversation_store with_conversation_store clock_reads] in *.
  destruct (decide (cid = k)) as [<-|Hne].
  - rewrite lookup_insert_eq in L'. inversion L'; subst c'. simpl.
    exact (H cid c L).
  - rewrite lookup_insert_ne in L' by exact Hne. exact (H k c' L').
Qed.

Lemma stamped_delete cid w :
  stamped w -> stamped (snd (delete_conversation cid w)).
Proof.
  intros H. unfold delete_conversation, bind, gets, modify, ret, raise.
  destruct (in_store cid (conversation_store w)); simpl; [|exact H].
  intros k c L. cbn [conversation_store with_conversation_store clock_reads] in *.
  apply lookup_delete_Some in L as [_ L]. exact (H k c L).
Qed.

Lemma reachable_stamped w : reachable w -> stamped w.
Proof.
  induction 1 as [existing|r w _ IH].
  - intros k c L. simpl in L. rewrite lookup_empty in L. discriminate L.
  - destruct r; simpl.
    + apply stamped_kept;
        [apply ingest_file_keeps_conversations|apply ingest_file_grows|exact IH].
    + apply stamped_kept;
        [apply summarize_document_keeps_conversations
        |apply summarize_document_grows|exact IH].
    + apply stamped_query, IH.
    + apply stamped_kept;
        [apply delete_document_keeps_conversations
        |apply delete_document_grows|exact IH].
    + apply stamped_rename, IH.
    + apply stamped_delete, IH.
Qed.

(** X28.  With a clock that never runs backwards, in every state the
    process can reach every conversation was last updated no earlier than
    it was created. *)
Theorem conversation_updated_after_created w k c :
  (forall i j, (i <= j)%nat -> time_time i <= time_time j) ->
  reachable w ->
  conversation_store w !! k = Some c ->
  created_at c <= updated_at c.
Proof.
  intros Hmono Hreach L.
  destruct (reachable_stamped w Hreach k c L) as (i & j & Hij & -> & ->).
  apply Hmono. lia.
Qed.

End Timestamps.

(** * Counting documents and chunks *)

Section Stats.

Context `{Ext : Externals}.

Lemma chunk_sum_insert_new (m : gmap pystr DocMeta) i x :
  m !! i = None ->
  map_fold (fun _ d acc => doc_chunks d + acc) 0 (<[i := x]> m)
  = doc_chunks x + map_fold (fun _ d acc => doc_chunks d + acc) 0 m.
Proof.
  intros H.
  apply (map_fold_insert_L (fun _ d acc => doc_chunks d + acc)); [|exact H].
  intros. lia.
Qed.

Lemma chunk_sum_delete (m : gmap pystr DocMeta) i x :
  m !! i = Some x ->
  map_fold (fun _ d acc => doc_chunks d + acc) 0 m
  = doc_chunks x + map_fold (fun _ d acc => doc_chunks d + acc) 0 (delete i m).
Proof.
  intros H.
  apply (map_fold_delete_L (fun _ d acc => doc_chunks d + acc)); [|exact H].
  intros. lia.
Qed.

Lemma chunk_sum_insert (m : gmap pystr DocMeta) i x :
  map_fold (fun _ d acc => doc_chunks d + acc) 0 (<[i := x]> m)
  = doc_chunks x + map_fold (fun _ d acc => doc_chunks d + acc) 0 m
    - match m !! i with Some y => doc_chunks y | None => 0 end.
Proof.
  destruct (m !! i) as [y|] eqn:L.
  - rewrite <- insert_delete_eq.
    rewrite chunk_sum_insert_new by apply lookup_delete_eq.
    rewrite (chunk_sum_delete m i y L). lia.
  - rewrite chunk_sum_insert_new by exact L. lia.
Qed.

(** X29.  The totals of [get_stats] follow the document store: a
    successful ingest adds the chunks it counted, less those of the entry
    it replaced, and one document if the name is new; a successful delete
    takes away the document and its chunks. *)
Theorem get_stats_follows_documents filename w :
  (forall size text resp w',
     ingest_file filename size text w = (Ok resp, w') ->
     total_chunks (get_stats w')
     = total_chunks (get_stats w) + chunks_processed resp
       - match document_store w !! filename with
         | Some old => doc_chunks old
         | None => 0
         end
     /\ total_documents (get_stats w')
        = total_documents (get_stats w)
          + match document_store w !! filename with
            | Some _ => 0
            | None => 1
            end)
  /\ (forall r w' d,
        document_store w !! filename = Some d ->
        delete_document filename w = (Ok r, w') ->
        total_chunks (get_stats w') = total_chunks (get_stats w) - doc_chunks d
        /\ total_documents (get_stats w') = total_documents (get_stats w) - 1).
Proof.
  split.
  - intros size text resp w' E.
    destruct (ingest_file_stores_metadata_aux filename size text w resp w' E)
      as (ts & Hs).
    unfold get_stats. cbn [total_chunks total_documents]. rewrite Hs. split.
    + rewrite chunk_sum_insert. simpl doc_chunks. lia.
    + rewrite map_size_insert.
      destruct (document_store w !! filename); simpl; lia.
  - intros r w' d Hd.
    unfold delete_document, bind, gets, modify, ret, raise, in_store.
    rewrite Hd. intros E. inversion E; subst. clear E.
    unfold get_stats.
    cbn [total_chunks total_documents document_store with_document_store].
    split.
    + rewrite (chunk_sum_delete (document_store w) filename d Hd). lia.
    + rewrite map_size_delete, Hd.
      assert (size (document_store w) <> 0%nat).
      { intros Z0. apply map_size_empty_inv in Z0. rewrite Z0 in Hd.
        rewrite lookup_empty in Hd. discriminate Hd. }
      simpl. lia.
Qed.

End Stats.

(** * The further properties at work on examples *)

Lemma smart_chunk_chunks_trimmed_witness :
  strip (py "bbb. ccc.") = py "bbb. ccc.".
Proof.
  apply (smart_chunk_chunks_trimmed 8 5 (py "aaa. bbb. ccc.") (py "bbb. ccc.")).
  vm_compute. right. right. left. reflexivity.
Defined.

Lemma smart_chunk_keeps_every_sentence_witness :
  exists c, In c (smart_chunk (py "aaa. bbb. ccc.") 8 5)
            /\ occurs_in (py "bbb.") c.
Proof.
  apply (smart_chunk_keeps_every_sentence 8 5 (py "aaa. bbb. ccc.") (py "bbb.")).
  vm_compute. right. left. reflexivity.
Defined.

Lemma smart_chunk_some_chunk_witness :
  smart_chunk (py "Hello world. This is a test.") 500 100 <> [].
Proof.
  apply (smart_chunk_some_chunk 500 100 (py "Hello world. This is a test.")).
  vm_compute. reflexivity.
Defined.

Lemma smart_chunk_lone_sentence_witness :
  smart_chunk (py "This sentence is longer than ten characters") 10 100
  = [py "This sentence is longer than ten characters"].
Proof.
  apply (smart_chunk_lone_sentence 10 100
           (py "This sentence is longer than ten characters")).
  vm_compute. reflexivity.
Defined.

Lemma sentences_of_shape_witness :
  py "bbb." <> [] /\ strip (py "bbb.") = py "bbb."
  /\ ~ In NL (py "bbb.") /\ contains (py ". ") (py "bbb.") = false.
Proof.
  apply (sentences_of_shape (py "aaa. bbb. ccc.") (py "bbb.")).
  vm_compute. right. left. reflexivity.
Defined.

Lemma rate_limit_shaped_ignores_case_witness :
  rate_limit_shaped (py "QUOTA exceeded") = rate_limit_shaped (py "quota EXCEEDED").
Proof.
  apply (rate_limit_shaped_ignores_case (py "QUOTA exceeded") (py "quota EXCEEDED")).
  vm_compute. reflexivity.
Defined.

Lemma call_gemini_returns_last_answer_witness :
  exists text w',
    @_call_gemini Demo.full Demo.full_service (py "What is X?") DemoStates.fresh
    = (Ok text, w')
    /\ text = py "An answer."
    /\ @genai_calls Demo.full w' = [(py "gemini-2.0-flash", py "What is X?")]
    /\ @slept Demo.full w' = 0.
Proof.
  assert (E : exists text w',
             @_call_gemini Demo.full Demo.full_service (py "What is X?")
               DemoStates.fresh = (Ok text, w'))
    by (eexists _, _; vm_compute; reflexivity).
  destruct E as (text & w' & E). exists text, w'. split; [exact E|].
  exact (proj2 (@call_gemini_returns_last_answer Demo.full Demo.full_service
                  (py "What is X?") DemoStates.fresh text w' eq_refl E)
           (py "An answer.") eq_refl).
Defined.

Lemma ingest_file_stores_metadata_witness :
  exists resp w',
    @ingest_file Demo.full (py "notes.txt") 28 (py "Hello world. This is a test.")
      DemoStates.fresh = (Ok resp, w')
    /\ chunks_processed resp = 1
    /\ ing_preview resp = py "Hello world. This is a test."
    /\ exists ts,
         @document_store Demo.full w'
         = <[py "notes.txt" :=
               ingested_doc (py "notes.txt") 28 (py "Hello world. This is a test.")
                 (chunks_processed resp) ts]> ∅.
Proof.
  assert (E : exists resp w',
             @ingest_file Demo.full (py "notes.txt") 28
               (py "Hello world. This is a test.") DemoStates.fresh = (Ok resp, w'))
    by (eexists _, _; vm_compute; reflexivity).
  destruct E as (resp & w' & E). exists resp, w'. split; [exact E|].
  destruct (@ingest_file_stores_metadata Demo.full _ _ _ _ _ _ E)
    as (_ & Hs & _ & -> & _).
  split; [vm_compute; reflexivity|]. split; [vm_compute; reflexivity|exact Hs].
Defined.

Lemma ingest_then_delete_witness :
  exists resp w' w'',
    @ingest_file Demo.full (py "notes.txt") 28 (py "Hello world. This is a test.")
      DemoStates.fresh = (Ok resp, w')
    /\ @delete_document Demo.full (py "notes.txt") w'
       = (Ok (py "deleted", py "notes.txt"), w'')
    /\ @document_store Demo.full w'' = ∅
    /\ @index_upserts Demo.full w'' = @index_upserts Demo.full w'.
Proof.
  assert (E : exists resp w',
             @ingest_file Demo.full (py "notes.txt") 28
               (py "Hello world. This is a test.") DemoStates.fresh = (Ok resp, w'))
    by (eexists _, _; vm_compute; reflexivity).
  destruct E as (resp & w' & E).
  destruct (@ingest_then_delete Demo.full _ _ _ _ _ _ E)
    as (w'' & D & _ & Hnew & Hi & _).
  exists resp, w', w''. split; [exact E|]. split; [exact D|].
  split; [exact (Hnew eq_refl)|exact Hi].
Defined.

Lemma summarize_document_outcomes_witness :
  @summarize_document Demo.full (py "unknown.txt") DemoStates.with_notes
  = (Raise (HTTPException 404 (py "Document not found")), DemoStates.with_notes)
  /\ exists summary w',
       @summarize_document Demo.full (py "notes.txt") DemoStates.with_notes
       = (Ok (py "notes.txt", summary), w')
       /\ @document_store Demo.full w'
          = @document_store Demo.full DemoStates.with_notes.
Proof.
  destruct (@summarize_document_outcomes Demo.full (py "notes.txt")
              DemoStates.with_notes Demo.full_service eq_refl) as [_ Known].
  destruct (@summarize_document_outcomes Demo.full (py "unknown.txt")
              DemoStates.with_notes Demo.full_service eq_refl) as [Unknown _].
  split.
  - apply Unknown. vm_compute. reflexivity.
  - destruct (Known Demo.notes) as (summary & w' & E & _ & _ & D & _).
    + vm_compute. reflexivity.
    + exists summary, w'. split; assumption.
Defined.

Lemma get_conversation_after_chat_witness :
  exists resp w' cid c,
    @query_index Demo.full (Demo.chat_request None) DemoStates.fresh = (Ok resp, w')
    /\ resp_conversation_id resp = Some cid
    /\ @get_conversation Demo.full cid w' = (Ok c, w')
    /\ exists ans older,
         messages c = older ++ [ {| role := user; content := py "what is X" |};
                                 {| role := assistant; content := ans |} ].
Proof.
  assert (E : exists resp w',
             @query_index Demo.full (Demo.chat_request None) DemoStates.fresh
             = (Ok resp, w'))
    by (eexists _, _; vm_compute; reflexivity).
  destruct E as (resp & w' & E).
  destruct (@get_conversation_after_chat Demo.full (Demo.chat_request None)
              DemoStates.fresh resp w' eq_refl E)
    as (cid & ans & c & older & A & _ & G & M).
  exists resp, w', cid, c. split; [exact E|]. split; [exact A|].
  split; [exact G|]. exists ans, older. exact M.
Defined.

Lemma analytics_recent_newest_first_witness :
  exists resp w' entry,
    @query_index Demo.full (Demo.search_request None) DemoStates.fresh
    = (Ok resp, w')
    /\ @analytics_recent Demo.full w' = [entry]
    /\ log_query entry = py "what is X".
Proof.
  assert (E : exists resp w',
             @query_index Demo.full (Demo.search_request None) DemoStates.fresh
             = (Ok resp, w'))
    by (eexists _, _; vm_compute; reflexivity).
  destruct E as (resp & w' & E).
  destruct (@analytics_recent_newest_first Demo.full _ _ _ _ E)
    as (_ & _ & entry & Hq & Hr).
  destruct (@query_index_analytics Demo.full _ _ _ _ E) as (t1 & t2 & ts & Hq').
  rewrite Hq in Hq'. apply app_inv_head in Hq'. inversion Hq'; subst entry.
  eexists resp, w', _. split; [exact E|]. split; [exact Hr|reflexivity].
Defined.

Lemma chat_query_prompt_history_witness :
  exists resp w' hits new,
    @query_index Demo.full (Demo.chat_request None) DemoStates.fresh = (Ok resp, w')
    /\ results resp = map format_result hits
    /\ @genai_calls Demo.full w' = new
    /\ forall c, In c new ->
         snd c = answer_prompt (py "what is X") (context_of hits) [].
Proof.
  assert (E : exists resp w',
             @query_index Demo.full (Demo.chat_request None) DemoStates.fresh
             = (Ok resp, w'))
    by (eexists _, _; vm_compute; reflexivity).
  destruct E as (resp & w' & E).
  destruct (@chat_query_prompt_history Demo.full (Demo.chat_request None)
              DemoStates.fresh resp w' eq_refl E)
    as ((hits & new & Hr & Hc & Hp) & _ & _ & Hnone).
  exists resp, w', hits, new. split; [exact E|]. split; [exact Hr|].
  split; [exact Hc|].
  intros c Hin. rewrite (Hp c Hin), (Hnone eq_refl). reflexivity.
Defined.


Lemma conversation_updated_after_created_witness :
  exists c,
    @conversation_store Demo.full DemoStates.after_chat !! (py "conv-" ++ [0%N])
    = Some c
    /\ created_at c <= updated_at c.
Proof.
  assert (L : exists c,
             @conversation_store Demo.full DemoStates.after_chat
               !! (py "conv-" ++ [0%N]) = Some c)
    by (eexists; vm_compute; reflexivity).
  destruct L as (c & L). exists c. split; [exact L|].
  apply (@conversation_updated_after_created Demo.full DemoStates.after_chat
           (py "conv-" ++ [0%N]) c).
  - intros i j Hij. simpl. lia.
  - apply reach_serve, reach_startup.
  - exact L.
Defined.


Lemma ingest_text_outcomes_witness :
  exists id w',
    @ingest_text Demo.full Demo.full_service (py "Hello world.") None
      DemoStates.fresh = (Ok (Some id), w')
    /\ id = py "conv-" ++ [0%N]
    /\ @index_upserts Demo.full w'
       = [ {| rec_id := id; rec_vector := py "Hello world."; rec_meta := None |} ].
Proof.
  assert (E : exists id w',
             @ingest_text Demo.full Demo.full_service (py "Hello world.") None
               DemoStates.fresh = (Ok (Some id), w'))
    by (eexists _, _; vm_compute; reflexivity).
  destruct E as (id & w' & E). exists id, w'. split; [exact E|].
  destruct (@ingest_text_outcomes Demo.full Demo.full_service (py "Hello world.")
              None DemoStates.fresh) as (_ & Some_id & _).
  destruct (Some_id id w' E) as (_ & _ & Hid & _ & v & Hv & Hu).
  split; [exact Hid|]. rewrite Hu.
  inversion Hv; subst v. reflexivity.
Defined.

Lemma get_rag_service_lazy_witness :
  exists w1,
    @get_rag_service DemoDown.down DemoDown.fresh
    = (Raise (HTTPException 503
                (py "RAG Service unavailable: " ++ py "connection refused")), w1)
    /\ @rag_service DemoDown.down w1 = None
    /\ @boot_count DemoDown.down w1 = 2%nat.
Proof.
  assert (E : exists e w1,
             @get_rag_service DemoDown.down DemoDown.fresh = (Raise e, w1))
    by (eexists _, _; vm_compute; reflexivity).
  destruct E as (e & w1 & E).
  destruct (@get_rag_service_lazy DemoDown.down DemoDown.fresh) as (_ & _ & Fails).
  destruct (Fails e w1 E) as (_ & Hn & Hb & msg & Hm & He).
  exists w1. rewrite E, He.
  inversion Hm; subst msg.
  split; [reflexivity|]. split; [exact Hn|exact Hb].
Defined.


Lemma rename_conversation_title_only_witness :
  exists c w',
    @conversation_store Demo.full DemoStates.after_chat !! (py "conv-" ++ [0%N])
    = Some c
    /\ @rename_conversation Demo.full (py "conv-" ++ [0%N]) (py "Renamed")
         DemoStates.after_chat
       = (Ok (py "renamed", py "conv-" ++ [0%N], py "Renamed"), w')
    /\ @conversation_store Demo.full w' !! (py "conv-" ++ [0%N])
       = Some {| conv_id := conv_id c; title := py "Renamed";
                 messages := messages c; created_at := created_at c;
                 updated_at := updated_at c |}.
Proof.
  assert (L : exists c,
             @conversation_store Demo.full DemoStates.after_chat
               !! (py "conv-" ++ [0%N]) = Some c)
    by (eexists; vm_compute; reflexivity).
  destruct L as (c & L).
  destruct (proj2 (@rename_conversation_title_only Demo.full (py "conv-" ++ [0%N])
                     (py "Renamed") DemoStates.after_chat) c L)
    as (w' & E & S & _).
  exists c, w'. split; [exact L|]. split; [exact E|exact S].
Defined.

Lemma delete_conversation_only_that_one_witness :
  exists w',
    @delete_conversation Demo.full (py "conv-" ++ [0%N]) DemoStates.after_chat
    = (Ok (py "deleted", py "conv-" ++ [0%N]), w')
    /\ @conversation_store Demo.full w' !! (py "conv-" ++ [0%N]) = None.
Proof.
  assert (L : is_Some (@conversation_store Demo.full DemoStates.after_chat
                         !! (py "conv-" ++ [0%N])))
    by (eexists; vm_compute; reflexivity).
  destruct (proj2 (@delete_conversation_only_that_one Demo.full
                     (py "conv-" ++ [0%N]) DemoStates.after_chat) L)
    as (w' & E & S & _).
  exists w'. split; [exact E|exact S].
Defined.

Lemma get_conversation_after_change_witness :
  exists r w' c',
    @rename_conversation Demo.full (py "conv-" ++ [0%N]) (py "Renamed")
      DemoStates.after_chat = (Ok r, w')
    /\ @get_conversation Demo.full (py "conv-" ++ [0%N]) w' = (Ok c', w')
    /\ title c' = py "Renamed".
Proof.
  assert (L : exists c,
             @conversation_store Demo.full DemoStates.after_chat
               !! (py "conv-" ++ [0%N]) = Some c)
    by (eexists; vm_compute; reflexivity).
  destruct L as (c & L).
  assert (E : exists r w',
             @rename_conversation Demo.full (py "conv-" ++ [0%N]) (py "Renamed")
               DemoStates.after_chat = (Ok r, w'))
    by (eexists _, _; vm_compute; reflexivity).
  destruct E as (r & w' & E).
  destruct (@get_conversation_after_change Demo.full (py "conv-" ++ [0%N])
              DemoStates.after_chat) as (_ & Renamed & _).
  destruct (Renamed (py "Renamed") r w' c L E) as (c' & G & T & _).
  exists r, w', c'. split; [exact E|]. split; [exact G|exact T].
Defined.

Lemma export_conversation_holds_messages_witness :
  exists c text,
    @conversation_store Demo.full DemoStates.after_chat !! (py "conv-" ++ [0%N])
    = Some c
    /\ @export_conversation Demo.full (py "conv-" ++ [0%N]) DemoStates.after_chat
       = (Ok text, DemoStates.after_chat)
    /\ forall msg, In msg (messages c) -> occurs_in (content msg) text.
Proof.
  assert (L : exists c,
             @conversation_store Demo.full DemoStates.after_chat
               !! (py "conv-" ++ [0%N]) = Some c)
    by (eexists; vm_compute; reflexivity).
  destruct L as (c & L).
  destruct (proj2 (@export_conversation_holds_messages Demo.full
                     (py "conv-" ++ [0%N]) DemoStates.after_chat) c L)
    as (text & rest & E & _ & H).
  exists c, text. split; [exact L|]. split; [exact E|exact H].
Defined.

Lemma query_index_logs_once_witness :
  exists resp w' entry,
    @query_index Demo.full (Demo.search_request None) DemoStates.fresh
    = (Ok resp, w')
    /\ @query_analytics Demo.full w' = [entry]
    /\ log_query entry = py "what is X"
    /\ log_mode entry = py "search"
    /\ total_queries (@get_stats Demo.full w') = 1.
Proof.
  assert (E : exists resp w',
             @query_index Demo.full (Demo.search_request None) DemoStates.fresh
             = (Ok resp, w'))
    by (eexists _, _; vm_compute; reflexivity).
  destruct E as (resp & w' & E).
  destruct (proj1 (@query_index_logs_once Demo.full (Demo.search_request None)
                     DemoStates.fresh) resp w' E)
    as (entry & Hl & Hq & Hm & _ & Ht).
  exists resp, w', entry. split; [exact E|]. split; [exact Hl|].
  split; [exact Hq|]. split; [exact Hm|exact Ht].
Defined.

Lemma get_stats_follows_documents_witness :
  exists resp w',
    @ingest_file Demo.full (py "notes.txt") 28 (py "Hello world. This is a test.")
      DemoStates.fresh = (Ok resp, w')
    /\ total_chunks (@get_stats Demo.full w') = chunks_processed resp
    /\ total_documents (@get_stats Demo.full w') = 1.
Proof.
  assert (E : exists resp w',
             @ingest_file Demo.full (py "notes.txt") 28
               (py "Hello world. This is a test.") DemoStates.fresh = (Ok resp, w'))
    by (eexists _, _; vm_compute; reflexivity).
  destruct E as (resp & w' & E).
  destruct (proj1 (@get_stats_follows_documents Demo.full (py "notes.txt")
                     DemoStates.fresh) 28 (py "Hello world. This is a test.")
              resp w' E) as (Hc & Hd).
  exists resp, w'. split; [exact E|]. split.
  - rewrite Hc. change (total_chunks (@get_stats Demo.full DemoStates.fresh)) with 0.
    change (@document_store Demo.full DemoStates.fresh !! py "notes.txt")
      with (@None DocMeta). cbv iota. lia.
  - rewrite Hd. reflexivity.
Defined.
